(** * secrethub-cli audit command: table formatting, column widths, pager sink

    A shallow embedding of the audit command of secrethub-cli
    (package [secrethub], the file that defines [AuditCommand]):

    - [columnFormatter.columnWidths], the column-width allocator,
    - [columnFormatter.formatRow] and [jsonFormatter.formatRow],
    - [AuditCommand.iterAndAuditTable], the path dispatch,
    - [paginatedWriter.IsClosed] and [paginatedWriter.Close],
    - the audit tables of secrets and repositories, [pagerCommand] and
      [AuditCommand.run],

    and of two neighbours of it in the package: [debugFlag] and
    [RepoInitCommand.Run].

    Go's [int] is taken to be the 64-bit two's complement integer of the
    platforms the CLI is released for; every arithmetic operation wraps.
    Go strings are byte sequences, modelled as [list ascii]. *)

From Stdlib Require Import ZArith Lia Ascii String.
From stdpp Require Import gmap strings list fin_maps.

Local Open Scope Z_scope.

(** ** Outcomes of Go code *)

(** The run-time panics the modelled functions can raise. *)
Inductive panic : Type :=
| DivideByZero        (* integer divide by zero *)
| IndexOutOfRange     (* index out of range *)
| SliceBounds         (* slice bounds out of range *)
| NegativeRepeat.     (* strings.Repeat: negative Repeat count *)

(** A call returns, panics, or is cut off by the fuel that bounds the
    model's loops.  Every loop below is shown to need only finite fuel. *)
Inductive outcome (A : Type) : Type :=
| Ret (a : A)
| Panic (p : panic)
| Diverges.

Arguments Ret {A} a.
Arguments Panic {A} p.
Arguments Diverges {A}.

#[global] Instance outcome_ret : MRet outcome := fun A a => Ret a.

#[global] Instance outcome_bind : MBind outcome := fun A B k m =>
  match m with
  | Ret a => k a
  | Panic p => Panic p
  | Diverges => Diverges
  end.

Definition returns {A : Type} (m : outcome A) : Prop := exists a, m = Ret a.

(** ** Go's [int] *)

Module Int.

Definition min_int : Z := - 2 ^ 63.
Definition max_int : Z := 2 ^ 63 - 1.

(** Two's complement wrap-around to 64 bits. *)
Definition wrap (z : Z) : Z := (z + 2 ^ 63) `mod` 2 ^ 64 - 2 ^ 63.

Definition add (a b : Z) : Z := wrap (a + b).
Definition sub (a b : Z) : Z := wrap (a - b).
Definition mul (a b : Z) : Z := wrap (a * b).

(** [a / b]: truncated toward zero, panics on a zero divisor. *)
Definition div (a b : Z) : outcome Z :=
  if b =? 0 then Panic DivideByZero else Ret (wrap (a `quot` b)).

(** [a % b]: sign of the dividend, panics on a zero divisor. *)
Definition rem (a b : Z) : outcome Z :=
  if b =? 0 then Panic DivideByZero else Ret (wrap (a `rem` b)).

Definition in_range (z : Z) : Prop := min_int <= z <= max_int.

End Int.

(** [len] of a slice or string. *)
Definition len {A : Type} (l : list A) : Z := Z.of_nat (length l).

(** ** Table columns *)

Abbreviation gostring := (list ascii) (only parsing).

Definition str (s : string) : gostring := list_ascii_of_string s.

Record auditTableColumn : Type := {
  name : gostring;
  maxWidth : Z
}.

(** ** The column formatter and its width allocator *)

Record columnFormatter : Type := {
  tableWidth : Z;
  computedColumnWidths : option (list Z);
  columns : list auditTableColumn
}.

Definition newColumnFormatter (tableWidth : Z) (columns : list auditTableColumn)
  : columnFormatter :=
  {| tableWidth := tableWidth; computedColumnWidths := None; columns := columns |}.

Module Widths.

(** The share every column gets when nothing is capped:
    [(tableWidth - 2*(len(columns)-1)) / len(columns)]. *)
Definition available (tableWidth : Z) (n : Z) : Z :=
  Int.sub tableWidth (Int.mul 2 (Int.sub n 1)).

Definition naiveShare (tableWidth : Z) (columns : list auditTableColumn)
  : outcome Z :=
  Int.div (available tableWidth (len columns)) (len columns).

(** One pass of
    [for i, col := range f.columns { if res[i] == 0 && col.maxWidth != 0 &&
     col.maxWidth < widthPerColumn { res[i] = col.maxWidth; adjusted = true } }]. *)
Fixpoint pin (widthPerColumn : Z) (columns : list auditTableColumn)
    (res : list Z) : list Z * bool :=
  match columns, res with
  | col :: columns', r :: res' =>
      let '(res'', adjusted) := pin widthPerColumn columns' res' in
      if (r =? 0) && negb (maxWidth col =? 0) && (maxWidth col <? widthPerColumn)
      then (maxWidth col :: res'', true)
      else (r :: res'', adjusted)
  | _, _ => (res, false)
  end.

(** [for _, width := range res { if width != 0 { count--; widthLeft -= width } }] *)
Definition tally (res : list Z) (count widthLeft : Z) : Z * Z :=
  foldl (fun '(count, widthLeft) width =>
           if width =? 0 then (count, widthLeft)
           else (Int.sub count 1, Int.sub widthLeft width))
        (count, widthLeft) res.

(** [for i := range res { res[i] += widthLeft / len(res) }] *)
Definition spread (res : list Z) (widthLeft : Z) : outcome (list Z) :=
  match res with
  | [] => Ret []
  | _ => d ← Int.div widthLeft (len res);
         Ret (map (fun r => Int.add r d) res)
  end.

(** What the [for adjusted { ... }] loop leaves behind: the widths pinned
    so far, the share of the columns still at zero, and whether the loop
    was left through the [count == 0] branch. *)
Record balanced : Type := {
  pinned : list Z;
  share : Z;
  allPinned : bool
}.

Fixpoint balance (fuel : nat) (tableWidth : Z) (columns : list auditTableColumn)
    (res : list Z) (widthPerColumn : Z) : outcome balanced :=
  match fuel with
  | O => Diverges
  | S fuel' =>
      let '(res, adjusted) := pin widthPerColumn columns res in
      if negb adjusted
      then Ret {| pinned := res; share := widthPerColumn; allPinned := false |}
      else
        let '(count, widthLeft) :=
          tally res (len columns) (available tableWidth (len columns)) in
        if count =? 0
        then res' ← spread res widthLeft;
             Ret {| pinned := res'; share := widthPerColumn; allPinned := true |}
        else widthPerColumn' ← Int.div widthLeft count;
             balance fuel' tableWidth columns res widthPerColumn'
  end.

(** [for i := range res { if res[i] == 0 { res[i] = widthPerColumn } }] *)
Definition fill (widthPerColumn : Z) (res : list Z) : list Z :=
  map (fun r => if r =? 0 then widthPerColumn else r) res.

(** The loop pins at least one more column in every round but the last,
    so [len(columns) + 1] rounds are enough. *)
Definition rounds (columns : list auditTableColumn) : nat := S (length columns).

Definition run (tableWidth : Z) (columns : list auditTableColumn)
  : outcome balanced :=
  widthPerColumn ← naiveShare tableWidth columns;
  balance (rounds columns) tableWidth columns
          (replicate (length columns) 0) widthPerColumn.

(** The allocation for a table width and column list, before memoization. *)
Definition allocate (tableWidth : Z) (columns : list auditTableColumn)
  : outcome (list Z) :=
  b ← run tableWidth columns;
  Ret (fill (share b) (pinned b)).

End Widths.

(** [columnFormatter.columnWidths]: the cached widths when there are some,
    otherwise the allocation, which is then cached in the formatter. *)
Definition columnWidths (f : columnFormatter) : outcome (list Z * columnFormatter) :=
  match computedColumnWidths f with
  | Some res => Ret (res, f)
  | None =>
      res ← Widths.allocate (tableWidth f) (columns f);
      Ret (res, {| tableWidth := tableWidth f;
                   computedColumnWidths := Some res;
                   columns := columns f |})
  end.

(** The columns of the two audit tables ([newBaseAuditTable]). *)
Definition baseColumns (midColumns : list auditTableColumn) : list auditTableColumn :=
  ([ {| name := str "AUTHOR"; maxWidth := 32 |};
     {| name := str "EVENT"; maxWidth := 22 |} ] ++ midColumns)
  ++ [ {| name := str "IP ADDRESS"; maxWidth := 45 |};
       {| name := str "DATE"; maxWidth := 22 |} ].

Definition secretColumns : list auditTableColumn := baseColumns [].

Definition repoColumns : list auditTableColumn :=
  baseColumns [ {| name := str "EVENT SUBJECT"; maxWidth := 0 |} ].

(** [header]: the column names, in column order. *)
Definition header (columns : list auditTableColumn) : list gostring :=
  map name columns.

(** ** Slices and strings *)

(** [l[i]], which panics out of range. *)
Definition index {A : Type} (l : list A) (i : nat) : outcome A :=
  match l !! i with
  | Some x => Ret x
  | None => Panic IndexOutOfRange
  end.

(** [s[:n]] and [s[n:]] on a string. *)
Definition sliceTo (s : gostring) (n : Z) : outcome gostring :=
  if (n <? 0) || (len s <? n) then Panic SliceBounds
  else Ret (take (Z.to_nat n) s).

Definition sliceFrom (s : gostring) (n : Z) : outcome gostring :=
  if (n <? 0) || (len s <? n) then Panic SliceBounds
  else Ret (drop (Z.to_nat n) s).

Definition space : ascii := " "%char.
Definition newline : ascii := "010"%char.

(** [strings.Repeat(" ", n)] *)
Definition repeatSpace (n : Z) : outcome gostring :=
  if n <? 0 then Panic NegativeRepeat else Ret (replicate (Z.to_nat n) space).

(** [strings.Join(elems, sep)] *)
Fixpoint join (elems : list gostring) (sep : gostring) : gostring :=
  match elems with
  | [] => []
  | [e] => e
  | e :: elems' => e ++ sep ++ join elems' sep
  end.

(** Errors returned as values. *)
Inductive error : Type :=
| ErrUnexpectedJSONFields       (* "unexpected number of json fields" *)
| ErrCannotAuditSecretVersion
| ErrCannotAuditDir
| ErrNoValidRepoOrSecretPath
| ErrExternal (code : nat).     (* an error of a collaborator, passed through *)

(** ** [columnFormatter.formatRow] *)

Module ColumnFormatter.

Abbreviation grid := (list (list gostring)) (only parsing).

(** [splitCells[j][i] = s] *)
Definition setCell (splitCells : grid) (j i : nat) (s : gostring) : outcome grid :=
  line ← index splitCells j;
  if decide (i < length line)%nat
  then Ret (<[j := <[i := s]> line]> splitCells)
  else Panic IndexOutOfRange.

(** The number of lines one cell needs: [len(cell) / width], plus one when
    [len(cell) % width != 0]. *)
Definition cellLines (columnWidth : Z) (cell : gostring) : outcome Z :=
  lines ← Int.div (len cell) columnWidth;
  r ← Int.rem (len cell) columnWidth;
  Ret (if r =? 0 then lines else Int.add lines 1).

(** The first loop over the row, from cell [i] on. *)
Fixpoint maxLines (columnWidths : list Z) (i : nat) (row : list gostring)
    (maxLinesPerCell : Z) : outcome Z :=
  match row with
  | [] => Ret maxLinesPerCell
  | cell :: row' =>
      w ← index columnWidths i;
      lines ← cellLines w cell;
      maxLines columnWidths (S i) row'
               (if lines >? maxLinesPerCell then lines else maxLinesPerCell)
  end.

(** [for ; len(cell) > columnWidths[i]; j++ { splitCells[j][i] = cell[:w];
     cell = cell[w:] }]; returns the rest of the cell and [j]. *)
Fixpoint wrapCell (fuel : nat) (w : Z) (i : nat) (cell : gostring) (j : nat)
    (splitCells : grid) : outcome (gostring * nat * grid) :=
  if len cell >? w then
    match fuel with
    | O => Diverges
    | S fuel' =>
        chunk ← sliceTo cell w;
        splitCells ← setCell splitCells j i chunk;
        cell ← sliceFrom cell w;
        wrapCell fuel' w i cell (S j) splitCells
    end
  else Ret (cell, j, splitCells).

(** [for ; j < maxLinesPerCell; j++ { splitCells[j][i] = strings.Repeat(" ", w) }] *)
Fixpoint blankLines (fuel : nat) (w : Z) (i : nat) (j : nat) (maxLinesPerCell : Z)
    (splitCells : grid) : outcome grid :=
  if Z.of_nat j <? maxLinesPerCell then
    match fuel with
    | O => Diverges
    | S fuel' =>
        blank ← repeatSpace w;
        splitCells ← setCell splitCells j i blank;
        blankLines fuel' w i (S j) maxLinesPerCell splitCells
    end
  else Ret splitCells.

(** The body of the second loop, for cell [i]. *)
Definition splitCell (w : Z) (i : nat) (cell : gostring) (maxLinesPerCell : Z)
    (splitCells : grid) : outcome grid :=
  '(cell, j, splitCells) ← wrapCell (S (length cell)) w i cell 0 splitCells;
  pad ← repeatSpace (Int.sub w (len cell));
  splitCells ← setCell splitCells j i (cell ++ pad);
  blankLines (Z.to_nat maxLinesPerCell) w i (S j) maxLinesPerCell splitCells.

(** The second loop over the row, from cell [i] on. *)
Fixpoint splitRow (columnWidths : list Z) (i : nat) (row : list gostring)
    (maxLinesPerCell : Z) (splitCells : grid) : outcome grid :=
  match row with
  | [] => Ret splitCells
  | cell :: row' =>
      w ← index columnWidths i;
      splitCells ← splitCell w i cell maxLinesPerCell splitCells;
      splitRow columnWidths (S i) row' maxLinesPerCell splitCells
  end.

Definition separator : gostring := [space; space].

(** The last loop: every line of the grid joined by two spaces and ended
    by a newline.  [splitCells] has [maxLinesPerCell] lines. *)
Definition render (splitCells : grid) : gostring :=
  concat (map (fun line => join line separator ++ [newline]) splitCells).

(** The grid of chunks of a row for given column widths. *)
Definition split (columnWidths : list Z) (row : list gostring) : outcome grid :=
  maxLinesPerCell ← maxLines columnWidths 0 row 1;
  splitRow columnWidths 0 row maxLinesPerCell
           (replicate (Z.to_nat maxLinesPerCell) (replicate (length row) [])).

Definition format (columnWidths : list Z) (row : list gostring) : outcome gostring :=
  splitCells ← split columnWidths row;
  Ret (render splitCells).

(** [formatRow] proper: the widths come from the (memoizing) allocator, and
    the error result is always [nil]. *)
Definition formatRow (f : columnFormatter) (row : list gostring)
  : outcome (gostring * option error * columnFormatter) :=
  '(columnWidths, f) ← columnWidths f;
  out ← format columnWidths row;
  Ret (out, None, f).

Definition printHeader (f : columnFormatter) : bool := true.

End ColumnFormatter.

(** ** [jsonFormatter.formatRow] *)

Module JSONFormatter.

Record jsonFormatter : Type := { fields : list gostring }.

Definition newJSONFormatter (fieldNames : list gostring) : jsonFormatter :=
  {| fields := fieldNames |}.

Definition printHeader (f : jsonFormatter) : bool := false.

(** [for i, element := range row { jsonMap[f.fields[i]] = element }],
    from element [i] on. *)
Fixpoint fillMap (fields : list gostring) (i : nat) (row : list gostring)
    (jsonMap : gmap gostring gostring) : outcome (gmap gostring gostring) :=
  match row with
  | [] => Ret jsonMap
  | element :: row' =>
      field ← index fields i;
      fillMap fields (S i) row' (<[field := element]> jsonMap)
  end.

Section Marshal.

(** [json.Marshal] of package [encoding/json], at type
    [map[string]string]: the encoded bytes and an error. *)
Variable Marshal : gmap gostring gostring -> gostring * option error.

Definition formatRow (f : jsonFormatter) (row : list gostring)
  : outcome (gostring * option error) :=
  if negb (len (fields f) =? len row)
  then Ret ([], Some ErrUnexpectedJSONFields)
  else
    jsonMap ← fillMap (fields f) 0 row ∅;
    let '(jsonData, err) := Marshal jsonMap in
    match err with
    | Some err => Ret ([], Some err)
    | None => Ret (jsonData ++ [newline], None)
    end.

End Marshal.

End JSONFormatter.

(** ** [AuditCommand.iterAndAuditTable] *)

Module Audit.

(** What the collaborators of package [api] and of the client answer.  A
    path is given by the answers of its three methods. *)
Record RepoPath : Type := {
  repoValue : gostring;        (* [repoPath.Value()] *)
  repoDirValue : gostring      (* [repoPath.GetDirPath().Value()] *)
}.

Record Path : Type := {
  ToRepoPath : RepoPath + error;
  ToSecretPath : gostring + error;   (* [secretPath.Value()] on success *)
  HasVersion : bool
}.

Definition Tree : Type := nat.

Record Client : Type := {
  GetTree : gostring -> Tree + error;          (* [client.Dirs().GetTree] *)
  Exists : gostring -> bool * option error     (* [client.Dirs().Exists] *)
}.

Record AuditCommand : Type := {
  path : Path;
  newClient : Client + error;
  perPage : Z;
  json : bool
}.

Inductive AuditEventIterator : Type :=
| RepoEventIterator (path : gostring)
| SecretEventIterator (path : gostring).

Inductive auditTable : Type :=
| repoAuditTable (tree : Tree)
| secretAuditTable.

Definition tableColumns (t : auditTable) : list auditTableColumn :=
  match t with
  | repoAuditTable _ => repoColumns
  | secretAuditTable => secretColumns
  end.

(** The calls that leave the command, in the order they are made. *)
Inductive call : Type :=
| NewClient
| DirsGetTree (path : gostring)
| DirsExists (path : gostring)
| ReposEventIterator (path : gostring)
| SecretsEventIterator (path : gostring).

(** Computations that log their calls. *)
Definition Calls (A : Type) : Type := list call -> A * list call.

#[global] Instance calls_ret : MRet Calls := fun A a log => (a, log).

#[global] Instance calls_bind : MBind Calls := fun A B k m log =>
  let '(a, log) := m log in k a log.

Definition made {A : Type} (c : call) (answer : A) : Calls A :=
  fun log => (answer, log ++ [c]).

Definition result : Type := (AuditEventIterator * auditTable) + error.

Definition iterAndAuditTable (cmd : AuditCommand) : Calls result :=
  match ToRepoPath (path cmd) with
  | inl repoPath =>
      client ← made NewClient (newClient cmd);
      match client with
      | inr err => mret (inr err)
      | inl client =>
          tree ← made (DirsGetTree (repoDirValue repoPath))
                      (GetTree client (repoDirValue repoPath));
          match tree with
          | inr err => mret (inr err)
          | inl tree =>
              iter ← made (ReposEventIterator (repoValue repoPath))
                          (RepoEventIterator (repoValue repoPath));
              mret (inl (iter, repoAuditTable tree))
          end
      end
  | inr _ =>
      match ToSecretPath (path cmd) with
      | inl secretPath =>
          if HasVersion (path cmd)
          then mret (inr ErrCannotAuditSecretVersion)
          else
            client ← made NewClient (newClient cmd);
            match client with
            | inr err => mret (inr err)
            | inl client =>
                '(isDir, err) ← made (DirsExists secretPath)
                                     (Exists client secretPath);
                if bool_decide (err = None) && isDir
                then mret (inr ErrCannotAuditDir)
                else
                  iter ← made (SecretsEventIterator secretPath)
                              (SecretEventIterator secretPath);
                  mret (inl (iter, secretAuditTable))
            end
      | inr _ => mret (inr ErrNoValidRepoOrSecretPath)
      end
  end.

End Audit.

(** ** [paginatedWriter] *)

Module Pager.

(** The writer as the event loop sees it: [done] counts the values waiting
    in the [done] channel, which has room for one and receives one when the
    pager process has exited; [exited] says the watcher has sent it. *)
Record paginatedWriter : Type := {
  done : nat;
  exited : bool;
  closed : bool
}.

(** [newPaginatedWriter], once the pager is started. *)
Definition started : paginatedWriter :=
  {| done := 0; exited := false; closed := false |}.

(** The watcher goroutine: [cmd.Wait()] returns, then [done <- struct{}{}]. *)
Definition pagerExits (p : paginatedWriter) : paginatedWriter :=
  if exited p then p
  else {| done := S (done p); exited := true; closed := closed p |}.

(** A call either returns or waits on the channel. *)
Inductive waiting (A : Type) : Type :=
| Returns (a : A) (p : paginatedWriter)
| Blocks.

Arguments Returns {A} a p.
Arguments Blocks {A}.

Definition IsClosed (p : paginatedWriter) : bool * paginatedWriter :=
  if closed p then (true, p)
  else
    match done p with
    | S k => (true, {| done := k; exited := exited p; closed := true |})
    | O => (false, p)
    end.

(** [Close], given what [p.writer.Close()] returns. *)
Definition Close (writerClose : option error) (p : paginatedWriter)
  : waiting (option error) :=
  match writerClose with
  | Some err => Returns (Some err) p
  | None =>
      if negb (closed p)
      then match done p with
           | S k => Returns None {| done := k; exited := exited p; closed := closed p |}
           | O => Blocks
           end
      else Returns None p
  end.

(** [Write] forwards to the pipe and leaves the writer as it is. *)
Definition Write (data : gostring) (answer : Z * option error)
    (p : paginatedWriter) : (Z * option error) * paginatedWriter :=
  (answer, p).

(** What the loop of [run] and the pager can do between two checks. *)
Inductive step : Type :=
| DoWrite (data : gostring) (answer : Z * option error)
| DoIsClosed
| PagerExits.

(** Runs the steps and collects what the [IsClosed] calls returned. *)
Fixpoint steps (ss : list step) (p : paginatedWriter) : list bool * paginatedWriter :=
  match ss with
  | [] => ([], p)
  | DoWrite data answer :: ss' => steps ss' (Write data answer p).2
  | DoIsClosed :: ss' =>
      let '(b, p) := IsClosed p in
      let '(bs, p) := steps ss' p in
      (b :: bs, p)
  | PagerExits :: ss' => steps ss' (pagerExits p)
  end.

End Pager.

(** ** The audit tables *)

Module Table.

(** An audit event ([api.Audit]), given by its fields and by what the helpers
    of the package answer on it. *)
Record Event : Type := {
  actor : gostring + error;                    (* [getAuditActor(event)] *)
  action : gostring;                           (* [getEventAction(event)] *)
  subject : Audit.Tree -> gostring + error;    (* [getAuditSubject(event, tree)] *)
  IPAddress : gostring;                        (* [event.IPAddress] *)
  LoggedAt : nat                               (* [event.LoggedAt] *)
}.

(** [TimeFormatter.Format] *)
Definition TimeFormatter : Type := nat -> gostring.

Record baseAuditTable : Type := {
  tableColumns : list auditTableColumn;
  timeFormatter : TimeFormatter
}.

Definition newBaseAuditTable (timeFormatter : TimeFormatter)
    (midColumns : list auditTableColumn) : baseAuditTable :=
  {| tableColumns := baseColumns midColumns; timeFormatter := timeFormatter |}.

Definition baseHeader (table : baseAuditTable) : list gostring :=
  header (tableColumns table).

Definition baseRow (table : baseAuditTable) (event : Event) (content : list gostring)
  : list gostring + error :=
  match actor event with
  | inr err => inr err
  | inl actor =>
      let res := [actor; action event] ++ content in
      inl (res ++ [IPAddress event; timeFormatter table (LoggedAt event)])
  end.

Definition baseColumnsOf (table : baseAuditTable) : list auditTableColumn :=
  tableColumns table.

Record secretAuditTable : Type := { secretBase : baseAuditTable }.

Definition newSecretAuditTable (timeFormatter : TimeFormatter) : secretAuditTable :=
  {| secretBase := newBaseAuditTable timeFormatter [] |}.

Record repoAuditTable : Type := {
  repoBase : baseAuditTable;
  tree : Audit.Tree
}.

Definition newRepoAuditTable (tree : Audit.Tree) (timeFormatter : TimeFormatter)
  : repoAuditTable :=
  {| repoBase :=
       newBaseAuditTable timeFormatter [ {| name := str "EVENT SUBJECT"; maxWidth := 0 |} ];
     tree := tree |}.

(** The two implementations of the interface [auditTable]. *)
Inductive auditTable : Type :=
| Secret (table : secretAuditTable)
| Repo (table : repoAuditTable).

Definition header (t : auditTable) : list gostring :=
  match t with
  | Secret table => baseHeader (secretBase table)
  | Repo table => baseHeader (repoBase table)
  end.

Definition columns (t : auditTable) : list auditTableColumn :=
  match t with
  | Secret table => baseColumnsOf (secretBase table)
  | Repo table => baseColumnsOf (repoBase table)
  end.

Definition row (t : auditTable) (event : Event) : list gostring + error :=
  match t with
  | Secret table => baseRow (secretBase table) event []
  | Repo table =>
      match subject event (tree table) with
      | inr err => inr err
      | inl subject => baseRow (repoBase table) event [subject]
      end
  end.

(** The table [iterAndAuditTable] returns, with the time formatter of the
    command. *)
Definition ofAudit (timeFormatter : TimeFormatter) (t : Audit.auditTable) : auditTable :=
  match t with
  | Audit.repoAuditTable tree => Repo (newRepoAuditTable tree timeFormatter)
  | Audit.secretAuditTable => Secret (newSecretAuditTable timeFormatter)
  end.

End Table.

(** ** [pagerCommand] *)

Module PagerCommand.

(** The operating system as [pagerCommand] asks it: [os.ExpandEnv] and
    [exec.LookPath]. *)
Record OS : Type := {
  ExpandEnv : gostring -> gostring;
  LookPath : gostring -> gostring + error
}.

Inductive pagerError : Type :=
| errPagerNotFound.      (* "no terminal pager available" *)

Definition pagerEnvvar : gostring := str "$PAGER".

Definition pagerCommand (os : OS) : gostring + pagerError :=
  match LookPath os (ExpandEnv os pagerEnvvar) with
  | inl pager => inl pager
  | inr _ =>
      match LookPath os (str "less") with
      | inl pager => inl pager
      | inr _ =>
          match LookPath os (str "more") with
          | inl pager => inl pager
          | inr _ => inr errPagerNotFound
          end
      end
  end.

End PagerCommand.

(** ** [debugFlag] *)

Module DebugFlag.

(** The flag and its logger; of the logger only the calls of [EnableDebug]
    count. *)
Record debugFlag : Type := {
  debug : bool;
  enableDebugCalls : nat
}.

Section Strconv.

(** [strconv.ParseBool] and [strconv.FormatBool]. *)
Variable ParseBool : gostring -> bool + error.
Variable FormatBool : bool -> gostring.

(** [init]: [if f.debug { f.logger.EnableDebug() }] *)
Definition init (f : debugFlag) : debugFlag :=
  if debug f
  then {| debug := debug f; enableDebugCalls := S (enableDebugCalls f) |}
  else f.

Definition String (f : debugFlag) : gostring := FormatBool (debug f).

Definition Set_ (f : debugFlag) (value : gostring) : option error * debugFlag :=
  match ParseBool value with
  | inr err => (Some err, f)
  | inl b =>
      (None, init {| debug := b; enableDebugCalls := enableDebugCalls f |})
  end.

End Strconv.

Definition IsBoolFlag (f : debugFlag) : bool := true.

End DebugFlag.

(** ** [RepoInitCommand.Run] *)

Module RepoInit.

Record RepoPath : Type := {
  Value : gostring;       (* [cmd.path.Value()] *)
  String : gostring       (* [cmd.path.String()] *)
}.

Record Client : Type := {
  Create : gostring -> option error      (* the error of [client.Repos().Create] *)
}.

Record RepoInitCommand : Type := {
  path : RepoPath;
  newClient : Client + error
}.

(** What leaves the command: calls and text printed to [cmd.io.Output()]. *)
Inductive effect : Type :=
| NewClient
| ReposCreate (path : gostring)
| Print (text : gostring).

Definition creating : gostring := str "Creating repository..." ++ [newline].

Definition complete (path : gostring) : gostring :=
  str "Create complete! The repository " ++ path
  ++ str " is now ready to use." ++ [newline].

Definition Run (cmd : RepoInitCommand) : option error * list effect :=
  match newClient cmd with
  | inr err => (Some err, [NewClient])
  | inl client =>
      match Create client (Value (path cmd)) with
      | Some err =>
          (Some err, [NewClient; Print creating; ReposCreate (Value (path cmd))])
      | None =>
          (None, [NewClient; Print creating; ReposCreate (Value (path cmd));
                  Print (complete (String (path cmd)))])
      end
  end.

End RepoInit.

(** ** [AuditCommand.run] *)

Module Run.

(** The formatter chosen by [run]: the two implementations of
    [tableFormatter]. *)
Inductive tableFormatter : Type :=
| JSON (f : JSONFormatter.jsonFormatter)
| Columns (f : columnFormatter).

Definition printHeader (formatter : tableFormatter) : bool :=
  match formatter with
  | JSON f => JSONFormatter.printHeader f
  | Columns f => ColumnFormatter.printHeader f
  end.

(** What [run] finds around it. *)
Record World : Type := {
  Marshal : gmap gostring gostring -> gostring * option error;   (* [json.Marshal] *)
  timeFormatter : Table.TimeFormatter;      (* [NewTimeFormatter(cmd.useTimestamps)] *)
  GetSize : Z + error;                      (* the width of [terminal.GetSize] *)
  startPager : option error;                (* the error of [newPaginatedWriter] *)
  (* what [iter.Next()] returns, call after call, until [iterator.Done] *)
  events : Audit.AuditEventIterator -> list (Table.Event + error);
  (* what the k-th [paginatedWriter.IsClosed()] returns *)
  isClosed : nat -> bool
}.

Definition formatRow (w : World) (formatter : tableFormatter) (row : list gostring)
  : outcome (gostring * option error * tableFormatter) :=
  match formatter with
  | JSON f =>
      '(s, err) ← JSONFormatter.formatRow (Marshal w) f row;
      Ret (s, err, JSON f)
  | Columns f =>
      '(s, err, f) ← ColumnFormatter.formatRow f row;
      Ret (s, err, Columns f)
  end.

(** What reaches the paginated writer. *)
Inductive sinkOp : Type :=
| Write (data : gostring)
| IsClosed (closed : bool)
| Close.

Inductive failure : Type :=
| PerPage (got : Z)          (* "per-page should be positive, got %d" *)
| Failed (err : error).

Definition defaultTerminalWidth : Z := 80.

(** The [for] loop of [run], from the k-th event on: how it ends and what it
    does to the writer. *)
Fixpoint loop (w : World) (table : Table.auditTable) (formatter : tableFormatter)
    (next : list (Table.Event + error)) (k : nat)
  : outcome (option error) * list sinkOp :=
  match next with
  | [] => (Ret None, [])
  | inr err :: _ => (Ret (Some err), [])
  | inl event :: next' =>
      match Table.row table event with
      | inr err => (Ret (Some err), [])
      | inl row =>
          match formatRow w formatter row with
          | Ret (_, Some err, _) => (Ret (Some err), [])
          | Ret (formattedRow, None, formatter) =>
              if isClosed w k
              then (Ret None, [Write formattedRow; IsClosed true])
              else
                let '(res, ops) := loop w table formatter next' (S k) in
                (res, Write formattedRow :: IsClosed false :: ops)
          | Panic p => (Panic p, [])
          | Diverges => (Diverges, [])
          end
      end
  end.

(** The header, when the formatter prints one, and then the loop. *)
Definition body (w : World) (table : Table.auditTable) (formatter : tableFormatter)
    (next : list (Table.Event + error)) : outcome (option error) * list sinkOp :=
  if printHeader formatter then
    match formatRow w formatter (Table.header table) with
    | Ret (_, Some err, _) => (Ret (Some err), [])
    | Ret (header, None, formatter) =>
        let '(res, ops) := loop w table formatter next 0 in
        (res, Write header :: ops)
    | Panic p => (Panic p, [])
    | Diverges => (Diverges, [])
    end
  else loop w table formatter next 0.

Definition chooseFormatter (w : World) (json : bool) (table : Table.auditTable)
  : tableFormatter :=
  if json then JSON (JSONFormatter.newJSONFormatter (Table.header table))
  else
    let terminalWidth :=
      match GetSize w with
      | inl terminalWidth => terminalWidth
      | inr _ => defaultTerminalWidth
      end in
    Columns (newColumnFormatter terminalWidth (Table.columns table)).

Definition withFailure (res : outcome (option error)) : outcome (option failure) :=
  match res with
  | Ret err => Ret (Failed <$> err)
  | Panic p => Panic p
  | Diverges => Diverges
  end.

(** [run]: how it ends, the calls it makes to the client, and what it does
    to the paginated writer; the deferred [Close] comes last. *)
Definition run (w : World) (cmd : Audit.AuditCommand)
  : outcome (option failure) * list Audit.call * list sinkOp :=
  if Audit.perPage cmd <? 1
  then (Ret (Some (PerPage (Audit.perPage cmd))), [], [])
  else
    let '(res, calls) := Audit.iterAndAuditTable cmd [] in
    match res with
    | inr err => (Ret (Some (Failed err)), calls, [])
    | inl (iter, auditTable) =>
        let table := Table.ofAudit (timeFormatter w) auditTable in
        let formatter := chooseFormatter w (Audit.json cmd) table in
        match startPager w with
        | Some err => (Ret (Some (Failed err)), calls, [])
        | None =>
            let '(res, ops) := body w table formatter (events w iter) in
            (withFailure res, calls, ops ++ [Close])
        end
    end.

End Run.

(** * Specification vocabulary *)

(** Columns still waiting for a width. *)
Definition zeros (res : list Z) : nat := length (filter (λ r, r = 0) res).

Definition pins (w : Z) (col : auditTableColumn) (r : Z) : bool :=
  (r =? 0) && negb (maxWidth col =? 0) && (maxWidth col <? w).

Definition leftover (T : Z) (cols : list auditTableColumn) : Z :=
  (Widths.tally (map maxWidth cols) (len cols) (Widths.available T (len cols))).2.

(** A pinned column holds its own cap. *)
Definition capOrZero (col : auditTableColumn) (r : Z) : Prop :=
  r = 0 \/ r = maxWidth col.

Definition sumZ (l : list Z) : Z := foldr Z.add 0 l.

(** Inputs on which no operation of the allocator wraps: a table width and
    caps in the 32-bit range, caps not negative, at least one column. *)
Definition bound : Z := 2 ^ 31.

Record validInput (T : Z) (cols : list auditTableColumn) : Prop := {
  valid_columns : 0 < len cols <= bound;
  valid_width : - bound <= T <= bound;
  valid_caps : Forall (fun col => 0 <= maxWidth col <= bound) cols
}.

(** The width a column ends with when every column has been pinned. *)
Definition spreadWidth (T : Z) (cols : list auditTableColumn) (share : Z)
    (col : auditTableColumn) : Z :=
  let width := Int.add (maxWidth col)
                       (Int.wrap (leftover T cols `quot` len cols)) in
  if width =? 0 then share else width.

(** A chunk padded with spaces to the column width. *)
Definition padTo (w : nat) (s : gostring) : gostring :=
  s ++ replicate (w - length s) space.

(** The full chunks cut off a cell and what is left of it. *)
Fixpoint wrapped (fuel : nat) (w : nat) (cell : gostring) : list gostring * gostring :=
  match fuel with
  | O => ([], cell)
  | S fuel' =>
      if decide (w < length cell)%nat
      then let '(full, rest) := wrapped fuel' w (drop w cell) in
           (take w cell :: full, rest)
      else ([], cell)
  end.

(** The chunks of one cell over [lines] lines of a column [w] wide. *)
Definition column (lines w : nat) (cell : gostring) : list gostring :=
  let '(full, rest) := wrapped (S (length cell)) w cell in
  full ++ [padTo w rest] ++ replicate (lines - S (length full)) (replicate w space).

(** Writes the pieces into column [i] of the first lines of a grid. *)
Fixpoint setColumn (i : nat) (pieces : list gostring) (g : ColumnFormatter.grid)
  : ColumnFormatter.grid :=
  match pieces, g with
  | piece :: pieces', line :: g' => <[i := piece]> line :: setColumn i pieces' g'
  | _, _ => g
  end.

Definition width (w : Z) : Prop := 0 < w <= Int.max_int.

(** The number of lines a cell takes in a column [w] wide. *)
Definition chunkCount (w : Z) (cell : gostring) : nat :=
  S (length (wrapped (S (length cell)) (Z.to_nat w) cell).1).

(** The number of lines a row takes. *)
Definition linesOf (ws : list Z) (row : list gostring) : nat :=
  foldr Nat.max 1%nat (zip_with chunkCount ws row).

(** Chunk [j] of a cell. *)
Definition piece (lines j : nat) (w : Z) (cell : gostring) : gostring :=
  default [] (column lines (Z.to_nat w) cell !! j).

(** The grid while the second loop runs: the cells in [done] are split, the
    cells in [todo] still empty. *)
Definition partialGrid (lines : nat) (ws : list Z) (done todo : list gostring)
  : list (list gostring) :=
  (fun j => zip_with (piece lines j) ws done ++ replicate (length todo) [])
    <$> seq 0 lines.

(** The grid of a row. *)
Definition gridOf (ws : list Z) (row : list gostring) : list (list gostring) :=
  (fun j => zip_with (piece (linesOf ws row) j) ws row) <$> seq 0 (linesOf ws row).

Definition okCell (cell : gostring) : Prop := len cell <= Int.max_int.

(** The content of a cell read back from its chunks: chunk [j] of a cell of
    [n] bytes in a column [w] wide holds [n - j*w] bytes of content (none
    when that is negative), the rest of the chunk is padding. *)
Definition content (n w : nat) (chunks : list gostring) : gostring :=
  concat (imap (fun j chunk => take (n - j * w) chunk) chunks).

(** The chunks of column [i] in a grid, top to bottom. *)
Definition cellChunks (i : nat) (g : list (list gostring)) : list gostring :=
  (fun line => default [] (line !! i)) <$> g.

(** Reading the printed text back: lines of a known width, ended by one
    byte each, and in a line the cells, two bytes apart. *)
Fixpoint cutLine (ws : list nat) (line : gostring) : list gostring :=
  match ws with
  | [] => []
  | w :: ws' => take w line :: cutLine ws' (drop (w + 2) line)
  end.

Fixpoint cutLines (n lineWidth : nat) (out : gostring) : list gostring :=
  match n with
  | O => []
  | S n' => take lineWidth out :: cutLines n' lineWidth (drop (S lineWidth) out)
  end.

Definition lineWidth (ws : list nat) : nat :=
  (sum_list ws + 2 * (length ws - 1))%nat.

Definition parse (ws : list Z) (out : gostring) : list (list gostring) :=
  let ws := Z.to_nat <$> ws in
  cutLine ws <$> cutLines (length out / S (lineWidth ws)) (lineWidth ws) out.

(** The record the loop of [jsonFormatter.formatRow] builds from the field
    names and the cells, pair by pair: a later pair replaces an earlier one
    with the same name. *)
Definition record (fields row : list gostring) : gmap gostring gostring :=
  foldl (fun m p => <[p.1 := p.2]> m) ∅ (zip fields row).

(** A stand-in for the encoder, to instantiate statements that hold for
    every encoder: it writes the pairs of the record one after the other. *)
Definition plainMarshal (m : gmap gostring gostring) : gostring * option error :=
  (concat ((fun p => p.1 ++ str "=" ++ p.2 ++ str ";") <$> map_to_list m), None).

Definition put (m : gmap gostring gostring) (p : gostring * gostring) :=
  <[p.1 := p.2]> m.

(** The calls that build an event iterator. *)
Definition buildsIterator (c : Audit.call) : bool :=
  match c with
  | Audit.ReposEventIterator _ | Audit.SecretsEventIterator _ => true
  | _ => false
  end.

(** ** Vocabulary of the tables, the calls, the pager and [run] *)

(** The cells of the row of an event, each under the name of its column. *)
Definition labelled (t : Table.auditTable) (event : Table.Event)
    : list (gostring * gostring) + error :=
  match Table.row t event with
  | inl cells => inl (zip (Table.header t) cells)
  | inr err => inr err
  end.

(** The call that builds an iterator, when the table is of its kind. *)
Definition builtBy (r : Audit.AuditEventIterator * Audit.auditTable)
    : option Audit.call :=
  match r with
  | (Audit.RepoEventIterator p, Audit.repoAuditTable _) =>
      Some (Audit.ReposEventIterator p)
  | (Audit.SecretEventIterator p, Audit.secretAuditTable) =>
      Some (Audit.SecretsEventIterator p)
  | _ => None
  end.

(** The calls that belong to the audit of a secret. *)
Definition secretCall (c : Audit.call) : bool :=
  match c with
  | Audit.DirsExists _ | Audit.SecretsEventIterator _ => true
  | _ => false
  end.

(** The programs [pagerCommand] looks for, in its order. *)
Definition candidates (os : PagerCommand.OS) : list gostring :=
  [PagerCommand.ExpandEnv os PagerCommand.pagerEnvvar; str "less"; str "more"].

(** The flag after the command line has set it to [values], one after the
    other; a value that does not parse leaves it as it is. *)
Definition setAll (ParseBool : gostring -> bool + error) (values : list gostring)
    (f : DebugFlag.debugFlag) : DebugFlag.debugFlag :=
  foldl (fun f value => (DebugFlag.Set_ ParseBool f value).2) f values.

(** The values that parse, in their order. *)
Definition parsed (ParseBool : gostring -> bool + error) (values : list gostring)
    : list bool :=
  omap (fun value => match ParseBool value with
                     | inl b => Some b
                     | inr _ => None
                     end) values.

(** What the loop of [run] does to the writer for a row that is written and
    after which the pager is found open. *)
Definition written (rows : list gostring) : list Run.sinkOp :=
  rows ≫= (fun row => [Run.Write row; Run.IsClosed false]).

(** The line of an event in JSON: the encoder's bytes for the record of the
    row, and a newline. *)
Definition jsonLine (w : Run.World) (t : Table.auditTable) (cells : list gostring)
    : gostring :=
  (Run.Marshal w (record (Table.header t) cells)).1 ++ [newline].

(** The channel holds the notice of the exit until [IsClosed] takes it. *)
Definition noticed (p : Pager.paginatedWriter) : Prop :=
  if Pager.exited p
  then (Pager.done p = 1%nat /\ Pager.closed p = false)
       \/ (Pager.done p = 0%nat /\ Pager.closed p = true)
  else Pager.done p = 0%nat /\ Pager.closed p = false.

(** The width [run] lays the table out for. *)
Definition terminalWidth (w : Run.World) : Z :=
  match Run.GetSize w with
  | inl terminalWidth => terminalWidth
  | inr _ => Run.defaultTerminalWidth
  end.

(** The block of a row in columns of widths [ws]. *)
Definition block (ws : list Z) (row : list gostring) : gostring :=
  ColumnFormatter.render (gridOf ws row).

(** How [run] ends when the iterator stops, exhausted or with an error. *)
Definition stopped (stop : option error) (rest : list (Table.Event + error))
    : list (Table.Event + error) :=
  match stop with
  | None => []
  | Some err => inr err :: rest
  end.

(** ** Examples *)

(** The audit of a secret with two events, by a client that answers every
    question, before a pager that reports as [closed] says. *)
Definition exampleEvent (actor action : string) : Table.Event :=
  {| Table.actor := inl (str actor); Table.action := str action;
     Table.subject := fun _ => inr (ErrExternal 0);
     Table.IPAddress := str "10.0.0.1"; Table.LoggedAt := 0 |}.

Definition exampleWorld (closed : nat -> bool) : Run.World :=
  {| Run.Marshal := plainMarshal;
     Run.timeFormatter := fun _ => str "now";
     Run.GetSize := inr (ErrExternal 1);
     Run.startPager := None;
     Run.events := fun _ => [inl (exampleEvent "alice" "read");
                             inl (exampleEvent "bob" "create")];
     Run.isClosed := closed |}.

Definition exampleCommand (json : bool) : Audit.AuditCommand :=
  {| Audit.path := {| Audit.ToRepoPath := inr (ErrExternal 2);
                      Audit.ToSecretPath := inl (str "ns/repo/secret");
                      Audit.HasVersion := false |};
     Audit.newClient := inl {| Audit.GetTree := fun _ => inr (ErrExternal 3);
                               Audit.Exists := fun _ => (false, None) |};
     Audit.perPage := 20;
     Audit.json := json |}.

Definition exampleCalls : list Audit.call :=
  [Audit.NewClient; Audit.DirsExists (str "ns/repo/secret");
   Audit.SecretsEventIterator (str "ns/repo/secret")].

Definition exampleRows : list (list gostring) :=
  [[str "alice"; str "read"; str "10.0.0.1"; str "now"];
   [str "bob"; str "create"; str "10.0.0.1"; str "now"]].

(** * Properties *)

(** ** Integers that do not wrap *)

Lemma wrap_in_range (z : Z) : Int.in_range z -> Int.wrap z = z.
Proof.
  unfold Int.in_range, Int.wrap, Int.min_int, Int.max_int. intros H.
  rewrite Z.mod_small; lia.
Qed.

Lemma div_ret (a b : Z) :
  b <> 0 -> Int.in_range (a `quot` b) -> Int.div a b = Ret (a `quot` b).
Proof.
  intros Hb Hr. unfold Int.div.
  destruct (Z.eqb_spec b 0); [done|]. by rewrite wrap_in_range.
Qed.

Lemma div_returns (a b : Z) : b <> 0 -> Int.div a b = Ret (Int.wrap (a `quot` b)).
Proof. intros Hb. unfold Int.div. by destruct (Z.eqb_spec b 0). Qed.

Lemma div_zero (a : Z) : Int.div a 0 = Panic DivideByZero.
Proof. reflexivity. Qed.

Lemma quot_bound (a b : Z) : 0 < b -> Z.abs (a `quot` b) <= Z.abs a.
Proof.
  intros Hb. destruct (Z.le_gt_cases 0 a) as [Ha|Ha].
  - pose proof (Z.mul_quot_le a b Ha ltac:(lia)). nia.
  - pose proof (Z.mul_quot_ge a b ltac:(lia) ltac:(lia)). nia.
Qed.

Lemma bind_Ret {A B : Type} (a : A) (k : A -> outcome B) : (Ret a ≫= k) = k a.
Proof. reflexivity. Qed.

Lemma bind_inv {A B : Type} (m : outcome A) (k : A -> outcome B) (b : B) :
  (m ≫= k) = Ret b -> exists a, m = Ret a /\ k a = Ret b.
Proof. destruct m; try done. intros H. by eexists. Qed.

(** ** The allocator: one pass over the columns *)

Section Pin.

Import Widths.

Lemma pin_cons w col cols r res :
  pin w (col :: cols) (r :: res) =
    if pins w col r then (maxWidth col :: (pin w cols res).1, true)
    else (r :: (pin w cols res).1, (pin w cols res).2).
Proof. simpl. unfold pins. by destruct (pin w cols res), (_ && _). Qed.

Lemma pin_length w cols res : length (pin w cols res).1 = length res.
Proof.
  revert res. induction cols as [|col cols IH]; intros [|r res]; try done.
  rewrite pin_cons. destruct (pins w col r); simpl; by rewrite IH.
Qed.

Lemma pin_lookup w cols res i col r :
  cols !! i = Some col -> res !! i = Some r ->
  (pin w cols res).1 !! i = Some (if pins w col r then maxWidth col else r).
Proof.
  revert res i. induction cols as [|c cols IH]; intros [|r0 res] i; try done.
  rewrite pin_cons. destruct i as [|i]; simpl.
  - intros [= ->] [= ->]. by destruct (pins w col r).
  - intros Hc Hr. destruct (pins w c r0); simpl; by apply IH.
Qed.

Lemma pin_idle w cols res : (pin w cols res).2 = false -> (pin w cols res).1 = res.
Proof.
  revert res. induction cols as [|col cols IH]; intros [|r res]; try done.
  rewrite pin_cons. destruct (pins w col r); simpl; [done|].
  intros H. by rewrite IH.
Qed.

Lemma zeros_cons r res :
  zeros (r :: res) = if decide (r = 0) then S (zeros res) else zeros res.
Proof. unfold zeros. rewrite filter_cons. by destruct (decide (r = 0)). Qed.

Lemma pins_spec w col r :
  pins w col r = true <-> r = 0 /\ maxWidth col <> 0 /\ maxWidth col < w.
Proof. unfold pins. rewrite !andb_true_iff, negb_true_iff. lia. Qed.

Lemma pin_zeros_le w cols res : (zeros (pin w cols res).1 <= zeros res)%nat.
Proof.
  revert res. induction cols as [|col cols IH]; intros [|r res]; try done.
  rewrite pin_cons. specialize (IH res).
  destruct (pins w col r) eqn:E; simpl; rewrite !zeros_cons.
  - apply pins_spec in E as (-> & ? & _). repeat case_decide; lia.
  - case_decide; lia.
Qed.

Lemma pin_progress w cols res :
  (pin w cols res).2 = true -> (zeros (pin w cols res).1 < zeros res)%nat.
Proof.
  revert res. induction cols as [|col cols IH]; intros [|r res]; try done.
  rewrite pin_cons. specialize (IH res). pose proof (pin_zeros_le w cols res).
  destruct (pins w col r) eqn:E; simpl; rewrite !zeros_cons.
  - apply pins_spec in E as (-> & ? & _). intros _. repeat case_decide; lia.
  - intros H'. specialize (IH H'). case_decide; lia.
Qed.

Lemma zeros_replicate n : zeros (replicate n 0) = n.
Proof. induction n; [done|]. simpl. rewrite zeros_cons. case_decide; lia. Qed.

Lemma spread_returns res widthLeft : returns (spread res widthLeft).
Proof.
  destruct res as [|r res]; [by eexists|]. unfold spread.
  rewrite div_returns by (unfold len; simpl; lia). by eexists.
Qed.

(** The loop neither panics nor runs out of rounds. *)
Lemma balance_returns fuel T cols res w :
  (zeros res < fuel)%nat -> returns (balance fuel T cols res w).
Proof.
  revert res w. induction fuel as [|fuel IH]; intros res w Hz; [lia|].
  simpl. pose proof (pin_progress w cols res) as Hp.
  destruct (pin w cols res) as [res1 adjusted]; simpl in Hp.
  destruct adjusted; simpl; [|by eexists].
  destruct (tally _ _ _) as [count widthLeft].
  destruct (Z.eqb_spec count 0) as [->|Hc].
  - destruct (spread_returns res1 widthLeft) as [res' ->]. by eexists.
  - rewrite div_returns by done. simpl. apply IH. specialize (Hp eq_refl). lia.
Qed.

Lemma run_returns T cols : cols <> [] -> returns (run T cols).
Proof.
  intros Hne. unfold run, naiveShare.
  rewrite div_returns by (destruct cols; [done|unfold len; simpl; lia]).
  rewrite bind_Ret. apply balance_returns. rewrite zeros_replicate. unfold rounds. lia.
Qed.

Lemma run_empty T : run T [] = Panic DivideByZero.
Proof. reflexivity. Qed.

End Pin.

(** ** The allocator: what the balancing loop returns *)

Section Balance.

Import Widths.

Lemma pin_keeps w cols res i r :
  res !! i = Some r -> r <> 0 -> (pin w cols res).1 !! i = Some r.
Proof.
  revert res i. induction cols as [|col cols IH]; intros [|r0 res] i; try done.
  rewrite pin_cons. destruct i as [|i]; simpl.
  - intros [= ->] Hr. destruct (pins w col r) eqn:E; [|done].
    apply pins_spec in E. lia.
  - intros Hi Hr. destruct (pins w col r0); simpl; by apply IH.
Qed.

Lemma pin_capOrZero w cols res :
  Forall2 capOrZero cols res -> Forall2 capOrZero cols (pin w cols res).1.
Proof.
  induction 1 as [|col r cols res Hr _ IH]; [constructor|].
  rewrite pin_cons. destruct (pins w col r); simpl; constructor; try done.
  by right.
Qed.

Lemma tally_cons r res count widthLeft :
  tally (r :: res) count widthLeft =
    if r =? 0 then tally res count widthLeft
    else tally res (Int.sub count 1) (Int.sub widthLeft r).
Proof. unfold tally. simpl. by destruct (r =? 0). Qed.

(** [count] ends as the number of columns still at zero. *)
Lemma tally_count res count widthLeft :
  len res <= count <= Int.max_int ->
  (tally res count widthLeft).1 = count - len res + Z.of_nat (zeros res).
Proof.
  revert count widthLeft. unfold len.
  induction res as [|r res IH]; intros count widthLeft Hc.
  - change (count = count - 0 + 0). lia.
  - rewrite tally_cons, zeros_cons. simpl length in *.
    destruct (Z.eqb_spec r 0) as [->|Hr].
    + rewrite IH by lia. rewrite decide_True by done. lia.
    + unfold Int.sub at 1. rewrite wrap_in_range
        by (unfold Int.in_range, Int.min_int, Int.max_int in *; lia).
      rewrite IH by lia. rewrite decide_False by done. lia.
Qed.

Lemma zeros_none cols res :
  Forall2 capOrZero cols res -> zeros res = 0%nat -> res = map maxWidth cols.
Proof.
  induction 1 as [|col r cols res Hr _ IH]; [done|].
  rewrite zeros_cons. case_decide; [done|]. intros Hz. simpl.
  destruct Hr as [->| ->]; [done|]. by rewrite IH.
Qed.

Lemma zeros_some (res : list Z) i : res !! i = Some 0 -> (0 < zeros res)%nat.
Proof.
  revert i. induction res as [|r res IH]; intros [|i]; try done; simpl;
    rewrite zeros_cons.
  - intros [= ->]. rewrite decide_True by done. lia.
  - intros Hi. specialize (IH _ Hi). case_decide; lia.
Qed.

Lemma spread_spec res widthLeft res' :
  spread res widthLeft = Ret res' ->
  res' = map (fun r => Int.add r (Int.wrap (widthLeft `quot` len res))) res.
Proof.
  destruct res as [|r res]; [by intros [= <-]|]. unfold spread.
  rewrite div_returns by (unfold len; simpl; lia). rewrite bind_Ret.
  by intros [= <-].
Qed.

Lemma zeros_none_capped cols res :
  Forall2 capOrZero cols res -> zeros res = 0%nat ->
  Forall (fun col => maxWidth col <> 0) cols.
Proof.
  induction 1 as [|col r cols res Hr _ IH]; [done|].
  rewrite zeros_cons. case_decide; [done|]. intros Hz.
  constructor; [|by apply IH]. destruct Hr as [->| ->]; done.
Qed.

(** What the loop returns, for any state it is entered in. *)
Lemma balance_spec fuel T cols res w b :
  len cols <= Int.max_int ->
  Forall2 capOrZero cols res ->
  balance fuel T cols res w = Ret b ->
  if allPinned b
  then pinned b =
         map (fun col => Int.add (maxWidth col)
                                 (Int.wrap (leftover T cols `quot` len cols))) cols
       /\ Forall (fun col => maxWidth col <> 0) cols
  else Forall2 capOrZero cols (pinned b)
       /\ (forall i r, res !! i = Some r -> r <> 0 -> pinned b !! i = Some r)
       /\ (forall i col, cols !! i = Some col -> res !! i = Some 0 ->
             maxWidth col <> 0 -> maxWidth col < w ->
             pinned b !! i = Some (maxWidth col))
       /\ (forall i col, cols !! i = Some col -> res !! i = Some 0 ->
             maxWidth col = 0 -> pinned b !! i = Some 0).
Proof.
  intros Hn. revert res w. induction fuel as [|fuel IH]; intros res w HR; [done|].
  simpl. pose proof (pin_capOrZero w cols res HR) as HR1.
  pose proof (pin_idle w cols res) as Hidle.
  pose proof (fun i col r => pin_lookup w cols res i col r) as Hlook.
  pose proof (fun i r => pin_keeps w cols res i r) as Hkeep.
  destruct (pin w cols res) as [res1 adjusted]; simpl in *.
  assert (len res1 = len cols) as Hlen
    by (unfold len; by rewrite (Forall2_length _ _ _ HR1)).
  destruct adjusted; simpl.
  - pose proof (tally_count res1 (len cols) (available T (len cols))) as Hc.
    destruct (tally res1 _ _) as [count widthLeft] eqn:Et; simpl in Hc.
    rewrite Hc by lia. clear Hc.
    destruct (Z.eqb_spec (len cols - len res1 + Z.of_nat (zeros res1)) 0) as [Hz|Hz].
    + intros (res' & Hs & [= <-])%bind_inv. simpl.
      assert (zeros res1 = 0%nat) as Hz0 by lia.
      apply spread_spec in Hs. rewrite Hs.
      pose proof (zeros_none _ _ HR1 Hz0) as ->.
      split; [|by eapply zeros_none_capped].
      rewrite map_map. unfold leftover. rewrite Et. simpl.
      by rewrite Hlen.
    + rewrite div_returns by done. rewrite bind_Ret. intros Hb.
      specialize (IH _ _ HR1 Hb). destruct (allPinned b); [done|].
      destruct IH as (HRb & Hk & Hp & Hu). split; [done|]. split; [|split].
      * intros i r Hi Hr. apply Hk; [|done]. by apply Hkeep.
      * intros i col Hi Hr Hm Hw. apply Hk; [|done].
        rewrite (Hlook i col 0 Hi Hr).
        assert (pins w col 0 = true) as -> by (apply pins_spec; lia). done.
      * intros i col Hi Hr Hm. apply (Hu i col Hi); [|done].
        rewrite (Hlook i col 0 Hi Hr).
        destruct (pins w col 0) eqn:E; [|done]. apply pins_spec in E. lia.
  - intros [= <-]. simpl. rewrite Hidle in * by done.
    split; [done|]. split; [done|]. split.
    + intros i col Hi Hr Hm Hw. specialize (Hlook i col 0 Hi Hr).
      assert (pins w col 0 = true) as E by (apply pins_spec; lia).
      rewrite E in Hlook. rewrite Hr in Hlook. congruence.
    + intros; done.
Qed.

Lemma fill_lookup w res i r :
  res !! i = Some r -> fill w res !! i = Some (if r =? 0 then w else r).
Proof. intros H. unfold fill. by rewrite list_lookup_fmap, H. Qed.

End Balance.

(** ** The allocator: the sum of the widths *)

Section Arithmetic.

Import Widths.

Lemma sumZ_cons r res : sumZ (r :: res) = r + sumZ res.
Proof. reflexivity. Qed.

Lemma tally_left res count widthLeft :
  Forall (fun r => 0 <= r <= bound) res ->
  Int.min_int + len res * bound <= widthLeft <= 2 ^ 62 ->
  (tally res count widthLeft).2 = widthLeft - sumZ res.
Proof.
  intros Hres. revert count widthLeft. unfold len.
  induction Hres as [|r res Hr _ IH]; intros count widthLeft Hw.
  - change (widthLeft = widthLeft - 0). lia.
  - rewrite tally_cons, sumZ_cons. simpl length in Hw.
    unfold bound, Int.min_int in *.
    destruct (Z.eqb_spec r 0) as [->|Hr0].
    + rewrite IH by lia. lia.
    + unfold Int.sub at 2. rewrite wrap_in_range
        by (unfold Int.in_range, Int.min_int, Int.max_int; lia).
      rewrite IH by lia. lia.
Qed.

Lemma available_exact T n :
  0 < n <= bound -> - bound <= T <= bound ->
  available T n = T - 2 * (n - 1).
Proof.
  unfold bound. intros Hn HT. unfold available, Int.sub, Int.mul.
  rewrite !wrap_in_range;
    unfold Int.in_range, Int.min_int, Int.max_int;
    rewrite ?wrap_in_range;
    unfold Int.in_range, Int.min_int, Int.max_int;
    rewrite ?wrap_in_range;
    unfold Int.in_range, Int.min_int, Int.max_int; lia.
Qed.

Lemma sumZ_fill w res :
  sumZ (fill w res) = sumZ res + Z.of_nat (zeros res) * w.
Proof.
  induction res as [|r res IH]; [done|].
  unfold fill in *. simpl map. rewrite !sumZ_cons, zeros_cons, IH.
  destruct (Z.eqb_spec r 0); [rewrite decide_True by done|rewrite decide_False by done];
    lia.
Qed.

Lemma zeros_le_length res : (zeros res <= length res)%nat.
Proof.
  induction res as [|r res IH]; [done|]. rewrite zeros_cons. simpl.
  case_decide; lia.
Qed.

Lemma capOrZero_range cols res :
  Forall (fun col => 0 <= maxWidth col <= bound) cols ->
  Forall2 capOrZero cols res ->
  Forall (fun r => 0 <= r <= bound) res.
Proof.
  intros Hc HR. induction HR as [|col r cols res Hr _ IH]; [done|].
  inversion Hc; subst. constructor; [|by apply IH].
  unfold bound in *. destruct Hr as [->| ->]; lia.
Qed.

Lemma sumZ_range res :
  Forall (fun r => 0 <= r <= bound) res -> 0 <= sumZ res <= len res * bound.
Proof.
  unfold len. induction 1 as [|r res Hr _ IH]; [done|].
  rewrite sumZ_cons. simpl length. lia.
Qed.

(** One pass pins caps between 1 and [w - 1]. *)
Lemma pin_sum w cols res :
  Forall (fun col => 0 <= maxWidth col <= bound) cols ->
  sumZ (pin w cols res).1 - sumZ res <=
    (Z.of_nat (zeros res) - Z.of_nat (zeros (pin w cols res).1)) * (w - 1)
  /\ ((pin w cols res).2 = true -> 2 <= w).
Proof.
  intros Hc. revert res. induction Hc as [|col cols Hcol _ IH]; intros [|r res];
    try (simpl; split; [lia|done]).
  rewrite pin_cons. destruct (IH res) as [IH1 IH2].
  destruct (pins w col r) eqn:E; cbn [fst snd]; rewrite !sumZ_cons, !zeros_cons.
  - apply pins_spec in E as (-> & Hm & Hw).
    rewrite decide_True by done. rewrite decide_False by done.
    split; lia.
  - split; [|done]. case_decide; lia.
Qed.

Lemma sumZ_map_add d res :
  sumZ (map (fun r => r + d) res) = sumZ res + len res * d.
Proof.
  unfold len. induction res as [|r res IH]; [done|].
  simpl map. rewrite !sumZ_cons, IH. simpl length. lia.
Qed.

Lemma fill_positive w res :
  Forall (fun r => 0 <= r <= bound) res -> 1 <= w ->
  Forall (fun x => 1 <= x) (fill w res).
Proof.
  intros Hres Hw. unfold fill. apply Forall_fmap.
  eapply Forall_impl; [exact Hres|]. intros r Hr. unfold compose. cbn beta in *.
  destruct (Z.eqb_spec r 0); lia.
Qed.

Lemma zeros_none_positive res :
  Forall (fun r => 0 <= r <= bound) res -> zeros res = 0%nat ->
  Forall (fun r => 1 <= r <= bound) res.
Proof.
  induction 1 as [|r res Hr _ IH]; [done|]. rewrite zeros_cons.
  case_decide; [done|]. intros Hz. constructor; [lia|by apply IH].
Qed.

Lemma fill_none w res :
  Forall (fun x => 1 <= x) res -> fill w res = res.
Proof.
  induction 1 as [|r res Hr _ IH]; [done|]. unfold fill in *. simpl.
  rewrite IH. destruct (Z.eqb_spec r 0); [lia|done].
Qed.

Lemma quot_defect a b : 0 < b -> Z.abs (b * (a `quot` b) - a) <= b - 1.
Proof.
  intros Hb. pose proof (Z.quot_rem' a b).
  pose proof (Z.rem_bound_abs a b ltac:(lia)). lia.
Qed.

Lemma quot_floor a b q : 0 < b -> 1 <= q -> q = a `quot` b -> b * q <= a.
Proof.
  intros Hb Hq ->. destruct (Z.le_gt_cases 0 a) as [Ha|Ha].
  - apply Z.mul_quot_le; lia.
  - pose proof (Z.mul_quot_ge a b ltac:(lia) ltac:(lia)). nia.
Qed.

(** The sum of the widths misses the available width by less than the
    number of columns, and no width is below one once the share is. *)
Lemma balance_sum fuel T cols res w b :
  validInput T cols ->
  Forall2 capOrZero cols res ->
  (0 < zeros res)%nat ->
  w = (T - 2 * (len cols - 1) - sumZ res) `quot` Z.of_nat (zeros res) ->
  balance fuel T cols res w = Ret b ->
  Z.abs (sumZ (fill (share b) (pinned b)) - (T - 2 * (len cols - 1)))
    <= len cols - 1
  /\ (1 <= w -> Forall (fun x => 1 <= x) (fill (share b) (pinned b))).
Proof.
  intros [Hn HT Hcaps]. set (W := T - 2 * (len cols - 1)).
  revert res w. induction fuel as [|fuel IH]; intros res w HR Hz Hw; [done|].
  simpl.
  pose proof (pin_capOrZero w cols res HR) as HR1.
  pose proof (pin_idle w cols res) as Hidle.
  pose proof (pin_progress w cols res) as Hprog.
  pose proof (pin_sum w cols res Hcaps) as [Hsum Htwo].
  pose proof (zeros_le_length res) as Hzl.
  pose proof (Forall2_length _ _ _ HR) as Hlen.
  destruct (pin w cols res) as [res1 adjusted]; cbn [fst snd] in *.
  pose proof (Forall2_length _ _ _ HR1) as Hlen1.
  pose proof (capOrZero_range _ _ Hcaps HR1) as Hrange1.
  pose proof (sumZ_range _ Hrange1) as Hs1.
  assert (len res1 = len cols) as Hl1 by (unfold len; by rewrite Hlen1).
  destruct adjusted; cbn [negb].
  - specialize (Htwo eq_refl). specialize (Hprog eq_refl).
    pose proof (tally_count res1 (len cols) (available T (len cols))) as Hc.
    pose proof (tally_left res1 (len cols) (available T (len cols)) Hrange1) as Hl.
    rewrite available_exact in Hc, Hl |- * by done. fold W in Hc, Hl |- *.
    destruct (tally res1 _ _) as [count widthLeft]; cbn [fst snd] in Hc, Hl.
    unfold bound, Int.min_int, Int.max_int in *.
    rewrite Hc, Hl by lia. clear Hc Hl count widthLeft.
    assert (Z.of_nat (zeros res) * w <= W - sumZ res) as Hfloor
      by (apply (quot_floor _ _ w); lia).
    assert (Z.of_nat (zeros res1) * w + 1 <= W - sumZ res1) as Hleft by nia.
    destruct (Z.eqb_spec (len cols - len res1 + Z.of_nat (zeros res1)) 0) as [Hz1|Hz1].
    + intros (res' & Hs & [= <-])%bind_inv. cbn [share pinned].
      apply spread_spec in Hs. rewrite Hl1 in Hs.
      assert (zeros res1 = 0%nat) as Hz0 by lia.
      pose proof (zeros_none_positive _ Hrange1 Hz0) as Hpos.
      set (d := (W - sumZ res1) `quot` len cols) in *.
      assert (0 <= d <= W - sumZ res1) as Hd.
      { pose proof (Z.mul_quot_le (W - sumZ res1) (len cols) ltac:(lia) ltac:(lia)).
        fold d in H. nia. }
      rewrite wrap_in_range in Hs
        by (unfold Int.in_range, Int.min_int, Int.max_int; unfold W in *; lia).
      assert (res' = map (fun r => r + d) res1) as ->.
      { rewrite Hs. apply map_ext_Forall. eapply Forall_impl; [exact Hpos|].
        intros r Hr. cbn beta in *. unfold Int.add. apply wrap_in_range.
        unfold Int.in_range, Int.min_int, Int.max_int; unfold W, bound in *; lia. }
      assert (Forall (fun x => 1 <= x) (map (fun r => r + d) res1)) as Hpos'.
      { apply Forall_fmap. eapply Forall_impl; [exact Hpos|].
        intros r Hr. unfold compose. cbn beta in *. lia. }
      rewrite fill_none by done. split; [|done].
      rewrite sumZ_map_add, Hl1.
      pose proof (quot_defect (W - sumZ res1) (len cols) ltac:(lia)).
      fold d in H. lia.
    + assert ((W - sumZ res1) `quot` Z.of_nat (zeros res1) <= W - sumZ res1
              /\ 1 <= (W - sumZ res1) `quot` Z.of_nat (zeros res1)) as [Hq1 Hq2].
      { split.
        - pose proof (Z.mul_quot_le (W - sumZ res1) (Z.of_nat (zeros res1))
                        ltac:(lia) ltac:(lia)). nia.
        - apply Z.quot_le_lower_bound; nia. }
      replace (len cols - len res1 + Z.of_nat (zeros res1))
        with (Z.of_nat (zeros res1)) in * by lia.
      rewrite div_ret
        by (try done; unfold Int.in_range, Int.min_int, Int.max_int;
            unfold W, bound in *; lia).
      rewrite bind_Ret. intros Hb.
      destruct (IH res1 _ HR1 ltac:(lia) eq_refl Hb) as [IH1 IH2].
      split; [done|]. intros _. by apply IH2.
  - intros [= <-]. cbn [share pinned]. rewrite Hidle in * by done.
    split; [|by apply fill_positive].
    rewrite sumZ_fill.
    pose proof (quot_defect (W - sumZ res) (Z.of_nat (zeros res)) ltac:(lia)).
    rewrite <- Hw in H. unfold len in *. lia.
Qed.

End Arithmetic.

(** ** The allocator behind [columnWidths] *)

Section Allocator.

Import Widths.

Lemma columnWidths_new T cols ws f' :
  columnWidths (newColumnFormatter T cols) = Ret (ws, f') <->
  allocate T cols = Ret ws
  /\ f' = {| tableWidth := T; computedColumnWidths := Some ws; columns := cols |}.
Proof.
  unfold columnWidths, newColumnFormatter. cbn [computedColumnWidths tableWidth columns].
  destruct (allocate T cols) as [ws'| |]; cbn; split; try done; try (by intros [? ?]).
  - by intros [= -> <-].
  - by intros [[= ->] ->].
Qed.

(** The widths are computed once: a second call returns the cached ones. *)
Lemma columnWidths_cached f ws f' :
  columnWidths f = Ret (ws, f') -> columnWidths f' = Ret (ws, f').
Proof.
  unfold columnWidths. destruct (computedColumnWidths f) as [res|] eqn:E.
  - intros [= -> ->]. by rewrite E.
  - intros (res & _ & [= <- <-])%bind_inv. done.
Qed.

Lemma allocate_inv T cols ws :
  allocate T cols = Ret ws ->
  exists b w0, run T cols = Ret b /\ naiveShare T cols = Ret w0
    /\ ws = fill (share b) (pinned b)
    /\ balance (rounds cols) T cols (replicate (length cols) 0) w0 = Ret b.
Proof.
  unfold allocate. intros (b & Hb & [= <-])%bind_inv. exists b.
  pose proof Hb as Hrun. unfold run in Hb.
  apply bind_inv in Hb as (w0 & Hw0 & Hb). by exists w0.
Qed.

Lemma capOrZero_start cols : Forall2 capOrZero cols (replicate (length cols) 0).
Proof. induction cols; constructor; [by left|done]. Qed.

Lemma allocate_returns T cols : cols <> [] -> returns (allocate T cols).
Proof.
  intros H. unfold allocate. destruct (run_returns T cols H) as [b ->]. by eexists.
Qed.

End Allocator.

(** C1, as amended.  The allocator returns on every non-empty column list.
    A column whose cap is set and below the naive equal share keeps exactly
    its cap whenever the balancing loop ends with some column not pinned;
    when every column has been pinned, the unspent width is spread and the
    column ends with [spreadWidth] instead.  A column without a cap gets
    exactly the final equalized share. *)
Theorem capped_column_width (T : Z) (cols : list auditTableColumn) :
  cols <> [] -> len cols <= Int.max_int ->
  exists ws f' b w0,
    columnWidths (newColumnFormatter T cols) = Ret (ws, f')
    /\ Widths.run T cols = Ret b /\ Widths.naiveShare T cols = Ret w0
    /\ forall i col, cols !! i = Some col ->
         (maxWidth col <> 0 -> maxWidth col < w0 ->
            ws !! i = Some (if Widths.allPinned b
                            then spreadWidth T cols (Widths.share b) col
                            else maxWidth col))
         /\ (maxWidth col = 0 ->
               Widths.allPinned b = false /\ ws !! i = Some (Widths.share b)).
Proof.
  intros Hne Hn. destruct (allocate_returns T cols Hne) as [ws Hws].
  exists ws, {| tableWidth := T; computedColumnWidths := Some ws; columns := cols |}.
  pose proof (proj2 (columnWidths_new T cols ws _) (conj Hws eq_refl)) as Hcw.
  apply allocate_inv in Hws as (b & w0 & Hrun & Hw0 & -> & Hb).
  exists b, w0. split; [done|]. split; [done|]. split; [done|].
  intros i col Hi.
  pose proof (balance_spec _ _ _ _ _ _ Hn (capOrZero_start cols) Hb) as Hspec.
  assert (replicate (length cols) 0 !! i = Some 0) as Hzero.
  { apply lookup_replicate_2. by eapply lookup_lt_Some. }
  destruct (Widths.allPinned b).
  - destruct Hspec as [Hp Hcap]. split.
    + intros _ _.
      assert (Widths.pinned b !! i
              = Some (Int.add (maxWidth col)
                              (Int.wrap (leftover T cols `quot` len cols)))) as Hpi
        by (by rewrite Hp, list_lookup_fmap, Hi).
      by rewrite (fill_lookup _ _ i _ Hpi).
    + intros Hm. rewrite Forall_lookup in Hcap. by destruct (Hcap i col Hi).
  - destruct Hspec as (_ & _ & Hpin & Hfree). split.
    + intros Hm Hlt. rewrite (fill_lookup _ _ i _ (Hpin i col Hi Hzero Hm Hlt)).
      destruct (Z.eqb_spec (maxWidth col) 0); done.
    + intros Hm. split; [done|].
      by rewrite (fill_lookup _ _ i _ (Hfree i col Hi Hzero Hm)).
Qed.

Lemma capped_column_width_witness :
  exists ws f' b w0,
    columnWidths (newColumnFormatter 200 repoColumns) = Ret (ws, f')
    /\ Widths.run 200 repoColumns = Ret b /\ Widths.naiveShare 200 repoColumns = Ret w0
    /\ forall i col, repoColumns !! i = Some col ->
         (maxWidth col <> 0 -> maxWidth col < w0 ->
            ws !! i = Some (if Widths.allPinned b
                            then spreadWidth 200 repoColumns (Widths.share b) col
                            else maxWidth col))
         /\ (maxWidth col = 0 ->
               Widths.allPinned b = false /\ ws !! i = Some (Widths.share b)).
Proof.
  apply (capped_column_width 200 repoColumns).
  - discriminate.
  - vm_compute. discriminate.
Defined.

(** C1 as stated fails: on a 200 character terminal the four columns of the
    secret table are all pinned, and the unspent width is spread over them;
    AUTHOR, capped at 32 below the naive share 48, ends with 50. *)
Lemma capped_column_exceeds_cap :
  exists f',
    columnWidths (newColumnFormatter 200 secretColumns) = Ret ([50; 40; 63; 40], f')
    /\ Widths.naiveShare 200 secretColumns = Ret 48
    /\ secretColumns !! 0%nat = Some {| name := str "AUTHOR"; maxWidth := 32 |}
    /\ 32 <> 0 /\ 32 < 48
    /\ [50; 40; 63; 40] !! 0%nat <> Some 32.
Proof. eexists. repeat split; try reflexivity; try lia. discriminate. Qed.

(** ** The allocator on valid inputs *)

Section AllocatorSum.

Import Widths.

Lemma naiveShare_exact T cols :
  validInput T cols ->
  naiveShare T cols = Ret ((T - 2 * (len cols - 1)) `quot` len cols).
Proof.
  intros [Hn HT Hcaps]. unfold naiveShare. rewrite available_exact by done.
  apply div_ret; [lia|].
  pose proof (quot_bound (T - 2 * (len cols - 1)) (len cols) ltac:(lia)).
  unfold Int.in_range, Int.min_int, Int.max_int, bound in *. lia.
Qed.

Lemma sumZ_zeros n : sumZ (replicate n 0) = 0.
Proof. induction n; [done|]. simpl replicate. by rewrite sumZ_cons, IHn. Qed.

Lemma pin_nothing w cols res :
  Forall (fun col => maxWidth col = 0 \/ w <= maxWidth col) cols ->
  pin w cols res = (res, false).
Proof.
  intros Hc. revert res. induction Hc as [|col cols Hcol _ IH]; intros [|r res];
    try done.
  rewrite pin_cons, IH. destruct (pins w col r) eqn:E; [|done].
  apply pins_spec in E. lia.
Qed.

End AllocatorSum.

(** C2.  On a valid input the allocator returns widths whose sum differs from
    [totalWidth - 2*(n-1)] by at most [n-1]; when the naive share is at least
    one, that is [totalWidth >= 3*n - 2], every width is at least 1. *)
Theorem column_widths_sum (T : Z) (cols : list auditTableColumn) :
  validInput T cols ->
  exists ws f',
    columnWidths (newColumnFormatter T cols) = Ret (ws, f')
    /\ Z.abs (sumZ ws - (T - 2 * (len cols - 1))) <= len cols - 1
    /\ (3 * len cols - 2 <= T -> Forall (fun w => 1 <= w) ws).
Proof.
  intros Hv. pose proof Hv as [Hn HT Hcaps].
  assert (cols <> []) as Hne by (intros ->; unfold len in Hn; simpl in Hn; lia).
  destruct (allocate_returns T cols Hne) as [ws Hws].
  exists ws, {| tableWidth := T; computedColumnWidths := Some ws; columns := cols |}.
  split; [by apply columnWidths_new|].
  apply allocate_inv in Hws as (b & w0 & _ & Hw0 & -> & Hb).
  rewrite naiveShare_exact in Hw0 by done. injection Hw0 as <-.
  pose proof (fun Hz Hw => balance_sum _ T cols _ _ b Hv (capOrZero_start cols) Hz Hw Hb)
    as Hsum.
  rewrite zeros_replicate, sumZ_zeros, Z.sub_0_r in Hsum.
  destruct (Hsum ltac:(unfold len in Hn; lia) eq_refl) as [H1 H2].
  split; [done|]. intros Hlarge. apply H2.
  apply Z.quot_le_lower_bound; lia.
Qed.

Lemma column_widths_sum_witness :
  exists ws f',
    columnWidths (newColumnFormatter 80 repoColumns) = Ret (ws, f')
    /\ Z.abs (sumZ ws - (80 - 2 * (len repoColumns - 1))) <= len repoColumns - 1
    /\ (3 * len repoColumns - 2 <= 80 -> Forall (fun w => 1 <= w) ws).
Proof.
  apply (column_widths_sum 80 repoColumns).
  split.
  - vm_compute. split; [reflexivity|discriminate].
  - vm_compute. split; discriminate.
  - unfold repoColumns, baseColumns. simpl. repeat constructor; vm_compute; discriminate.
Defined.

(** A table width within [n] of the gaps alone leaves every column at zero. *)
Lemma narrow_table_zero_widths (T : Z) (cols : list auditTableColumn) :
  validInput T cols ->
  Z.abs (T - 2 * (len cols - 1)) < len cols ->
  Widths.allocate T cols = Ret (replicate (length cols) 0).
Proof.
  intros Hv Hsmall. pose proof Hv as [Hn HT Hcaps].
  unfold Widths.allocate, Widths.run. rewrite naiveShare_exact by done.
  rewrite bind_Ret.
  assert ((T - 2 * (len cols - 1)) `quot` len cols = 0) as ->
    by (apply Z.quot_small_iff; lia).
  unfold Widths.rounds. cbn [Widths.balance].
  rewrite pin_nothing
    by (eapply Forall_impl; [exact Hcaps|]; intros col Hcol; cbn beta in *; lia).
  cbn. f_equal. unfold Widths.fill.
  induction (length cols) as [|n IH]; [done|]. simpl. by rewrite IH.
Qed.

(** ** The column formatter: the loops over one cell *)

Section Wrapping.

Import ColumnFormatter.

Lemma wrapped_step fuel w cell :
  wrapped (S fuel) w cell =
    if decide (w < length cell)%nat
    then (take w cell :: (wrapped fuel w (drop w cell)).1,
          (wrapped fuel w (drop w cell)).2)
    else ([], cell).
Proof. simpl. case_decide; [|done]. by destruct (wrapped fuel w (drop w cell)). Qed.

Lemma wrapped_size fuel w cell :
  (0 < w)%nat -> (length cell <= fuel)%nat ->
  (length cell = length (wrapped fuel w cell).1 * w + length (wrapped fuel w cell).2
   /\ length (wrapped fuel w cell).2 <= w
   /\ (0 < length cell -> 0 < length (wrapped fuel w cell).2))%nat.
Proof.
  intros Hw. revert cell. induction fuel as [|fuel IH]; intros cell Hf.
  - destruct cell; simpl in *; lia.
  - rewrite wrapped_step. case_decide as Hc; simpl; [|lia].
    destruct (IH (drop w cell)) as (IH1 & IH2 & IH3); [rewrite length_drop; lia|].
    rewrite length_drop in IH1, IH3. lia.
Qed.

Lemma wrapped_concat fuel w cell :
  concat (wrapped fuel w cell).1 ++ (wrapped fuel w cell).2 = cell.
Proof.
  revert cell. induction fuel as [|fuel IH]; intros cell; [done|].
  rewrite wrapped_step. case_decide; [|done]. simpl.
  rewrite <- app_assoc, IH. apply take_drop.
Qed.

Lemma wrapped_full fuel w cell :
  Forall (fun chunk => length chunk = w) (wrapped fuel w cell).1.
Proof.
  revert cell. induction fuel as [|fuel IH]; intros cell; [constructor|].
  rewrite wrapped_step. case_decide; [|constructor]. simpl.
  constructor; [|apply IH]. rewrite length_take. lia.
Qed.

Lemma wrapped_more fuel w cell :
  (0 < w)%nat -> (length cell <= fuel)%nat ->
  wrapped (S fuel) w cell = wrapped fuel w cell.
Proof.
  intros Hw. revert cell. induction fuel as [|fuel IH]; intros cell Hf.
  - rewrite wrapped_step. case_decide; [lia|done].
  - rewrite (wrapped_step (S fuel)), (wrapped_step fuel w cell).
    case_decide; [|done]. rewrite IH; [done|]. rewrite length_drop. lia.
Qed.

(** The line count of the first loop is the number of chunks. *)
Lemma cellLines_spec w cell :
  width w -> len cell <= Int.max_int ->
  cellLines w cell =
    Ret (if decide (cell = []) then 0
         else Z.of_nat (S (length (wrapped (S (length cell)) (Z.to_nat w) cell).1))).
Proof.
  intros [Hw Hwm] Hc. unfold cellLines.
  pose proof (wrapped_size (S (length cell)) (Z.to_nat w) cell ltac:(lia) ltac:(lia))
    as (H1 & H2 & H3).
  set (k := length (wrapped (S (length cell)) (Z.to_nat w) cell).1) in *.
  set (r := length (wrapped (S (length cell)) (Z.to_nat w) cell).2) in *.
  assert (len cell = Z.of_nat k * w + Z.of_nat r) as Hlen by (unfold len; lia).
  assert (0 <= len cell) as Hpos by (unfold len; lia).
  unfold Int.max_int in *.
  rewrite div_ret; [|lia|].
  2:{ pose proof (quot_bound (len cell) w Hw).
      unfold Int.in_range, Int.min_int, Int.max_int. lia. }
  rewrite bind_Ret. unfold Int.rem.
  destruct (Z.eqb_spec w 0); [lia|]. rewrite bind_Ret.
  rewrite Z.quot_div_nonneg, Z.rem_mod_nonneg by lia.
  pose proof (Z.mod_pos_bound (len cell) w Hw) as Hmod.
  rewrite wrap_in_range by (unfold Int.in_range, Int.min_int, Int.max_int; lia).
  f_equal. case_decide as Hnil.
  - subst cell. done.
  - assert (0 < length cell)%nat by (destruct cell; [done|simpl; lia]).
    specialize (H3 ltac:(done)).
    destruct (decide (r = Z.to_nat w)) as [Hr|Hr].
    + assert (len cell = (Z.of_nat k + 1) * w) as -> by lia.
      rewrite Z.mod_mul, Z.div_mul by lia. simpl. lia.
    + assert (len cell `div` w = Z.of_nat k /\ len cell `mod` w = Z.of_nat r) as [-> ->].
      { rewrite Hlen.
        rewrite Z.add_comm, Z.div_add, Z.mod_add by lia.
        rewrite Z.div_small, Z.mod_small by lia. lia. }
      destruct (Z.eqb_spec (Z.of_nat r) 0); [lia|].
      unfold Int.add. rewrite wrap_in_range
        by (unfold Int.in_range, Int.min_int, Int.max_int; nia). lia.
Qed.

Lemma index_lookup {A : Type} (l : list A) (i : nat) (x : A) :
  l !! i = Some x -> index l i = Ret x.
Proof. unfold index. by intros ->. Qed.

Lemma setCell_next (pre : grid) line (post : grid) i s :
  (i < length line)%nat ->
  setCell (pre ++ line :: post) (length pre) i s = Ret (pre ++ <[i := s]> line :: post).
Proof.
  intros Hi. unfold setCell.
  rewrite (index_lookup _ _ line) by (by rewrite list_lookup_middle).
  rewrite bind_Ret, decide_True by done. f_equal.
  by rewrite insert_app_r_alt, Nat.sub_diag by lia.
Qed.

Lemma setColumn_nil i g : setColumn i [] g = g.
Proof. by destruct g. Qed.

Lemma setColumn_app i ps qs (g1 g2 : grid) :
  length ps = length g1 ->
  setColumn i (ps ++ qs) (g1 ++ g2) = setColumn i ps g1 ++ setColumn i qs g2.
Proof.
  revert g1. induction ps as [|p ps IH]; intros [|line g1]; try done.
  simpl. intros [= H]. by rewrite IH.
Qed.

Lemma setColumn_length i ps g : length (setColumn i ps g) = length g.
Proof.
  revert g. induction ps as [|p ps IH]; intros [|line g]; try done.
  simpl. by rewrite IH.
Qed.

Lemma sliceTo_ret (s : gostring) w :
  0 <= w <= len s -> sliceTo s w = Ret (take (Z.to_nat w) s).
Proof.
  intros H. unfold sliceTo.
  destruct (Z.ltb_spec w 0); [lia|]. destruct (Z.ltb_spec (len s) w); [lia|done].
Qed.

Lemma sliceFrom_ret (s : gostring) w :
  0 <= w <= len s -> sliceFrom s w = Ret (drop (Z.to_nat w) s).
Proof.
  intros H. unfold sliceFrom.
  destruct (Z.ltb_spec w 0); [lia|]. destruct (Z.ltb_spec (len s) w); [lia|done].
Qed.

Lemma repeatSpace_ret n : 0 <= n -> repeatSpace n = Ret (replicate (Z.to_nat n) space).
Proof. intros H. unfold repeatSpace. by destruct (Z.ltb_spec n 0); [lia|]. Qed.

(** The wrapping loop writes the full chunks into the lines from [j] on. *)
Lemma wrapCell_spec w i fuel cell (pre post : grid) :
  0 < w ->
  (length cell <= fuel)%nat ->
  (length (wrapped fuel (Z.to_nat w) cell).1 <= length post)%nat ->
  Forall (fun line => (i < length line)%nat) post ->
  wrapCell fuel w i cell (length pre) (pre ++ post) =
    Ret ((wrapped fuel (Z.to_nat w) cell).2,
         (length pre + length (wrapped fuel (Z.to_nat w) cell).1)%nat,
         pre ++ setColumn i (wrapped fuel (Z.to_nat w) cell).1 post).
Proof.
  intros Hw. revert cell pre post.
  induction fuel as [|fuel IH]; intros cell pre post Hf Hp Hlines.
  - destruct cell; [|simpl in Hf; lia]. simpl.
    destruct (Z.gtb_spec (len (@nil ascii)) w) as [H|H];
      [unfold len in H; simpl in H; lia|].
    by rewrite Nat.add_0_r, ?setColumn_nil.
  - rewrite wrapped_step in Hp |- *. cbn [wrapCell].
    destruct (Z.gtb_spec (len cell) w) as [Hgt|Hle]; unfold len in *.
    + rewrite decide_True in Hp |- * by lia. cbn [fst snd] in Hp |- *.
      destruct post as [|line post]; [simpl in Hp; lia|].
      inversion Hlines as [|? ? Hline Hlines']; subst.
      rewrite sliceTo_ret by (unfold len; lia). rewrite bind_Ret.
      rewrite setCell_next by done. rewrite bind_Ret.
      rewrite sliceFrom_ret by (unfold len; lia). rewrite bind_Ret.
      rewrite (cons_middle _ pre post), app_assoc.
      replace (S (length pre)) with (length (pre ++ [<[i:=take (Z.to_nat w) cell]> line]))
        by (rewrite length_app; simpl; lia).
      rewrite IH; [|rewrite length_drop; lia|simpl in Hp; lia|done].
      rewrite length_app. simpl. rewrite <- app_assoc. simpl.
      do 2 f_equal. f_equal. lia.
    + rewrite decide_False by lia. cbn [fst snd].
      by rewrite Nat.add_0_r, ?setColumn_nil.
Qed.

(** The last loop blanks column [i] in the lines from [j] on. *)
Lemma blankLines_spec w i fuel (pre post : grid) :
  0 <= w ->
  (length post <= fuel)%nat ->
  Forall (fun line => (i < length line)%nat) post ->
  blankLines fuel w i (length pre) (Z.of_nat (length pre + length post)) (pre ++ post) =
    Ret (pre ++ setColumn i (replicate (length post) (replicate (Z.to_nat w) space)) post).
Proof.
  intros Hw. revert pre post.
  induction fuel as [|fuel IH]; intros pre post Hf Hlines.
  - destruct post; [|simpl in Hf; lia]. simpl.
    by destruct (Z.ltb_spec (Z.of_nat (length pre)) (Z.of_nat (length pre + 0))) ; [lia|].
  - cbn [blankLines].
    destruct (Z.ltb_spec (Z.of_nat (length pre)) (Z.of_nat (length pre + length post)))
      as [Hlt|Hge].
    + destruct post as [|line post]; [simpl in Hlt; lia|].
      inversion Hlines as [|? ? Hline Hlines']; subst.
      rewrite repeatSpace_ret by done. rewrite bind_Ret.
      rewrite setCell_next by done. rewrite bind_Ret.
      rewrite (cons_middle _ pre post), app_assoc.
      replace (S (length pre))
        with (length (pre ++ [<[i:=replicate (Z.to_nat w) space]> line]))
        by (rewrite length_app; simpl; lia).
      replace (length pre + length (line :: post))%nat
        with (length (pre ++ [<[i:=replicate (Z.to_nat w) space]> line]) + length post)%nat
        by (rewrite length_app; simpl; lia).
      rewrite IH; [|simpl in Hf; lia|done].
      by rewrite <- app_assoc.
    + destruct post; [|simpl in Hge; lia]. done.
Qed.

End Wrapping.

(** ** The column formatter: the grid of a row *)

Section Grid.

Import ColumnFormatter.

Lemma column_length lines w cell :
  (S (length (wrapped (S (length cell)) w cell).1) <= lines)%nat ->
  length (column lines w cell) = lines.
Proof.
  unfold column. destruct (wrapped _ _ _) as [full rest]. cbn [fst].
  intros H. rewrite !length_app, length_replicate. simpl. lia.
Qed.

Lemma setColumn_lines i ps (g : grid) m :
  Forall (fun line => length line = m) g ->
  Forall (fun line => length line = m) (setColumn i ps g).
Proof.
  intros Hg. revert ps. induction Hg as [|line g Hl Hg IH]; intros [|p ps];
    try by constructor.
  cbn [setColumn]. constructor; [by rewrite length_insert|apply IH].
Qed.

Lemma setColumn_prefix i ps (g1 g2 : grid) :
  length ps = length g1 -> setColumn i ps (g1 ++ g2) = setColumn i ps g1 ++ g2.
Proof.
  intros H. rewrite <- (app_nil_r ps) at 1.
  by rewrite setColumn_app, setColumn_nil.
Qed.

(** The body of the second loop writes the chunks of the cell into its
    column. *)
Lemma splitCell_spec w i cell (g : grid) :
  width w -> len cell <= Int.max_int ->
  (S (length (wrapped (S (length cell)) (Z.to_nat w) cell).1) <= length g)%nat ->
  Forall (fun line => (i < length line)%nat) g ->
  splitCell w i cell (Z.of_nat (length g)) g =
    Ret (setColumn i (column (length g) (Z.to_nat w) cell) g).
Proof.
  intros [Hw Hwm] Hc Hk Hlines. unfold splitCell, column.
  pose proof (wrapCell_spec w i (S (length cell)) cell [] g Hw ltac:(lia)
                ltac:(lia) Hlines) as Hwrap.
  pose proof (wrapped_size (S (length cell)) (Z.to_nat w) cell ltac:(lia) ltac:(lia))
    as (_ & Hrest & _).
  destruct (wrapped (S (length cell)) (Z.to_nat w) cell) as [full rest].
  cbn [fst snd] in *.
  change (@nil (list gostring) ++ g) with g in Hwrap.
  change (length (@nil (list gostring))) with 0%nat in Hwrap.
  change (@nil (list gostring) ++ setColumn i full g) with (setColumn i full g) in Hwrap.
  rewrite Hwrap. rewrite bind_Ret. cbn [Nat.add].
  destruct (lookup_lt_is_Some_2 g (length full) ltac:(lia)) as [line Hline].
  pose proof (take_drop_middle g (length full) line Hline) as Hg.
  assert (length (take (length full) g) = length full) as Hpre
    by (rewrite length_take; lia).
  set (pre := take (length full) g) in *. set (post := drop (S (length full)) g) in *.
  assert (length g = (length full + S (length post))%nat) as Hlen
    by (rewrite <- Hg, length_app; simpl; lia).
  rewrite <- Hg in Hlines. apply Forall_app in Hlines as [Hpre_lines Hpost_lines].
  apply Forall_cons in Hpost_lines as [Hi Hpost_lines'].
  unfold Int.sub. rewrite wrap_in_range
    by (unfold Int.in_range, Int.min_int, Int.max_int, len in *; lia).
  rewrite repeatSpace_ret by (unfold len; lia). rewrite bind_Ret.
  assert (setColumn i full g = setColumn i full pre ++ line :: post) as ->
    by (rewrite <- Hg; by apply setColumn_prefix).
  pose proof (setColumn_length i full pre) as Hsl.
  rewrite Hpre in Hsl. rewrite <- Hsl at 1.
  rewrite setCell_next by done. rewrite bind_Ret.
  rewrite (cons_middle _ (setColumn i full pre) post), app_assoc.
  set (pre' := setColumn i full pre ++ _).
  assert (length pre' = S (length full)) as Hpre'
    by (unfold pre'; rewrite length_app; simpl; lia).
  rewrite <- Hpre'.
  replace (Z.to_nat (Z.of_nat (length g))) with (length g) by lia.
  rewrite Hlen. replace (length full + S (length post))%nat
    with (length pre' + length post)%nat by lia.
  rewrite blankLines_spec by (try done; lia).
  f_equal. rewrite <- Hg. unfold pre' at 1.
  rewrite setColumn_app by done. rewrite <- app_assoc. f_equal.
  cbn [app setColumn]. f_equal.
  - unfold padTo. do 3 f_equal. unfold len. lia.
  - do 2 f_equal. lia.
Qed.

Lemma foldr_max_acc a c cs :
  foldr Nat.max (Nat.max a c) cs = Nat.max c (foldr Nat.max a cs).
Proof. induction cs as [|x cs IH]; simpl; [lia|]. rewrite IH. lia. Qed.


Lemma foldr_max_elem a cs k c :
  cs !! k = Some c -> (c <= foldr Nat.max a cs)%nat.
Proof.
  revert k. induction cs as [|x cs IH]; intros [|k]; try done; simpl.
  - intros [= ->]. lia.
  - intros H. specialize (IH _ H). lia.
Qed.

Lemma chunkCount_nil w : chunkCount w [] = 1%nat.
Proof. unfold chunkCount. rewrite wrapped_step. by rewrite decide_False by (simpl; lia). Qed.

(** The first loop computes the number of lines of the row. *)
Lemma maxLines_spec ws row i acc :
  Forall width ws -> Forall okCell row ->
  (i + length row <= length ws)%nat -> (1 <= acc)%nat ->
  maxLines ws i row (Z.of_nat acc) =
    Ret (Z.of_nat (foldr Nat.max acc (zip_with chunkCount (drop i ws) row))).
Proof.
  intros Hws Hrow. revert i acc.
  induction Hrow as [|cell row Hcell _ IH]; intros i acc Hlen Hacc.
  - cbn [maxLines]. by rewrite zip_with_nil_r.
  - cbn [maxLines]. simpl length in Hlen.
    destruct (lookup_lt_is_Some_2 ws i ltac:(lia)) as [w Hw].
    rewrite (index_lookup _ _ _ Hw), bind_Ret.
    rewrite (drop_S _ _ _ Hw). cbn [zip_with foldr].
    pose proof (proj1 (Forall_lookup _ _) Hws i w Hw) as Hwidth.
    rewrite cellLines_spec by done. rewrite bind_Ret.
    fold (chunkCount w cell).
    replace (if _ >? Z.of_nat acc then _ else Z.of_nat acc)
      with (Z.of_nat (Nat.max acc (chunkCount w cell))).
    + rewrite IH by lia. by rewrite foldr_max_acc.
    + case_decide as Hnil.
      * subst cell. rewrite chunkCount_nil.
        destruct (Z.gtb_spec 0 (Z.of_nat acc)); lia.
      * destruct (Z.gtb_spec (Z.of_nat (chunkCount w cell)) (Z.of_nat acc)); lia.
Qed.

Lemma setColumn_fmap_seq i pieces (f : nat -> list gostring) s n :
  length pieces = n ->
  setColumn i pieces (f <$> seq s n) =
    (fun j => <[i := default [] (pieces !! (j - s)%nat)]> (f j)) <$> seq s n.
Proof.
  revert pieces s. induction n as [|n IH]; intros [|p ps] s; try done.
  intros [= Hlen]. cbn [seq fmap list_fmap setColumn].
  rewrite Nat.sub_diag. cbn [lookup list_lookup default]. f_equal.
  rewrite (IH ps (S s) Hlen). apply Forall_fmap_ext, Forall_seq.
  intros j Hj. cbn beta. replace (j - s)%nat with (S (j - S s)) by lia. done.
Qed.

Lemma zip_with_snoc {A B C : Type} (f : A -> B -> C) (l : list A) (k : list B) x y :
  l !! length k = Some x ->
  zip_with f l (k ++ [y]) = zip_with f l k ++ [f x y].
Proof.
  revert l. induction k as [|b k IH]; intros [|a l]; try done; simpl.
  - intros [= ->]. by destruct l.
  - intros H. by rewrite IH.
Qed.

Lemma partialGrid_step lines ws done cell todo w :
  ws !! length done = Some w ->
  (chunkCount w cell <= lines)%nat ->
  setColumn (length done) (column lines (Z.to_nat w) cell)
            (partialGrid lines ws done (cell :: todo)) =
    partialGrid lines ws (done ++ [cell]) todo.
Proof.
  intros Hw Hc. unfold partialGrid.
  rewrite setColumn_fmap_seq by (by apply column_length).
  apply Forall_fmap_ext, Forall_seq. intros j Hj. cbn beta.
  rewrite (zip_with_snoc _ _ _ w) by done.
  assert (length (zip_with (piece lines j) ws done) = length done) as Hl.
  { rewrite length_zip_with. apply lookup_lt_Some in Hw. lia. }
  rewrite insert_app_r_alt by lia. rewrite Hl, Nat.sub_diag, Nat.sub_0_r.
  rewrite <- app_assoc. done.
Qed.

(** The second loop fills the grid cell by cell. *)
Lemma splitRow_spec lines ws todo done :
  Forall width ws -> Forall okCell todo ->
  (length done + length todo <= length ws)%nat ->
  (forall k cell w, todo !! k = Some cell -> ws !! (length done + k)%nat = Some w ->
                    (chunkCount w cell <= lines)%nat) ->
  splitRow ws (length done) todo (Z.of_nat lines) (partialGrid lines ws done todo) =
    Ret (partialGrid lines ws (done ++ todo) []).
Proof.
  intros Hws Htodo. revert done.
  induction Htodo as [|cell todo Hcell _ IH]; intros done Hlen Hcount.
  - cbn [splitRow]. by rewrite app_nil_r.
  - cbn [splitRow]. simpl length in Hlen.
    destruct (lookup_lt_is_Some_2 ws (length done) ltac:(lia)) as [w Hw].
    rewrite (index_lookup _ _ _ Hw), bind_Ret.
    pose proof (proj1 (Forall_lookup _ _) Hws _ w Hw) as Hwidth.
    assert (chunkCount w cell <= lines)%nat as Hc
      by (apply (Hcount 0%nat); [done|by rewrite Nat.add_0_r]).
    assert (length (partialGrid lines ws done (cell :: todo)) = lines) as Hg
      by (unfold partialGrid; by rewrite length_fmap, length_seq).
    rewrite <- Hg at 1.
    rewrite splitCell_spec; [|done|done|by rewrite Hg|].
    2:{ unfold partialGrid. apply Forall_fmap, Forall_seq. intros j Hj.
        unfold compose. rewrite length_app, length_zip_with, length_replicate.
        simpl. lia. }
    rewrite bind_Ret, Hg, partialGrid_step by done.
    replace (S (length done)) with (length (done ++ [cell]))
      by (rewrite length_app; simpl; lia).
    rewrite IH.
    + by rewrite <- app_assoc.
    + rewrite length_app. simpl. lia.
    + intros k c w' Hk Hw'. apply (Hcount (S k)); [done|].
      rewrite length_app in Hw'. simpl in Hw'.
      by replace (length done + S k)%nat with (length done + 1 + k)%nat by lia.
Qed.

Lemma linesOf_ge ws row k cell w :
  row !! k = Some cell -> ws !! k = Some w -> (chunkCount w cell <= linesOf ws row)%nat.
Proof.
  intros Hc Hw. unfold linesOf. apply (foldr_max_elem _ _ k).
  by rewrite lookup_zip_with, Hw, Hc.
Qed.

(** The grid [formatRow] builds before it joins the lines. *)
Lemma split_spec ws row :
  Forall width ws -> Forall okCell row -> (length row <= length ws)%nat ->
  split ws row = Ret (gridOf ws row).
Proof.
  intros Hws Hrow Hlen. unfold split.
  change (maxLines ws 0 row 1) with (maxLines ws 0 row (Z.of_nat 1)).
  rewrite (maxLines_spec ws row 0 1) by (try done; lia).
  rewrite bind_Ret. rewrite drop_0. fold (linesOf ws row).
  rewrite Nat2Z.id.
  assert (replicate (linesOf ws row) (replicate (length row) [])
          = partialGrid (linesOf ws row) ws [] row) as ->.
  { unfold partialGrid.
    rewrite (const_fmap _ _ (replicate (length row) []))
      by (intros ? j _; cbn beta; by rewrite zip_with_nil_r).
    by rewrite length_seq. }
  change 0%nat with (length (@nil gostring)).
  rewrite splitRow_spec; try done.
  - unfold partialGrid, gridOf. simpl. f_equal.
    apply Forall_fmap_ext, Forall_seq. intros j _. by rewrite app_nil_r.
  - intros k cell w Hc Hw. by eapply linesOf_ge.
Qed.

End Grid.

(** ** The column formatter: reading the output back *)

Section Chunks.

Import ColumnFormatter.

Lemma concat_blank m n :
  concat (replicate m (replicate n space)) = replicate (m * n) space.
Proof.
  induction m as [|m IH]; [done|]. simpl. by rewrite IH, replicate_add.
Qed.

Lemma column_pieces lines w cell :
  (0 < w)%nat -> Forall (fun p => length p = w) (column lines w cell).
Proof.
  intros Hw. unfold column.
  pose proof (wrapped_full (S (length cell)) w cell) as Hfull.
  pose proof (wrapped_size (S (length cell)) w cell Hw ltac:(lia)) as (_ & Hrest & _).
  destruct (wrapped _ _ _) as [full rest]. cbn [fst snd] in *.
  apply Forall_app. split; [done|]. apply Forall_app. split.
  - constructor; [|done]. unfold padTo. rewrite length_app, length_replicate. lia.
  - apply Forall_replicate. by rewrite length_replicate.
Qed.

(** The chunks of a cell, put end to end, are the cell and then spaces. *)
Lemma column_concat lines w cell :
  (0 < w)%nat -> (S (length (wrapped (S (length cell)) w cell).1) <= lines)%nat ->
  concat (column lines w cell) = cell ++ replicate (lines * w - length cell) space.
Proof.
  intros Hw Hl. unfold column.
  pose proof (wrapped_concat (S (length cell)) w cell) as Hc.
  pose proof (wrapped_size (S (length cell)) w cell Hw ltac:(lia)) as (Hs & Hr & _).
  destruct (wrapped _ _ _) as [full rest]. cbn [fst snd] in *.
  rewrite !concat_app. simpl. rewrite app_nil_r, concat_blank. unfold padTo.
  rewrite !app_assoc, Hc, <- app_assoc, <- replicate_add. do 2 f_equal. nia.
Qed.

(** Dropping the padding of every chunk gives the cell back. *)
Lemma column_content lines w cell :
  (0 < w)%nat -> content (length cell) w (column lines w cell) = cell.
Proof.
  intros Hw. unfold column, content.
  pose proof (wrapped_concat (S (length cell)) w cell) as Hc.
  pose proof (wrapped_full (S (length cell)) w cell) as Hfull.
  pose proof (wrapped_size (S (length cell)) w cell Hw ltac:(lia)) as (Hs & Hr & Hp).
  destruct (wrapped _ _ _) as [full rest]. cbn [fst snd] in *.
  rewrite !imap_app, !concat_app. cbn [imap concat]. rewrite app_nil_r.
  assert (imap (fun j chunk => take (length cell - j * w) chunk) full = full) as ->.
  { rewrite <- (list_fmap_id full) at 2. rewrite <- (imap_const id).
    apply imap_ext. intros j chunk Hj. cbn.
    apply take_ge. rewrite Forall_lookup in Hfull. rewrite (Hfull j chunk Hj).
    apply lookup_lt_Some in Hj. nia. }
  rewrite Nat.add_0_r.
  replace (length cell - length full * w)%nat with (length rest) by lia.
  unfold padTo. rewrite take_app_length.
  assert (forall m s, (length full < s)%nat ->
            concat (imap (fun j chunk => take (length cell - (s + j) * w) chunk)
                         (replicate m (replicate w space))) = []) as Hblank.
  { induction m as [|m IH]; intros s Hlt; [done|]. cbn [replicate imap concat].
    replace (length cell - (s + 0) * w)%nat with 0%nat by nia. rewrite take_0.
    simpl. rewrite <- (IH (S s)) by lia. f_equal. apply imap_ext.
    intros j chunk _. cbn. do 2 f_equal. lia. }
  match goal with
  | |- _ ++ _ ++ ?X = _ => assert (X = []) as ->
  end.
  { rewrite <- (Hblank (lines - S (length full))%nat (length full + 1)%nat) by lia.
    f_equal. apply imap_ext. intros j chunk _. cbn. do 2 f_equal. lia. }
  by rewrite app_nil_r.
Qed.

Lemma join_cons2 e e' es sep :
  join (e :: e' :: es) sep = e ++ sep ++ join (e' :: es) sep.
Proof. reflexivity. Qed.

Lemma join_length ws line :
  Forall2 (fun w p => length p = w) ws line ->
  length (join line separator) = lineWidth ws.
Proof.
  unfold lineWidth. induction 1 as [|w p ws line Hp Hl IH]; [done|].
  destruct Hl as [|w' p' ws' line' Hp' Hl'].
  - simpl. lia.
  - rewrite join_cons2, !length_app, IH. simpl. lia.
Qed.

Lemma cutLine_join ws line tail :
  Forall2 (fun w p => length p = w) ws line ->
  cutLine ws (join line separator ++ tail) = line.
Proof.
  induction 1 as [|w p ws line Hp Hl IH]; [done|].
  destruct Hl as [|w' p' ws' line' Hp' Hl'].
  - subst w. simpl. by rewrite take_app_length.
  - subst w. rewrite join_cons2. cbn [cutLine].
    rewrite <- !app_assoc. rewrite take_app_length. f_equal.
    rewrite drop_app_add. simpl drop. apply IH.
Qed.

Lemma render_cons line (g : grid) :
  render (line :: g) = join line separator ++ newline :: render g.
Proof. unfold render. simpl. by rewrite <- app_assoc. Qed.

Lemma cutLines_render lw (g : grid) :
  Forall (fun line => length (join line separator) = lw) g ->
  cutLines (length g) lw (render g) = (fun line => join line separator) <$> g
  /\ length (render g) = (length g * S lw)%nat.
Proof.
  induction 1 as [|line g Hl _ [IH1 IH2]]; [done|].
  rewrite render_cons. cbn [length cutLines fmap list_fmap]. subst lw. split.
  - rewrite take_app_length. f_equal.
    rewrite (cons_middle newline), app_assoc.
    replace (S (length (join line separator)))
      with (length (join line separator ++ [newline]))
      by (rewrite length_app; simpl; lia).
    by rewrite drop_app_length.
  - rewrite length_app. simpl. rewrite IH2. lia.
Qed.

(** The printed text, read back, is the grid. *)
Lemma parse_render ws (g : grid) :
  Forall (Forall2 (fun w p => length p = Z.to_nat w) ws) g ->
  parse ws (render g) = g.
Proof.
  intros Hg. unfold parse.
  assert (Forall (Forall2 (fun w p => length p = w) (Z.to_nat <$> ws)) g) as Hg'.
  { eapply Forall_impl; [exact Hg|]. intros line Hline. by apply Forall2_fmap_l. }
  destruct (cutLines_render (lineWidth (Z.to_nat <$> ws)) g) as [H1 H2].
  { eapply Forall_impl; [exact Hg'|]. intros line Hline. by apply join_length. }
  rewrite H2, Nat.div_mul by lia. rewrite H1, <- list_fmap_compose.
  rewrite <- (list_fmap_id g) at 2. apply Forall_fmap_ext.
  eapply Forall_impl; [exact Hg'|]. intros line Hline. unfold compose. cbn.
  rewrite <- (app_nil_r (join line separator)). by apply cutLine_join.
Qed.

Lemma fmap_seq_lookup {A : Type} (d : A) (l : list A) :
  (fun j => default d (l !! j)) <$> seq 0 (length l) = l.
Proof.
  apply list_eq. intros j. rewrite list_lookup_fmap.
  destruct (decide (j < length l)%nat) as [Hj|Hj].
  - rewrite lookup_seq_lt by done. simpl.
    destruct (lookup_lt_is_Some_2 l j Hj) as [x Hx]. by rewrite Hx.
  - rewrite lookup_seq_ge by lia. simpl. symmetry. apply lookup_ge_None. lia.
Qed.

Lemma gridOf_pieces ws row :
  Forall width ws -> length row = length ws ->
  Forall (Forall2 (fun w p => length p = Z.to_nat w) ws) (gridOf ws row).
Proof.
  intros Hws Hlen. unfold gridOf. apply Forall_fmap, Forall_seq.
  intros j Hj. unfold compose.
  apply Forall2_same_length_lookup. split; [rewrite length_zip_with; lia|].
  intros k w p Hw Hp. rewrite lookup_zip_with, Hw in Hp. simpl in Hp.
  destruct (row !! k) as [cell|] eqn:Hc; [|done]. injection Hp as <-.
  pose proof (proj1 (Forall_lookup _ _) Hws k w Hw) as [Hpos _].
  pose proof (linesOf_ge ws row k cell w Hc Hw) as Hge.
  pose proof (column_length (linesOf ws row) (Z.to_nat w) cell Hge) as Hcl.
  pose proof (column_pieces (linesOf ws row) (Z.to_nat w) cell ltac:(lia)) as Hpieces.
  unfold piece.
  destruct (lookup_lt_is_Some_2 (column (linesOf ws row) (Z.to_nat w) cell) j
              ltac:(lia)) as [q Hq].
  rewrite Hq. simpl. by apply (proj1 (Forall_lookup _ _) Hpieces j q).
Qed.

Lemma gridOf_column ws row i w cell :
  ws !! i = Some w -> row !! i = Some cell ->
  cellChunks i (gridOf ws row) = column (linesOf ws row) (Z.to_nat w) cell.
Proof.
  intros Hw Hc. unfold cellChunks, gridOf. rewrite <- list_fmap_compose.
  pose proof (linesOf_ge ws row i cell w Hc Hw) as Hge.
  pose proof (column_length (linesOf ws row) (Z.to_nat w) cell Hge) as Hcl.
  etrans; [|apply (fmap_seq_lookup [] (column (linesOf ws row) (Z.to_nat w) cell))].
  rewrite Hcl. apply Forall_fmap_ext, Forall_seq. intros j _. unfold compose.
  by rewrite lookup_zip_with, Hw, Hc.
Qed.

Lemma format_spec ws row :
  Forall width ws -> Forall okCell row -> (length row <= length ws)%nat ->
  format ws row = Ret (render (gridOf ws row)).
Proof. intros ? ? ?. unfold format. by rewrite split_spec. Qed.

End Chunks.

(** ** The column formatter: [formatRow] *)

Section FormatRow.

Import ColumnFormatter.

Lemma balance_length fuel T cols res w b :
  Widths.balance fuel T cols res w = Ret b -> length (Widths.pinned b) = length res.
Proof.
  revert res w. induction fuel as [|fuel IH]; intros res w; [done|].
  simpl. pose proof (pin_length w cols res) as Hl.
  destruct (Widths.pin w cols res) as [res1 adjusted]; simpl in Hl.
  destruct adjusted; simpl.
  - destruct (Widths.tally _ _ _) as [count widthLeft].
    destruct (count =? 0).
    + intros (res' & Hs & [= <-])%bind_inv. simpl.
      apply spread_spec in Hs. subst res'. by rewrite length_map.
    + intros (w' & _ & Hb)%bind_inv. apply IH in Hb. lia.
  - by intros [= <-].
Qed.

Lemma allocate_length T cols ws :
  Widths.allocate T cols = Ret ws -> length ws = length cols.
Proof.
  intros (b & w0 & _ & _ & -> & Hb)%allocate_inv.
  apply balance_length in Hb. unfold Widths.fill.
  by rewrite length_map, Hb, length_replicate.
Qed.

Lemma formatRow_new T cols ws f' row :
  columnWidths (newColumnFormatter T cols) = Ret (ws, f') ->
  formatRow (newColumnFormatter T cols) row =
    out ← format ws row; Ret (out, None, f').
Proof. intros H. unfold formatRow. by rewrite H. Qed.

Lemma linesOf_short ws row :
  Forall2 (fun w cell => len cell <= w) ws row -> linesOf ws row = 1%nat.
Proof.
  unfold linesOf. induction 1 as [|w cell ws row Hc _ IH]; [done|].
  cbn [zip_with foldr]. rewrite IH. unfold chunkCount.
  rewrite wrapped_step, decide_False by (unfold len in Hc; lia). done.
Qed.

Lemma gridOf_short ws row :
  Forall2 (fun w cell => len cell <= w) ws row ->
  gridOf ws row = [zip_with (fun w cell => padTo (Z.to_nat w) cell) ws row].
Proof.
  intros H. unfold gridOf. rewrite (linesOf_short _ _ H).
  cbn [seq fmap list_fmap]. f_equal.
  induction H as [|w cell ws row Hc _ IH]; [done|].
  cbn [zip_with]. rewrite IH. f_equal. unfold piece, column.
  rewrite wrapped_step, decide_False by (unfold len in Hc; lia). done.
Qed.

End FormatRow.

(** C3.  When every computed width is positive and the row has one cell per
    column, [formatRow] returns a text from which every cell can be read
    back: the chunks of the cell, taken from the output lines and freed of
    their padding, put end to end give the cell. *)
Theorem wrapped_cell_round_trip (T : Z) (cols : list auditTableColumn)
    (ws : list Z) (f' : columnFormatter) (row : list gostring) :
  columnWidths (newColumnFormatter T cols) = Ret (ws, f') ->
  Forall width ws -> Forall okCell row -> length row = length cols ->
  exists out,
    ColumnFormatter.formatRow (newColumnFormatter T cols) row = Ret (out, None, f')
    /\ forall i cell w, row !! i = Some cell -> ws !! i = Some w ->
         content (length cell) (Z.to_nat w) (cellChunks i (parse ws out)) = cell
         /\ concat (cellChunks i (parse ws out))
            = cell ++ replicate (linesOf ws row * Z.to_nat w - length cell) space.
Proof.
  intros Hws Hwidth Hrow Hlen.
  pose proof (proj1 (columnWidths_new _ _ _ _) Hws) as [Hlenws%allocate_length _].
  exists (ColumnFormatter.render (gridOf ws row)). split.
  - rewrite (formatRow_new _ _ _ _ _ Hws), format_spec by (try done; lia). done.
  - intros i cell w Hc Hw.
    rewrite parse_render by (apply gridOf_pieces; [done|lia]).
    rewrite (gridOf_column _ _ _ _ _ Hw Hc).
    pose proof (proj1 (Forall_lookup _ _) Hwidth i w Hw) as [Hpos _].
    split.
    + apply column_content. lia.
    + apply column_concat; [lia|]. by eapply linesOf_ge.
Qed.

Lemma wrapped_cell_round_trip_witness :
  exists out,
    ColumnFormatter.formatRow (newColumnFormatter 30 secretColumns)
      [str "alice"; str "secret.read.long"; str "10.0.0.1"; str "2019"]
    = Ret (out, None,
           {| tableWidth := 30; computedColumnWidths := Some [6; 6; 6; 6];
              columns := secretColumns |})
    /\ forall i cell w,
         [str "alice"; str "secret.read.long"; str "10.0.0.1"; str "2019"] !! i
           = Some cell ->
         [6; 6; 6; 6] !! i = Some w ->
         content (length cell) (Z.to_nat w) (cellChunks i (parse [6; 6; 6; 6] out)) = cell
         /\ concat (cellChunks i (parse [6; 6; 6; 6] out))
            = cell ++ replicate
                (linesOf [6; 6; 6; 6]
                   [str "alice"; str "secret.read.long"; str "10.0.0.1"; str "2019"]
                 * Z.to_nat w - length cell) space.
Proof.
  apply (wrapped_cell_round_trip 30 secretColumns).
  - reflexivity.
  - repeat constructor; vm_compute; congruence.
  - repeat constructor; vm_compute; congruence.
  - reflexivity.
Defined.

(** C4.  When every cell is at most as long as its column is wide (all
    widths positive, one cell per column), [formatRow] returns one line: the
    cells, each followed by spaces up to its column width, joined by two
    spaces and ended by a newline. *)
Theorem short_cells_one_line (T : Z) (cols : list auditTableColumn)
    (ws : list Z) (f' : columnFormatter) (row : list gostring) :
  columnWidths (newColumnFormatter T cols) = Ret (ws, f') ->
  Forall width ws -> length row = length cols ->
  Forall2 (fun w cell => len cell <= w) ws row ->
  ColumnFormatter.formatRow (newColumnFormatter T cols) row =
    Ret (join (zip_with (fun w cell => cell ++ replicate (Z.to_nat w - length cell) space)
                        ws row)
              ColumnFormatter.separator ++ [newline],
         None, f').
Proof.
  intros Hws Hwidth Hlen Hshort.
  pose proof (Forall2_length _ _ _ Hshort) as Hl.
  assert (Forall okCell row) as Hrow.
  { apply Forall_lookup. intros i cell Hc.
    destruct (Forall2_lookup_r _ _ _ _ _ Hshort Hc) as (w & Hw & Hle).
    pose proof (proj1 (Forall_lookup _ _) Hwidth i w Hw) as [_ Hmax].
    unfold okCell. lia. }
  rewrite (formatRow_new _ _ _ _ _ Hws), format_spec by (try done; lia).
  rewrite gridOf_short by done. unfold ColumnFormatter.render.
  cbn [fmap list_fmap map concat]. by rewrite app_nil_r.
Qed.

Lemma short_cells_one_line_witness :
  ColumnFormatter.formatRow (newColumnFormatter 80 secretColumns)
    [str "alice"; str "secret.read"; str "10.0.0.1"; str "2019-02-01"] =
    Ret (join (zip_with (fun w cell => cell ++ replicate (Z.to_nat w - length cell) space)
                        [18; 18; 18; 18]
                        [str "alice"; str "secret.read"; str "10.0.0.1"; str "2019-02-01"])
              ColumnFormatter.separator ++ [newline],
         None,
         {| tableWidth := 80; computedColumnWidths := Some [18; 18; 18; 18];
            columns := secretColumns |}).
Proof.
  apply (short_cells_one_line 80 secretColumns).
  - reflexivity.
  - repeat constructor; vm_compute; congruence.
  - reflexivity.
  - repeat constructor; vm_compute; congruence.
Defined.

(** ** The column formatter: widths that are not positive *)

Section Partiality.

Import ColumnFormatter.

Lemma wrap_range z : Int.in_range (Int.wrap z).
Proof.
  unfold Int.in_range, Int.wrap, Int.min_int, Int.max_int.
  pose proof (Z.mod_pos_bound (z + 2 ^ 63) (2 ^ 64) ltac:(lia)). lia.
Qed.

Lemma div_range a b q : Int.div a b = Ret q -> Int.in_range q.
Proof.
  unfold Int.div. destruct (b =? 0); [done|]. intros [= <-]. apply wrap_range.
Qed.

Lemma pin_range w cols res :
  Forall (fun col => Int.in_range (maxWidth col)) cols ->
  Forall Int.in_range res -> Forall Int.in_range (Widths.pin w cols res).1.
Proof.
  intros Hc. revert res. induction Hc as [|col cols Hcol _ IH]; intros [|r res] Hres;
    try done.
  apply Forall_cons in Hres as [Hr Hres]. rewrite pin_cons.
  destruct (pins w col r); cbn [fst]; constructor; auto.
Qed.

Lemma balance_range fuel T cols res w b :
  Forall (fun col => Int.in_range (maxWidth col)) cols ->
  Forall Int.in_range res -> Int.in_range w ->
  Widths.balance fuel T cols res w = Ret b ->
  Int.in_range (Widths.share b) /\ Forall Int.in_range (Widths.pinned b).
Proof.
  intros Hc. revert res w. induction fuel as [|fuel IH]; intros res w Hres Hw; [done|].
  simpl. pose proof (pin_range w cols res Hc Hres) as Hp.
  destruct (Widths.pin w cols res) as [res1 adjusted]; cbn [fst] in Hp.
  destruct adjusted; simpl.
  - destruct (Widths.tally _ _ _) as [count widthLeft].
    destruct (count =? 0).
    + intros (res' & Hs & [= <-])%bind_inv. simpl. split; [done|].
      apply spread_spec in Hs. subst res'. apply Forall_fmap, Forall_true.
      intros r. apply wrap_range.
    + intros (w' & Hw' & Hb)%bind_inv. apply div_range in Hw'. by eapply IH.
  - by intros [= <-].
Qed.

(** The widths are Go integers when the caps are. *)
Lemma allocate_range T cols ws :
  Forall (fun col => Int.in_range (maxWidth col)) cols ->
  Widths.allocate T cols = Ret ws -> Forall Int.in_range ws.
Proof.
  intros Hc (b & w0 & _ & Hw0 & -> & Hb)%allocate_inv.
  apply div_range in Hw0.
  assert (Forall Int.in_range (replicate (length cols) 0)) as Hzero
    by (apply Forall_replicate; split; discriminate).
  destruct (balance_range _ _ _ _ _ _ Hc Hzero Hw0 Hb) as [Hs Hp].
  unfold Widths.fill. apply Forall_fmap. eapply Forall_impl; [exact Hp|].
  intros r Hr. unfold compose. by destruct (r =? 0).
Qed.

Lemma cellLines_cases w cell :
  (w = 0 /\ cellLines w cell = Panic DivideByZero)
  \/ (w <> 0 /\ returns (cellLines w cell)).
Proof.
  unfold cellLines, Int.div, Int.rem.
  destruct (Z.eqb_spec w 0) as [->|Hw]; [by left|]. right. split; [done|].
  by eexists.
Qed.

(** A zero width stops the first loop at its division. *)
Lemma maxLines_zero ws row k i acc :
  ws !! (i + k)%nat = Some 0 -> (k < length row)%nat ->
  maxLines ws i row acc = Panic DivideByZero.
Proof.
  revert row i acc. induction k as [|k IH]; intros [|cell row] i acc Hw Hk;
    try (simpl in Hk; lia).
  - rewrite Nat.add_0_r in Hw. cbn [maxLines].
    by rewrite (index_lookup _ _ _ Hw).
  - cbn [maxLines].
    destruct (lookup_lt_is_Some_2 ws i) as [w Hi].
    { apply lookup_lt_Some in Hw. lia. }
    rewrite (index_lookup _ _ _ Hi), bind_Ret.
    destruct (cellLines_cases w cell) as [[_ ->]|[_ [lines ->]]]; [done|].
    rewrite bind_Ret. apply IH; [|simpl in Hk; lia].
    by replace (S i + k)%nat with (i + S k)%nat by lia.
Qed.

Lemma maxLines_returns ws row i acc k w :
  returns (maxLines ws i row acc) ->
  (k < length row)%nat -> ws !! (i + k)%nat = Some w -> w <> 0.
Proof.
  intros Hret Hk Hw ->. rewrite (maxLines_zero ws row k i acc Hw Hk) in Hret.
  by destruct Hret.
Qed.

Lemma splitCell_negative w i cell lines (g : grid) :
  w < 0 -> splitCell w i cell lines g = Panic SliceBounds.
Proof.
  intros Hw. unfold splitCell. cbn [wrapCell].
  destruct (Z.gtb_spec (len cell) w) as [_|H]; [|unfold len in H; lia].
  unfold sliceTo. by destruct (Z.ltb_spec w 0); [|lia].
Qed.

Lemma splitRow_returns ws row i lines (g : grid) k w :
  returns (splitRow ws i row lines g) ->
  (k < length row)%nat -> ws !! (i + k)%nat = Some w -> 0 <= w.
Proof.
  revert row i g. induction k as [|k IH]; intros [|cell row] i g Hret Hk Hw;
    try (simpl in Hk; lia); cbn [splitRow] in Hret; destruct Hret as [g' Hret];
    apply bind_inv in Hret as (w0 & Hw0 & Hret);
    apply bind_inv in Hret as (g1 & Hg1 & Hret).
  - rewrite Nat.add_0_r in Hw. rewrite (index_lookup _ _ _ Hw) in Hw0.
    injection Hw0 as <-. destruct (Z.le_gt_cases 0 w) as [|Hneg]; [done|].
    by rewrite splitCell_negative in Hg1.
  - apply (IH row (S i) g1); [by eexists|simpl in Hk; lia|].
    by replace (S i + k)%nat with (i + S k)%nat by lia.
Qed.

(** [formatRow] returns only on positive widths. *)
Lemma format_returns_positive ws row :
  returns (format ws row) -> length row = length ws -> Forall (fun w => 0 < w) ws.
Proof.
  intros [out Hout] Hlen. unfold format, split in Hout.
  apply bind_inv in Hout as (g & Hg & _).
  apply bind_inv in Hg as (lines & Hlines & Hg).
  apply Forall_lookup. intros k w Hw.
  pose proof (lookup_lt_Some _ _ _ Hw) as Hk.
  pose proof (maxLines_returns ws row 0 1 k w ltac:(by eexists) ltac:(lia) Hw).
  pose proof (splitRow_returns ws row 0 lines _ k w ltac:(by eexists) ltac:(lia) Hw).
  lia.
Qed.

End Partiality.

(** C10.  On every non-empty column list the allocator returns.  A table
    width within [n] of the gaps alone leaves every column at width zero; a
    zero width makes [formatRow] panic on the division in its first loop;
    and [formatRow] returns on every row of the table exactly when every
    computed width is positive. *)
Theorem zero_width_divides_by_zero (T : Z) (cols : list auditTableColumn) :
  cols <> [] ->
  Forall (fun col => Int.in_range (maxWidth col)) cols ->
  exists ws f',
    columnWidths (newColumnFormatter T cols) = Ret (ws, f')
    /\ (validInput T cols -> Z.abs (T - 2 * (len cols - 1)) < len cols ->
          ws = replicate (length cols) 0)
    /\ (forall i row, ws !! i = Some 0 -> (i < length row)%nat ->
          ColumnFormatter.formatRow (newColumnFormatter T cols) row
          = Panic DivideByZero)
    /\ ((forall row, length row = length cols -> Forall okCell row ->
           returns (ColumnFormatter.formatRow (newColumnFormatter T cols) row))
        <-> Forall (fun w => 0 < w) ws).
Proof.
  intros Hne Hcaps. destruct (allocate_returns T cols Hne) as [ws Halloc].
  exists ws, {| tableWidth := T; computedColumnWidths := Some ws; columns := cols |}.
  pose proof (proj2 (columnWidths_new T cols ws _) (conj Halloc eq_refl)) as Hws.
  pose proof (allocate_length _ _ _ Halloc) as Hlen.
  pose proof (allocate_range _ _ _ Hcaps Halloc) as Hrange.
  split; [done|]. split; [|split].
  - intros Hv Hsmall. rewrite (narrow_table_zero_widths T cols Hv Hsmall) in Halloc.
    by injection Halloc.
  - intros i row Hi Hrow. rewrite (formatRow_new _ _ _ _ _ Hws).
    unfold ColumnFormatter.format, ColumnFormatter.split.
    by rewrite (maxLines_zero ws row i 0 1 Hi Hrow).
  - split.
    + intros Hall.
      destruct (Hall (replicate (length cols) [])) as [[[out e] f''] Hout].
      { by rewrite length_replicate. }
      { apply Forall_replicate. unfold okCell, len. simpl. discriminate. }
      rewrite (formatRow_new _ _ _ _ _ Hws) in Hout.
      apply bind_inv in Hout as (out' & Hout' & _).
      apply (format_returns_positive ws (replicate (length cols) [])).
      * by eexists.
      * by rewrite length_replicate.
    + intros Hpos row Hrow Hok.
      rewrite (formatRow_new _ _ _ _ _ Hws), format_spec; [by eexists| |done|lia].
      apply Forall_lookup. intros k w Hw.
      pose proof (proj1 (Forall_lookup _ _) Hpos k w Hw).
      pose proof (proj1 (Forall_lookup _ _) Hrange k w Hw) as [_ Hmax].
      by split.
Qed.

Lemma zero_width_divides_by_zero_witness :
  exists ws f',
    columnWidths (newColumnFormatter 6 secretColumns) = Ret (ws, f')
    /\ (validInput 6 secretColumns ->
        Z.abs (6 - 2 * (len secretColumns - 1)) < len secretColumns ->
          ws = replicate (length secretColumns) 0)
    /\ (forall i row, ws !! i = Some 0 -> (i < length row)%nat ->
          ColumnFormatter.formatRow (newColumnFormatter 6 secretColumns) row
          = Panic DivideByZero)
    /\ ((forall row, length row = length secretColumns -> Forall okCell row ->
           returns (ColumnFormatter.formatRow (newColumnFormatter 6 secretColumns) row))
        <-> Forall (fun w => 0 < w) ws).
Proof.
  apply (zero_width_divides_by_zero 6 secretColumns).
  - discriminate.
  - repeat constructor; vm_compute; congruence.
Defined.

(** C8.  No size check guards the column formatter: a row shorter than the
    table is formatted without an error, its missing columns left out, and a
    longer row runs into an index panic, not an error value. *)
Theorem row_length_is_not_checked :
  ColumnFormatter.formatRow (newColumnFormatter 80 secretColumns) [str "alice"]
    = Ret (str "alice" ++ replicate 13 space ++ [newline], None,
           {| tableWidth := 80; computedColumnWidths := Some [18; 18; 18; 18];
              columns := secretColumns |})
  /\ ColumnFormatter.formatRow (newColumnFormatter 80 secretColumns)
       [str "alice"; str "secret.read"; str "10.0.0.1"; str "2019"; str "extra"]
     = Panic IndexOutOfRange.
Proof. split; reflexivity. Qed.

(** ** The JSON formatter: the record of a row *)

Section Record.

Import JSONFormatter.

Lemma fillMap_spec fields row pre fs m :
  fields = pre ++ fs -> (length row <= length fs)%nat ->
  fillMap fields (length pre) row m =
    Ret (foldl (fun m p => <[p.1 := p.2]> m) m (zip fs row)).
Proof.
  intros ->. revert pre fs m.
  induction row as [|v row IH]; intros pre fs m Hlen.
  - by destruct fs.
  - destruct fs as [|k fs]; [simpl in Hlen; lia|]. cbn [fillMap].
    rewrite (index_lookup _ _ k) by (by rewrite list_lookup_middle).
    rewrite bind_Ret.
    replace (S (length pre)) with (length (pre ++ [k]))
      by (rewrite length_app; simpl; lia).
    rewrite (cons_middle k pre fs), app_assoc.
    rewrite IH by (simpl in Hlen; lia). done.
Qed.

Lemma fillMap_record fields row :
  length fields = length row -> fillMap fields 0 row ∅ = Ret (record fields row).
Proof.
  intros Hlen. by rewrite (fillMap_spec fields row [] fields ∅) by (try done; lia).
Qed.

Lemma puts_other (ps : list (gostring * gostring)) (m : gmap gostring gostring) k :
  k ∉ ps.*1 -> foldl put m ps !! k = m !! k.
Proof.
  revert m. induction ps as [|[k0 v0] ps IH]; intros m Hk; [done|].
  cbn [foldl]. rewrite fmap_cons, not_elem_of_cons in Hk. destruct Hk as [Hne Hk].
  rewrite IH by done. unfold put. cbn [fst snd]. by rewrite lookup_insert_ne.
Qed.

(** With distinct names every pair is in the record. *)
Lemma puts_lookup (ps : list (gostring * gostring)) (m : gmap gostring gostring) i k v :
  NoDup ps.*1 -> ps !! i = Some (k, v) -> foldl put m ps !! k = Some v.
Proof.
  revert m i. induction ps as [|[k0 v0] ps IH]; intros m i Hnd Hi; [done|].
  rewrite fmap_cons in Hnd. apply NoDup_cons in Hnd as [Hk0 Hnd].
  cbn [foldl]. destruct i as [|i].
  - injection Hi as -> ->. rewrite puts_other by done.
    unfold put. cbn [fst snd]. by rewrite lookup_insert_eq.
  - by apply (IH _ i).
Qed.

(** Every pair of the record comes from the row. *)
Lemma puts_origin (ps : list (gostring * gostring)) (m : gmap gostring gostring) k v :
  foldl put m ps !! k = Some v -> m !! k = Some v \/ (k, v) ∈ ps.
Proof.
  revert m. induction ps as [|[k0 v0] ps IH]; intros m Hk; [by left|].
  cbn [foldl] in Hk. apply IH in Hk as [Hk|Hk].
  - unfold put in Hk. cbn [fst snd] in Hk.
    destruct (decide (k0 = k)) as [->|Hne].
    + rewrite lookup_insert_eq in Hk. injection Hk as ->. right. by left.
    + rewrite lookup_insert_ne in Hk by done. by left.
  - right. by right.
Qed.

Lemma puts_dom (ps : list (gostring * gostring)) (m : gmap gostring gostring) :
  dom (foldl put m ps) = dom m ∪ list_to_set ps.*1.
Proof.
  revert m. induction ps as [|[k0 v0] ps IH]; intros m.
  - simpl. by rewrite (right_id_L ∅ (∪)).
  - cbn [foldl]. rewrite IH. unfold put. cbn [fst snd].
    rewrite dom_insert_L, fmap_cons. cbn [list_to_set].
    by rewrite (comm_L (∪) {[k0]} (dom m)), (assoc_L (∪)).
Qed.

Lemma record_lookup fields row i k v :
  NoDup fields -> length fields = length row ->
  fields !! i = Some k -> row !! i = Some v -> record fields row !! k = Some v.
Proof.
  intros Hnd Hlen Hk Hv. unfold record. apply (puts_lookup _ _ i).
  - by rewrite fst_zip by lia.
  - by rewrite lookup_zip_with, Hk, Hv.
Qed.

Lemma record_origin fields row k v :
  record fields row !! k = Some v ->
  exists i, fields !! i = Some k /\ row !! i = Some v.
Proof.
  intros [Hk|Hk]%puts_origin; [by rewrite lookup_empty in Hk|].
  apply list_elem_of_lookup in Hk as [i Hi]. exists i.
  rewrite lookup_zip_with in Hi.
  destruct (fields !! i) as [k'|]; [|done]. simpl in Hi.
  destruct (row !! i) as [v'|]; [|done]. simpl in Hi. by injection Hi as -> ->.
Qed.

Lemma record_size fields row :
  NoDup fields -> length fields = length row ->
  size (record fields row) = length fields.
Proof.
  intros Hnd Hlen. rewrite <- size_dom. unfold record.
  rewrite puts_dom, dom_empty_L, (left_id_L ∅ (∪)).
  rewrite fst_zip by lia. by apply size_list_to_set.
Qed.

End Record.

(** C5, as amended.  [formatRow] of the JSON formatter returns the
    field-count error exactly when the field names and the row differ in
    length.  When they agree, it hands the record of the row to the encoder
    and returns the encoder's error, or the encoded bytes followed by one
    newline.  Every pair of the record is a field name with the cell at the
    same index; a name that occurs more than once keeps its last cell only;
    with pairwise distinct names every field name is paired with the cell at
    its index and the record has as many fields as the row has cells. *)
Theorem json_row_record (Marshal : gmap gostring gostring -> gostring * option error)
    (fields row : list gostring) :
  (length fields <> length row ->
     JSONFormatter.formatRow Marshal (JSONFormatter.newJSONFormatter fields) row
     = Ret ([], Some ErrUnexpectedJSONFields))
  /\ (length fields = length row ->
        JSONFormatter.fillMap fields 0 row ∅ = Ret (record fields row)
        /\ JSONFormatter.formatRow Marshal (JSONFormatter.newJSONFormatter fields) row
           = Ret (match Marshal (record fields row) with
                  | (_, Some err) => ([], Some err)
                  | (jsonData, None) => (jsonData ++ [newline], None)
                  end)
        /\ (forall k v, record fields row !! k = Some v ->
              exists i, fields !! i = Some k /\ row !! i = Some v)
        /\ (NoDup fields ->
              (forall i k v, fields !! i = Some k -> row !! i = Some v ->
                 record fields row !! k = Some v)
              /\ size (record fields row) = length fields))
  /\ ((forall m, (Marshal m).2 = None) ->
      forall out err,
        JSONFormatter.formatRow Marshal (JSONFormatter.newJSONFormatter fields) row
        = Ret (out, err) ->
        (err <> None <-> length fields <> length row)).
Proof.
  assert (length fields <> length row ->
          JSONFormatter.formatRow Marshal (JSONFormatter.newJSONFormatter fields) row
          = Ret ([], Some ErrUnexpectedJSONFields)) as Hbad.
  { intros Hne. unfold JSONFormatter.formatRow, JSONFormatter.newJSONFormatter.
    cbn [JSONFormatter.fields]. unfold len.
    destruct (Z.eqb_spec (Z.of_nat (length fields)) (Z.of_nat (length row))); [lia|done]. }
  assert (length fields = length row ->
          JSONFormatter.formatRow Marshal (JSONFormatter.newJSONFormatter fields) row
          = Ret (match Marshal (record fields row) with
                 | (_, Some err) => ([], Some err)
                 | (jsonData, None) => (jsonData ++ [newline], None)
                 end)) as Hgood.
  { intros Heq. unfold JSONFormatter.formatRow, JSONFormatter.newJSONFormatter.
    cbn [JSONFormatter.fields]. unfold len.
    destruct (Z.eqb_spec (Z.of_nat (length fields)) (Z.of_nat (length row))); [|lia].
    cbn [negb]. rewrite fillMap_record by done. rewrite bind_Ret.
    by destruct (Marshal (record fields row)) as [jsonData [err|]]. }
  split; [done|]. split.
  - intros Heq. split; [by apply fillMap_record|]. split; [by apply Hgood|].
    split; [apply record_origin|]. intros Hnd. split.
    + intros i k v. by apply record_lookup.
    + by apply record_size.
  - intros Hok out err Hout.
    destruct (decide (length fields = length row)) as [Heq|Hne].
    + rewrite (Hgood Heq) in Hout. specialize (Hok (record fields row)).
      destruct (Marshal (record fields row)) as [jsonData [e|]]; [done|].
      injection Hout as <- <-. split; [done|]. intros Hne. by destruct Hne.
    + rewrite (Hbad Hne) in Hout. by injection Hout as <- <-.
Qed.

Lemma json_row_record_witness :
  JSONFormatter.fillMap [str "AUTHOR"; str "EVENT"] 0 [str "alice"; str "secret.read"] ∅
  = Ret (record [str "AUTHOR"; str "EVENT"] [str "alice"; str "secret.read"])
  /\ record [str "AUTHOR"; str "EVENT"] [str "alice"; str "secret.read"] !! str "AUTHOR"
     = Some (str "alice")
  /\ size (record [str "AUTHOR"; str "EVENT"] [str "alice"; str "secret.read"]) = 2%nat.
Proof.
  destruct (json_row_record plainMarshal [str "AUTHOR"; str "EVENT"]
              [str "alice"; str "secret.read"]) as (_ & Hgood & _).
  destruct (Hgood eq_refl) as (Hfill & _ & _ & Hdistinct).
  destruct Hdistinct as [Hpairs Hsize].
  { apply (bool_decide_unpack _). vm_compute. exact I. }
  split; [exact Hfill|]. split; [|exact Hsize].
  apply (Hpairs 0%nat); reflexivity.
Defined.

(** C5 as stated fails on a field name that occurs twice: of the two cells of
    the row only the last is in the record, which has one field, not two. *)
Lemma repeated_field_drops_cell :
  JSONFormatter.fillMap [str "A"; str "A"] 0 [str "x"; str "y"] ∅
  = Ret {[ str "A" := str "y" ]}
  /\ ({[ str "A" := str "y" ]} : gmap gostring gostring) !! str "A" <> Some (str "x")
  /\ size ({[ str "A" := str "y" ]} : gmap gostring gostring) <> length [str "x"; str "y"].
Proof.
  split; [|split].
  - vm_compute. reflexivity.
  - vm_compute. discriminate.
  - vm_compute. discriminate.
Qed.

(** ** The orchestrator: refused paths *)

(** C6.  A path that is no repository path, parses as a secret path and
    carries a version is refused with [ErrCannotAuditSecretVersion], and
    nothing has been called by then: no client, no directory lookup, no
    event iterator. *)
Theorem version_refused_before_any_call (cmd : Audit.AuditCommand)
    (secretPath : gostring) (err : error) (log : list Audit.call) :
  Audit.ToRepoPath (Audit.path cmd) = inr err ->
  Audit.ToSecretPath (Audit.path cmd) = inl secretPath ->
  Audit.HasVersion (Audit.path cmd) = true ->
  Audit.iterAndAuditTable cmd log = (inr ErrCannotAuditSecretVersion, log).
Proof.
  intros Hrepo Hsecret Hversion. unfold Audit.iterAndAuditTable.
  by rewrite Hrepo, Hsecret, Hversion.
Qed.

Lemma version_refused_before_any_call_witness :
  Audit.iterAndAuditTable
    {| Audit.path := {| Audit.ToRepoPath := inr (ErrExternal 1);
                        Audit.ToSecretPath := inl (str "ns/repo/secret:2");
                        Audit.HasVersion := true |};
       Audit.newClient := inr (ErrExternal 2);
       Audit.perPage := 20;
       Audit.json := false |} []
  = (inr ErrCannotAuditSecretVersion, []).
Proof.
  apply (version_refused_before_any_call _ (str "ns/repo/secret:2") (ErrExternal 1));
    reflexivity.
Defined.

(** C9.  A path that is no repository path, parses as a secret path without
    a version and is found to be an existing directory is refused with
    [ErrCannotAuditDir]; the client and the directory lookup are the only
    calls made, no event iterator is built. *)
Theorem directory_refused (cmd : Audit.AuditCommand) (secretPath : gostring)
    (err : error) (client : Audit.Client) (log : list Audit.call) :
  Audit.ToRepoPath (Audit.path cmd) = inr err ->
  Audit.ToSecretPath (Audit.path cmd) = inl secretPath ->
  Audit.HasVersion (Audit.path cmd) = false ->
  Audit.newClient cmd = inl client ->
  Audit.Exists client secretPath = (true, None) ->
  Audit.iterAndAuditTable cmd log
    = (inr ErrCannotAuditDir, log ++ [Audit.NewClient; Audit.DirsExists secretPath])
  /\ (forall c, c ∈ (Audit.iterAndAuditTable cmd log).2 -> buildsIterator c = true ->
                c ∈ log).
Proof.
  intros Hrepo Hsecret Hversion Hclient Hexists.
  assert (Audit.iterAndAuditTable cmd log
          = (inr ErrCannotAuditDir, log ++ [Audit.NewClient; Audit.DirsExists secretPath]))
    as Hrun.
  { unfold Audit.iterAndAuditTable. rewrite Hrepo, Hsecret, Hversion.
    unfold mbind, Audit.calls_bind, Audit.made. rewrite Hclient, Hexists.
    cbn. by rewrite <- app_assoc. }
  split; [done|]. rewrite Hrun. cbn [snd]. intros c Hc Hit.
  apply elem_of_app in Hc as [Hc|Hc]; [done|].
  apply elem_of_cons in Hc as [->|Hc]; [done|].
  apply elem_of_cons in Hc as [->|Hc]; [done|].
  by apply elem_of_nil in Hc.
Qed.

Lemma directory_refused_witness :
  Audit.iterAndAuditTable
    {| Audit.path := {| Audit.ToRepoPath := inr (ErrExternal 1);
                        Audit.ToSecretPath := inl (str "ns/repo/dir");
                        Audit.HasVersion := false |};
       Audit.newClient := inl {| Audit.GetTree := fun _ => inr (ErrExternal 3);
                                 Audit.Exists := fun _ => (true, None) |};
       Audit.perPage := 20;
       Audit.json := false |} []
    = (inr ErrCannotAuditDir,
       [] ++ [Audit.NewClient; Audit.DirsExists (str "ns/repo/dir")])
  /\ (forall c,
        c ∈ (Audit.iterAndAuditTable
               {| Audit.path := {| Audit.ToRepoPath := inr (ErrExternal 1);
                                   Audit.ToSecretPath := inl (str "ns/repo/dir");
                                   Audit.HasVersion := false |};
                  Audit.newClient :=
                    inl {| Audit.GetTree := fun _ => inr (ErrExternal 3);
                           Audit.Exists := fun _ => (true, None) |};
                  Audit.perPage := 20;
                  Audit.json := false |} []).2 ->
        buildsIterator c = true -> c ∈ []).
Proof.
  apply (directory_refused _ (str "ns/repo/dir") (ErrExternal 1)
           {| Audit.GetTree := fun _ => inr (ErrExternal 3);
              Audit.Exists := fun _ => (true, None) |});
    reflexivity.
Defined.

(** ** The pager: the closed state *)

Section Latch.

Import Pager.

Lemma IsClosed_latched p : closed p = true -> IsClosed p = (true, p).
Proof. intros H. unfold IsClosed. by rewrite H. Qed.

Lemma pagerExits_closed p : closed (pagerExits p) = closed p.
Proof. unfold pagerExits. by destruct (exited p). Qed.

(** Once latched, the closed state stays and every check sees it. *)
Lemma steps_latched ss p :
  closed p = true ->
  Forall (fun b => b = true) (steps ss p).1 /\ closed (steps ss p).2 = true.
Proof.
  revert p. induction ss as [|[data answer| |] ss IH]; intros p Hp; cbn [steps].
  - by split.
  - by apply IH.
  - rewrite (IsClosed_latched p Hp). specialize (IH p Hp).
    destruct (steps ss p) as [bs p']. cbn [fst snd] in *.
    destruct IH as [IH1 IH2]. split; [by constructor|done].
  - apply IH. by rewrite pagerExits_closed.
Qed.

Lemma IsClosed_fired p :
  (0 < done p)%nat \/ closed p = true ->
  (IsClosed p).1 = true /\ closed (IsClosed p).2 = true.
Proof.
  intros [Hd|Hc]; unfold IsClosed.
  - destruct (closed p) eqn:E; [done|]. destruct (done p); [lia|done].
  - by rewrite Hc.
Qed.

Lemma Close_latched writerClose p :
  closed p = true -> exists e, Close writerClose p = Returns e p.
Proof.
  intros Hp. unfold Close. destruct writerClose as [err|]; [by eexists|].
  rewrite Hp. by eexists.
Qed.

End Latch.

(** C7.  Once the pager has exited and its notification waits in the [done]
    channel (or has been seen already), the next [IsClosed] returns true;
    so does every later [IsClosed], whatever is written in between; and a
    [Close] after that returns without waiting on the channel. *)
Theorem closed_state_latches (p : Pager.paginatedWriter) :
  (0 < Pager.done p)%nat \/ Pager.closed p = true ->
  (Pager.IsClosed p).1 = true
  /\ forall (ss : list Pager.step) (writerClose : option error),
       Forall (fun b => b = true) (Pager.steps ss (Pager.IsClosed p).2).1
       /\ Pager.closed (Pager.steps ss (Pager.IsClosed p).2).2 = true
       /\ exists e,
            Pager.Close writerClose (Pager.steps ss (Pager.IsClosed p).2).2
            = Pager.Returns e (Pager.steps ss (Pager.IsClosed p).2).2.
Proof.
  intros Hfired. destruct (IsClosed_fired p Hfired) as [Hb Hp]. split; [done|].
  intros ss writerClose.
  destruct (steps_latched ss _ Hp) as [Hall Hclosed].
  split; [done|]. split; [done|]. by apply Close_latched.
Qed.

Lemma closed_state_latches_witness :
  (Pager.IsClosed (Pager.pagerExits Pager.started)).1 = true
  /\ forall (ss : list Pager.step) (writerClose : option error),
       Forall (fun b => b = true)
              (Pager.steps ss (Pager.IsClosed (Pager.pagerExits Pager.started)).2).1
       /\ Pager.closed
            (Pager.steps ss (Pager.IsClosed (Pager.pagerExits Pager.started)).2).2 = true
       /\ exists e,
            Pager.Close writerClose
              (Pager.steps ss (Pager.IsClosed (Pager.pagerExits Pager.started)).2).2
            = Pager.Returns e
                (Pager.steps ss (Pager.IsClosed (Pager.pagerExits Pager.started)).2).2.
Proof.
  apply (closed_state_latches (Pager.pagerExits Pager.started)).
  left. simpl. lia.
Defined.

(** * More of the command *)

(** ** The allocator: caps and shares *)

Section Caps.

Import Widths.

Lemma pin_idle_cap w cols res i col :
  (pin w cols res).2 = false ->
  cols !! i = Some col -> res !! i = Some 0 -> maxWidth col <> 0 ->
  w <= maxWidth col.
Proof.
  revert res i. induction cols as [|c cols IH]; intros [|r res] i; try done.
  rewrite pin_cons. destruct (pins w c r) eqn:E; cbn [snd]; [done|].
  intros Hidle. destruct i as [|i]; simpl.
  - intros [= ->] [= ->] Hm. destruct (Z.le_gt_cases w (maxWidth col)); [done|].
    assert (pins w col 0 = true) as E' by (apply pins_spec; lia). congruence.
  - intros Hc Hr Hm. by apply (IH res i).
Qed.

(** A loop left with a column still to fill leaves every capped column at
    its cap, or at zero with the last share no larger than the cap. *)
Lemma balance_caps fuel T cols res w b :
  Forall2 capOrZero cols res ->
  balance fuel T cols res w = Ret b -> allPinned b = false ->
  forall i col r, cols !! i = Some col -> pinned b !! i = Some r ->
    maxWidth col <> 0 ->
    r = maxWidth col \/ (r = 0 /\ share b <= maxWidth col).
Proof.
  revert res w. induction fuel as [|fuel IH]; intros res w HR; [done|].
  simpl. pose proof (pin_capOrZero w cols res HR) as HR1.
  pose proof (pin_idle w cols res) as Hidle.
  pose proof (fun i col => pin_idle_cap w cols res i col) as Hcap.
  destruct (pin w cols res) as [res1 adjusted]; cbn [fst snd] in *.
  destruct adjusted; cbn [negb].
  - destruct (tally res1 _ _) as [count widthLeft].
    destruct (count =? 0).
    + intros (res' & _ & [= <-])%bind_inv. done.
    + intros (w' & _ & Hb)%bind_inv. by apply (IH res1 w').
  - intros [= <-] _ i col r Hi Hr Hm. cbn [pinned share] in *.
    rewrite Hidle in * by done.
    destruct (Forall2_lookup_lr _ _ _ _ _ _ HR Hi Hr) as [->| ->]; [|by left].
    right. split; [done|]. by apply (Hcap i col).
Qed.

End Caps.

(** X1.  [columnWidths] returns exactly on a non-empty column list, and then
    one width per column; with no column it panics on the division by the
    column count. *)
Theorem column_widths_per_column (T : Z) (cols : list auditTableColumn) :
  match cols with
  | [] => columnWidths (newColumnFormatter T cols) = Panic DivideByZero
  | _ => exists ws f', columnWidths (newColumnFormatter T cols) = Ret (ws, f')
           /\ length ws = length cols
  end.
Proof.
  destruct cols as [|col cols]; [reflexivity|].
  destruct (allocate_returns T (col :: cols)) as [ws Hws]; [done|].
  exists ws, {| tableWidth := T; computedColumnWidths := Some ws;
                columns := col :: cols |}.
  split; [by apply columnWidths_new|]. by apply allocate_length in Hws.
Qed.

(** X2.  Unless every column ends up pinned, no capped column is wider than
    its cap: it has its cap, or the final share, which is then no larger. *)
Theorem caps_are_respected (T : Z) (cols : list auditTableColumn)
    (ws : list Z) (f' : columnFormatter) (b : Widths.balanced) :
  columnWidths (newColumnFormatter T cols) = Ret (ws, f') ->
  Widths.run T cols = Ret b -> Widths.allPinned b = false ->
  forall i col w, cols !! i = Some col -> ws !! i = Some w ->
    maxWidth col <> 0 -> w <= maxWidth col.
Proof.
  intros [Hws _]%columnWidths_new Hrun Hall i col w Hi Hw Hm.
  apply allocate_inv in Hws as (b' & w0 & Hrun' & _ & -> & Hb).
  rewrite Hrun in Hrun'. injection Hrun' as <-.
  unfold Widths.fill in Hw. rewrite list_lookup_fmap in Hw.
  destruct (Widths.pinned b !! i) as [r|] eqn:Hr; [|done]. injection Hw as <-.
  destruct (balance_caps _ _ _ _ _ _ (capOrZero_start cols) Hb Hall i col r Hi Hr Hm)
    as [->|[-> Hle]].
  - destruct (Z.eqb_spec (maxWidth col) 0); [done|lia].
  - done.
Qed.

Lemma caps_are_respected_witness :
  45 <= maxWidth {| name := str "IP ADDRESS"; maxWidth := 45 |}.
Proof.
  apply (caps_are_respected 200 repoColumns [32; 22; 71; 45; 22]
           {| tableWidth := 200; computedColumnWidths := Some [32; 22; 71; 45; 22];
              columns := repoColumns |}
           {| Widths.pinned := [32; 22; 0; 45; 22]; Widths.share := 71;
              Widths.allPinned := false |} eq_refl eq_refl eq_refl 3%nat);
    [reflexivity|reflexivity|discriminate].
Defined.

Section Shares.

Import Widths.

Lemma fill_zeros w n : fill w (replicate n 0) = replicate n w.
Proof. unfold fill. induction n as [|n IH]; [done|]. simpl. by rewrite IH. Qed.

(** When the table is at least as wide as its gaps, the widths and the gaps
    together are no wider than the table. *)
Lemma balance_fits fuel T cols res w b :
  validInput T cols ->
  Forall2 capOrZero cols res ->
  (0 < zeros res)%nat ->
  0 <= T - 2 * (len cols - 1) - sumZ res ->
  w = (T - 2 * (len cols - 1) - sumZ res) `quot` Z.of_nat (zeros res) ->
  balance fuel T cols res w = Ret b ->
  sumZ (fill (share b) (pinned b)) <= T - 2 * (len cols - 1)
  /\ w <= share b
  /\ Forall (fun x => 0 <= x) (fill (share b) (pinned b)).
Proof.
  intros [Hn HT Hcaps]. set (W := T - 2 * (len cols - 1)).
  revert res w. induction fuel as [|fuel IH]; intros res w HR Hz Hpos Hw; [done|].
  simpl.
  pose proof (pin_capOrZero w cols res HR) as HR1.
  pose proof (pin_idle w cols res) as Hidle.
  pose proof (pin_progress w cols res) as Hprog.
  pose proof (pin_sum w cols res Hcaps) as [Hsum Htwo].
  pose proof (zeros_le_length res) as Hzl.
  pose proof (Forall2_length _ _ _ HR) as Hlen.
  destruct (pin w cols res) as [res1 adjusted]; cbn [fst snd] in *.
  pose proof (Forall2_length _ _ _ HR1) as Hlen1.
  pose proof (capOrZero_range _ _ Hcaps HR1) as Hrange1.
  pose proof (sumZ_range _ Hrange1) as Hs1.
  assert (len res1 = len cols) as Hl1 by (unfold len; by rewrite Hlen1).
  assert (0 <= w /\ Z.of_nat (zeros res) * w <= W - sumZ res) as [Hw0 Hfloor].
  { pose proof (Z.mul_quot_le (W - sumZ res) (Z.of_nat (zeros res)) Hpos ltac:(lia)).
    rewrite <- Hw in H. nia. }
  destruct adjusted; cbn [negb].
  - specialize (Htwo eq_refl). specialize (Hprog eq_refl).
    pose proof (tally_count res1 (len cols) (available T (len cols))) as Hc.
    pose proof (tally_left res1 (len cols) (available T (len cols)) Hrange1) as Hl.
    rewrite available_exact in Hc, Hl |- * by done. fold W in Hc, Hl |- *.
    destruct (tally res1 _ _) as [count widthLeft]; cbn [fst snd] in Hc, Hl.
    unfold bound, Int.min_int, Int.max_int in *.
    rewrite Hc, Hl by lia. clear Hc Hl count widthLeft.
    assert (Z.of_nat (zeros res1) * w + 1 <= W - sumZ res1) as Hleft by nia.
    destruct (Z.eqb_spec (len cols - len res1 + Z.of_nat (zeros res1)) 0) as [Hz1|Hz1].
    + intros (res' & Hs & [= <-])%bind_inv. cbn [share pinned].
      apply spread_spec in Hs. rewrite Hl1 in Hs.
      assert (zeros res1 = 0%nat) as Hz0 by lia.
      pose proof (zeros_none_positive _ Hrange1 Hz0) as Hposr.
      set (d := (W - sumZ res1) `quot` len cols) in *.
      assert (0 <= d /\ len cols * d <= W - sumZ res1) as [Hd Hd'].
      { pose proof (Z.mul_quot_le (W - sumZ res1) (len cols) ltac:(lia) ltac:(lia)).
        fold d in H. nia. }
      rewrite wrap_in_range in Hs
        by (unfold Int.in_range, Int.min_int, Int.max_int; unfold W in *; nia).
      assert (res' = map (fun r => r + d) res1) as ->.
      { rewrite Hs. apply map_ext_Forall. eapply Forall_impl; [exact Hposr|].
        intros r Hr. cbn beta in *. unfold Int.add. apply wrap_in_range.
        unfold Int.in_range, Int.min_int, Int.max_int; unfold W, bound in *; nia. }
      assert (Forall (fun x => 1 <= x) (map (fun r => r + d) res1)) as Hpos'.
      { apply Forall_fmap. eapply Forall_impl; [exact Hposr|].
        intros r Hr. unfold compose. cbn beta in *. lia. }
      rewrite fill_none by done. split; [|split; [lia|]].
      * rewrite sumZ_map_add, Hl1. lia.
      * eapply Forall_impl; [exact Hpos'|]. intros x Hx. cbn beta in *. lia.
    + assert (w <= (W - sumZ res1) `quot` Z.of_nat (zeros res1)
              /\ (W - sumZ res1) `quot` Z.of_nat (zeros res1) <= W - sumZ res1)
        as [Hq1 Hq2].
      { split.
        - apply Z.quot_le_lower_bound; nia.
        - pose proof (Z.mul_quot_le (W - sumZ res1) (Z.of_nat (zeros res1))
                        ltac:(lia) ltac:(lia)). nia. }
      replace (len cols - len res1 + Z.of_nat (zeros res1))
        with (Z.of_nat (zeros res1)) in * by lia.
      rewrite div_ret
        by (try done; unfold Int.in_range, Int.min_int, Int.max_int;
            unfold W, bound in *; lia).
      rewrite bind_Ret. intros Hb.
      destruct (IH res1 _ HR1 ltac:(lia) ltac:(lia) eq_refl Hb) as (IH1 & IH2 & IH3).
      split; [done|]. split; [lia|done].
  - intros [= <-]. cbn [share pinned]. rewrite Hidle in * by done.
    split; [|split; [lia|]].
    + rewrite sumZ_fill. lia.
    + unfold fill. apply Forall_fmap. eapply Forall_impl; [exact Hrange1|].
      intros r Hr. unfold compose. cbn beta in *. destruct (Z.eqb_spec r 0); lia.
Qed.

(** Nothing is pinned when no cap is both set and below the naive share. *)
Lemma equal_shares T cols w0 :
  naiveShare T cols = Ret w0 ->
  Forall (fun col => maxWidth col = 0 \/ w0 <= maxWidth col) cols ->
  columnWidths (newColumnFormatter T cols)
  = Ret (replicate (length cols) w0,
         {| tableWidth := T; computedColumnWidths := Some (replicate (length cols) w0);
            columns := cols |}).
Proof.
  intros Hw0 Hcaps. apply columnWidths_new. split; [|done].
  unfold allocate, run. rewrite Hw0, bind_Ret.
  unfold rounds. cbn [balance].
  rewrite pin_nothing by done. cbn -[fill replicate]. by rewrite fill_zeros.
Qed.

End Shares.

(** X3.  When no cap is both set and below the naive equal share, every
    column gets the naive share. *)
Theorem uncapped_columns_share_equally (T : Z) (cols : list auditTableColumn) (w0 : Z) :
  Widths.naiveShare T cols = Ret w0 ->
  Forall (fun col => maxWidth col = 0 \/ w0 <= maxWidth col) cols ->
  columnWidths (newColumnFormatter T cols)
  = Ret (replicate (length cols) w0,
         {| tableWidth := T; computedColumnWidths := Some (replicate (length cols) w0);
            columns := cols |}).
Proof. apply equal_shares. Qed.

Lemma uncapped_columns_share_equally_witness :
  columnWidths (newColumnFormatter 80 secretColumns)
  = Ret (replicate (length secretColumns) 18,
         {| tableWidth := 80;
            computedColumnWidths := Some (replicate (length secretColumns) 18);
            columns := secretColumns |}).
Proof.
  apply (uncapped_columns_share_equally 80 secretColumns 18).
  - reflexivity.
  - unfold secretColumns, baseColumns. simpl.
    repeat (constructor; [right; vm_compute; discriminate|]). constructor.
Defined.

(** X4.  On a valid input with a table at least as wide as its gaps, no
    width is negative and the widths and the gaps together are no wider than
    the table. *)
Theorem widths_fit_table (T : Z) (cols : list auditTableColumn) :
  validInput T cols -> 2 * (len cols - 1) <= T ->
  exists ws f',
    columnWidths (newColumnFormatter T cols) = Ret (ws, f')
    /\ sumZ ws + 2 * (len cols - 1) <= T
    /\ Forall (fun w => 0 <= w) ws.
Proof.
  intros Hv Hwide. pose proof Hv as [Hn HT Hcaps].
  assert (cols <> []) as Hne by (intros ->; unfold len in Hn; simpl in Hn; lia).
  destruct (allocate_returns T cols Hne) as [ws Hws].
  exists ws, {| tableWidth := T; computedColumnWidths := Some ws; columns := cols |}.
  split; [by apply columnWidths_new|].
  apply allocate_inv in Hws as (b & w0 & _ & Hw0 & -> & Hb).
  rewrite naiveShare_exact in Hw0 by done. injection Hw0 as <-.
  pose proof (fun Hz Hp Hw => balance_fits _ T cols _ _ b Hv (capOrZero_start cols)
                                Hz Hp Hw Hb) as Hfit.
  rewrite zeros_replicate, sumZ_zeros, Z.sub_0_r in Hfit.
  destruct (Hfit ltac:(unfold len in Hn; lia) ltac:(lia) eq_refl) as (H1 & _ & H3).
  split; [lia|done].
Qed.

Lemma widths_fit_table_witness :
  exists ws f',
    columnWidths (newColumnFormatter 200 repoColumns) = Ret (ws, f')
    /\ sumZ ws + 2 * (len repoColumns - 1) <= 200
    /\ Forall (fun w => 0 <= w) ws.
Proof.
  apply (widths_fit_table 200 repoColumns).
  - split.
    + vm_compute. split; [reflexivity|discriminate].
    + vm_compute. split; discriminate.
    + unfold repoColumns, baseColumns. simpl. repeat constructor; vm_compute; discriminate.
  - vm_compute. discriminate.
Defined.

(** ** The column formatter: the shape of the output and rows of the wrong length *)

Section Shape.

Import ColumnFormatter.




Lemma bind_ext {A B : Type} (m : outcome A) (k1 k2 : A -> outcome B) :
  (forall a, k1 a = k2 a) -> (m ≫= k1) = (m ≫= k2).
Proof. intros H. destruct m; [apply H|done|done]. Qed.

(** The first loop looks at no width beyond the row. *)
Lemma maxLines_ext ws1 ws2 row i acc :
  (forall k, (k < length row)%nat -> ws1 !! (i + k)%nat = ws2 !! (i + k)%nat) ->
  maxLines ws1 i row acc = maxLines ws2 i row acc.
Proof.
  revert i acc. induction row as [|cell row IH]; intros i acc Hext; [done|].
  cbn [maxLines]. unfold index.
  pose proof (Hext 0%nat ltac:(simpl; lia)) as H0. rewrite Nat.add_0_r in H0.
  rewrite <- H0.
  apply bind_ext. intros w. apply bind_ext. intros lines.
  apply IH. intros k Hk. replace (S i + k)%nat with (i + S k)%nat by lia.
  apply Hext. simpl. lia.
Qed.

Lemma splitRow_ext ws1 ws2 row i lines (g : grid) :
  (forall k, (k < length row)%nat -> ws1 !! (i + k)%nat = ws2 !! (i + k)%nat) ->
  splitRow ws1 i row lines g = splitRow ws2 i row lines g.
Proof.
  revert i g. induction row as [|cell row IH]; intros i g Hext; [done|].
  cbn [splitRow]. unfold index.
  pose proof (Hext 0%nat ltac:(simpl; lia)) as H0. rewrite Nat.add_0_r in H0.
  rewrite <- H0.
  apply bind_ext. intros w. apply bind_ext. intros g'.
  apply IH. intros k Hk. replace (S i + k)%nat with (i + S k)%nat by lia.
  apply Hext. simpl. lia.
Qed.

Lemma format_ext ws1 ws2 row :
  (forall k, (k < length row)%nat -> ws1 !! k = ws2 !! k) ->
  format ws1 row = format ws2 row.
Proof.
  intros Hext. unfold format, split.
  rewrite (maxLines_ext ws1 ws2) by done.
  f_equal. apply bind_ext. intros lines.
  by rewrite (splitRow_ext ws1 ws2).
Qed.

Lemma maxLines_returns_nonzero ws row i acc :
  Forall (fun w => w <> 0) ws -> (i + length row <= length ws)%nat ->
  returns (maxLines ws i row acc).
Proof.
  intros Hws. revert i acc. induction row as [|cell row IH]; intros i acc Hlen.
  - by eexists.
  - cbn [maxLines]. simpl in Hlen.
    destruct (lookup_lt_is_Some_2 ws i ltac:(lia)) as [w Hw].
    rewrite (index_lookup _ _ _ Hw), bind_Ret.
    pose proof (proj1 (Forall_lookup _ _) Hws i w Hw) as Hnz.
    destruct (cellLines_cases w cell) as [[? _]|[_ [lines ->]]]; [done|].
    rewrite bind_Ret. apply IH. lia.
Qed.

(** A row longer than the table runs out of widths in the first loop. *)
Lemma maxLines_long ws row i acc :
  Forall (fun w => w <> 0) ws -> (i <= length ws < i + length row)%nat ->
  maxLines ws i row acc = Panic IndexOutOfRange.
Proof.
  intros Hws. revert i acc. induction row as [|cell row IH]; intros i acc Hlen;
    [simpl in Hlen; lia|].
  cbn [maxLines]. simpl in Hlen.
  destruct (decide (i < length ws)%nat) as [Hi|Hi].
  - destruct (lookup_lt_is_Some_2 ws i Hi) as [w Hw].
    rewrite (index_lookup _ _ _ Hw), bind_Ret.
    pose proof (proj1 (Forall_lookup _ _) Hws i w Hw) as Hnz.
    destruct (cellLines_cases w cell) as [[? _]|[_ [lines ->]]]; [done|].
    rewrite bind_Ret. apply IH. lia.
  - unfold index. by rewrite (proj2 (lookup_ge_None ws i)) by lia.
Qed.

End Shape.



(** X6.  [formatRow] looks only at the widths of the columns the row has: a
    row shorter than the table is formatted as for the table cut down to the
    row's columns, the others left out without an error. *)
Theorem short_row_drops_columns (T : Z) (cols : list auditTableColumn)
    (ws : list Z) (f' : columnFormatter) (row : list gostring) :
  columnWidths (newColumnFormatter T cols) = Ret (ws, f') ->
  (length row <= length cols)%nat ->
  ColumnFormatter.formatRow (newColumnFormatter T cols) row
  = out ← ColumnFormatter.format (take (length row) ws) row; Ret (out, None, f').
Proof.
  intros Hws Hlen. rewrite (formatRow_new _ _ _ _ _ Hws).
  rewrite (format_ext ws (take (length row) ws)); [done|].
  intros k Hk. by rewrite lookup_take_lt.
Qed.

Lemma short_row_drops_columns_witness :
  ColumnFormatter.formatRow (newColumnFormatter 80 secretColumns) [str "alice"]
  = out ← ColumnFormatter.format (take (length [str "alice"]) [18; 18; 18; 18])
                                 [str "alice"];
    Ret (out, None,
         {| tableWidth := 80; computedColumnWidths := Some [18; 18; 18; 18];
            columns := secretColumns |}).
Proof.
  apply (short_row_drops_columns 80 secretColumns).
  - reflexivity.
  - simpl. lia.
Defined.

(** X7.  A row with more cells than the table has columns makes [formatRow]
    panic with an index out of range (no width being zero, which would
    panic first). *)
Theorem long_row_panics (T : Z) (cols : list auditTableColumn)
    (ws : list Z) (f' : columnFormatter) (row : list gostring) :
  columnWidths (newColumnFormatter T cols) = Ret (ws, f') ->
  Forall (fun w => w <> 0) ws -> (length cols < length row)%nat ->
  ColumnFormatter.formatRow (newColumnFormatter T cols) row = Panic IndexOutOfRange.
Proof.
  intros Hws Hnz Hlen.
  pose proof (proj1 (columnWidths_new _ _ _ _) Hws) as [Hlenws%allocate_length _].
  rewrite (formatRow_new _ _ _ _ _ Hws).
  unfold ColumnFormatter.format, ColumnFormatter.split.
  by rewrite maxLines_long by (try done; lia).
Qed.

Lemma long_row_panics_witness :
  ColumnFormatter.formatRow (newColumnFormatter 80 secretColumns)
    [str "a"; str "b"; str "c"; str "d"; str "e"] = Panic IndexOutOfRange.
Proof.
  apply (long_row_panics 80 secretColumns [18; 18; 18; 18]
           {| tableWidth := 80; computedColumnWidths := Some [18; 18; 18; 18];
              columns := secretColumns |}).
  - reflexivity.
  - repeat constructor; discriminate.
  - simpl. lia.
Defined.

(** X8.  On a table narrower than its gaps by the column count or more,
    every width is the same negative number, and [formatRow] panics on the
    first cell of any row of the table, slicing the cell at a negative
    bound. *)
Theorem negative_width_panics (T : Z) (cols : list auditTableColumn)
    (cell : gostring) (row : list gostring) :
  validInput T cols -> T - 2 * (len cols - 1) <= - len cols ->
  (length (cell :: row) <= length cols)%nat ->
  exists w f',
    w < 0
    /\ columnWidths (newColumnFormatter T cols) = Ret (replicate (length cols) w, f')
    /\ ColumnFormatter.formatRow (newColumnFormatter T cols) (cell :: row)
       = Panic SliceBounds.
Proof.
  intros Hv Hnarrow Hlen. pose proof Hv as [Hn HT Hcaps].
  set (w := (T - 2 * (len cols - 1)) `quot` len cols).
  assert (w < 0) as Hw.
  { unfold w. pose proof (Z.quot_le_upper_bound (T - 2 * (len cols - 1)) (len cols) (-1)
                            ltac:(lia) ltac:(lia)). lia. }
  pose proof (equal_shares T cols w (naiveShare_exact T cols Hv)) as Hws.
  exists w, {| tableWidth := T; computedColumnWidths := Some (replicate (length cols) w);
               columns := cols |}.
  split; [done|].
  assert (Forall (fun col => maxWidth col = 0 \/ w <= maxWidth col) cols) as Hfree.
  { eapply Forall_impl; [exact Hcaps|]. intros col Hcol. cbn beta in *. lia. }
  specialize (Hws Hfree). split; [done|].
  rewrite (formatRow_new _ _ _ _ _ Hws).
  unfold ColumnFormatter.format, ColumnFormatter.split.
  destruct (maxLines_returns_nonzero (replicate (length cols) w) (cell :: row) 0 1)
    as [lines ->].
  { apply Forall_replicate. lia. }
  { rewrite length_replicate. lia. }
  rewrite bind_Ret. cbn [ColumnFormatter.splitRow].
  rewrite (index_lookup _ _ w)
    by (apply lookup_replicate_2; simpl in Hlen; lia).
  rewrite bind_Ret. by rewrite splitCell_negative.
Qed.

Lemma negative_width_panics_witness :
  exists w f',
    w < 0
    /\ columnWidths (newColumnFormatter 1 secretColumns)
       = Ret (replicate (length secretColumns) w, f')
    /\ ColumnFormatter.formatRow (newColumnFormatter 1 secretColumns)
         (str "alice" :: [str "secret.read"])
       = Panic SliceBounds.
Proof.
  apply (negative_width_panics 1 secretColumns).
  - split.
    + vm_compute. split; [reflexivity|discriminate].
    + vm_compute. split; discriminate.
    + unfold secretColumns, baseColumns. simpl.
      repeat constructor; vm_compute; discriminate.
  - vm_compute. discriminate.
  - simpl. lia.
Defined.

(** ** The audit tables: rows and columns *)


(** X9.  A row of an audit table has one cell per column of the table, and
    so has the header. *)
Theorem table_row_has_a_cell_per_column (timeFormatter : Table.TimeFormatter)
    (t : Audit.auditTable) (event : Table.Event) (cells : list gostring) :
  Table.row (Table.ofAudit timeFormatter t) event = inl cells ->
  length cells = length (Table.columns (Table.ofAudit timeFormatter t))
  /\ length (Table.header (Table.ofAudit timeFormatter t))
     = length (Table.columns (Table.ofAudit timeFormatter t)).
Proof.
  destruct t as [tree|]; cbn; unfold Table.baseRow.
  - destruct (Table.subject event tree) as [subject|err]; [|done].
    destruct (Table.actor event) as [actor|err]; [|done].
    by intros [= <-].
  - destruct (Table.actor event) as [actor|err]; [|done].
    by intros [= <-].
Qed.

Lemma table_row_has_a_cell_per_column_witness :
  length [str "alice"; str "read"; str "10.0.0.1"; str "now"]
  = length (Table.columns (Table.ofAudit (fun _ => str "now") Audit.secretAuditTable))
  /\ length (Table.header (Table.ofAudit (fun _ => str "now") Audit.secretAuditTable))
     = length (Table.columns (Table.ofAudit (fun _ => str "now") Audit.secretAuditTable)).
Proof.
  apply (table_row_has_a_cell_per_column (fun _ => str "now") Audit.secretAuditTable
           {| Table.actor := inl (str "alice"); Table.action := str "read";
              Table.subject := fun _ => inr (ErrExternal 0);
              Table.IPAddress := str "10.0.0.1"; Table.LoggedAt := 0 |}).
  reflexivity.
Defined.

(** X10.  The cells of a row stand under their columns: author, event, in
    the repository table the subject of the event, IP address, date.  The
    row of the repository table fails when the subject is not found, before
    the actor is looked at; any row fails when the actor cannot be told. *)
Theorem table_row_cells (timeFormatter : Table.TimeFormatter)
    (t : Audit.auditTable) (event : Table.Event) :
  match t with
  | Audit.secretAuditTable =>
      match Table.actor event with
      | inl actor =>
          labelled (Table.ofAudit timeFormatter t) event
          = inl [(str "AUTHOR", actor); (str "EVENT", Table.action event);
                 (str "IP ADDRESS", Table.IPAddress event);
                 (str "DATE", timeFormatter (Table.LoggedAt event))]
      | inr err => labelled (Table.ofAudit timeFormatter t) event = inr err
      end
  | Audit.repoAuditTable tree =>
      match Table.subject event tree with
      | inr err => labelled (Table.ofAudit timeFormatter t) event = inr err
      | inl subject =>
          match Table.actor event with
          | inl actor =>
              labelled (Table.ofAudit timeFormatter t) event
              = inl [(str "AUTHOR", actor); (str "EVENT", Table.action event);
                     (str "EVENT SUBJECT", subject);
                     (str "IP ADDRESS", Table.IPAddress event);
                     (str "DATE", timeFormatter (Table.LoggedAt event))]
          | inr err => labelled (Table.ofAudit timeFormatter t) event = inr err
          end
      end
  end.
Proof.
  unfold labelled. destruct t as [tree|]; cbn; unfold Table.baseRow.
  - destruct (Table.subject event tree) as [subject|err]; [|done].
    by destruct (Table.actor event) as [actor|err].
  - by destruct (Table.actor event) as [actor|err].
Qed.

Section TableJSON.

Import JSONFormatter.

Lemma formatRow_matching Marshal names row :
  length names = length row ->
  formatRow Marshal (newJSONFormatter names) row
  = Ret (match Marshal (record names row) with
         | (_, Some err) => ([], Some err)
         | (jsonData, None) => (jsonData ++ [newline], None)
         end).
Proof.
  intros Heq. unfold formatRow, newJSONFormatter. cbn [fields]. unfold len.
  destruct (Z.eqb_spec (Z.of_nat (length names)) (Z.of_nat (length row))); [|lia].
  cbn [negb]. rewrite fillMap_record by done. rewrite bind_Ret.
  by destruct (Marshal (record names row)) as [jsonData [err|]].
Qed.

Lemma header_distinct timeFormatter t :
  NoDup (Table.header (Table.ofAudit timeFormatter t)).
Proof. destruct t; apply (bool_decide_unpack _); vm_compute; exact I. Qed.

Lemma header_names timeFormatter t :
  Table.header (Table.ofAudit timeFormatter t)
  = name <$> Table.columns (Table.ofAudit timeFormatter t).
Proof. by destruct t. Qed.

End TableJSON.

(** X11.  The JSON formatter never refuses a row of the table whose header
    gave it its field names: it hands the encoder a record with one field per
    column, each column name paired with the cell of that column. *)
Theorem table_row_as_json (Marshal : gmap gostring gostring -> gostring * option error)
    (timeFormatter : Table.TimeFormatter) (t : Audit.auditTable)
    (event : Table.Event) (cells : list gostring) :
  Table.row (Table.ofAudit timeFormatter t) event = inl cells ->
  JSONFormatter.formatRow Marshal
    (JSONFormatter.newJSONFormatter (Table.header (Table.ofAudit timeFormatter t))) cells
  = Ret (match Marshal (record (Table.header (Table.ofAudit timeFormatter t)) cells) with
         | (_, Some err) => ([], Some err)
         | (jsonData, None) => (jsonData ++ [newline], None)
         end)
  /\ size (record (Table.header (Table.ofAudit timeFormatter t)) cells)
     = length (Table.columns (Table.ofAudit timeFormatter t))
  /\ forall i col cell,
       Table.columns (Table.ofAudit timeFormatter t) !! i = Some col ->
       cells !! i = Some cell ->
       record (Table.header (Table.ofAudit timeFormatter t)) cells !! name col
       = Some cell.
Proof.
  intros Hrow.
  assert (length cells = length (Table.columns (Table.ofAudit timeFormatter t))
          /\ length (Table.header (Table.ofAudit timeFormatter t))
             = length (Table.columns (Table.ofAudit timeFormatter t))) as [Hc Hh].
  { destruct t as [tree|]; cbn in *; unfold Table.baseRow in Hrow.
    - destruct (Table.subject event tree) as [subject|err]; [|done].
      destruct (Table.actor event) as [actor|err]; [|done].
      by injection Hrow as <-.
    - destruct (Table.actor event) as [actor|err]; [|done].
      by injection Hrow as <-. }
  pose proof (header_distinct timeFormatter t) as Hnd.
  split; [apply formatRow_matching; lia|]. split.
  - rewrite record_size by (try done; lia). done.
  - intros i col cell Hi Hcell. apply (record_lookup _ _ i); [done|lia| |done].
    by rewrite header_names, list_lookup_fmap, Hi.
Qed.

Lemma table_row_as_json_witness :
  JSONFormatter.formatRow plainMarshal
    (JSONFormatter.newJSONFormatter
       (Table.header (Table.ofAudit (fun _ => str "now") Audit.secretAuditTable)))
    [str "alice"; str "read"; str "10.0.0.1"; str "now"]
  = Ret (match plainMarshal
                 (record (Table.header
                            (Table.ofAudit (fun _ => str "now") Audit.secretAuditTable))
                         [str "alice"; str "read"; str "10.0.0.1"; str "now"]) with
         | (_, Some err) => ([], Some err)
         | (jsonData, None) => (jsonData ++ [newline], None)
         end)
  /\ size (record (Table.header
                     (Table.ofAudit (fun _ => str "now") Audit.secretAuditTable))
                  [str "alice"; str "read"; str "10.0.0.1"; str "now"])
     = length (Table.columns (Table.ofAudit (fun _ => str "now") Audit.secretAuditTable))
  /\ forall i col cell,
       Table.columns (Table.ofAudit (fun _ => str "now") Audit.secretAuditTable) !! i
         = Some col ->
       [str "alice"; str "read"; str "10.0.0.1"; str "now"] !! i = Some cell ->
       record (Table.header
                 (Table.ofAudit (fun _ => str "now") Audit.secretAuditTable))
              [str "alice"; str "read"; str "10.0.0.1"; str "now"] !! name col
       = Some cell.
Proof.
  apply (table_row_as_json plainMarshal (fun _ => str "now") Audit.secretAuditTable
           {| Table.actor := inl (str "alice"); Table.action := str "read";
              Table.subject := fun _ => inr (ErrExternal 0);
              Table.IPAddress := str "10.0.0.1"; Table.LoggedAt := 0 |}).
  reflexivity.
Defined.

(** ** The calls of [iterAndAuditTable] *)

Section Calls.

Import Audit.

Lemma iterAndAuditTable_log cmd log :
  iterAndAuditTable cmd log
  = ((iterAndAuditTable cmd []).1, log ++ (iterAndAuditTable cmd []).2).
Proof.
  unfold iterAndAuditTable, made, mbind, calls_bind, mret, calls_ret.
  destruct (ToRepoPath (path cmd)) as [repoPath|_].
  - destruct (newClient cmd) as [client|err]; [|done].
    destruct (GetTree client (repoDirValue repoPath)) as [tree|err]; cbn;
      by rewrite <- ?(assoc_L (++)).
  - destruct (ToSecretPath (path cmd)) as [secretPath|_];
      [|cbn; by rewrite (right_id_L [] (++))].
    destruct (HasVersion (path cmd)); [cbn; by rewrite (right_id_L [] (++))|].
    destruct (newClient cmd) as [client|err]; [|done].
    destruct (Exists client secretPath) as [isDir err].
    destruct (bool_decide (err = None) && isDir); cbn;
      by rewrite <- ?(assoc_L (++)).
Qed.

End Calls.

(** X12.  Whatever the path and the answers of the client: the command makes
    at most three calls, the first of them creates the client, and a call
    that builds an event iterator is the last one.  It succeeds exactly when
    it has built an iterator, and then the table is of the kind of the
    iterator: a repository table for a repository iterator, a secret table
    for a secret iterator. *)
Theorem audit_calls_shape (cmd : Audit.AuditCommand) (log : list Audit.call) :
  exists calls,
    (Audit.iterAndAuditTable cmd log).2 = log ++ calls
    /\ (length calls <= 3)%nat
    /\ (calls = [] \/ head calls = Some Audit.NewClient)
    /\ Forall (fun c => buildsIterator c = false) (removelast calls)
    /\ match (Audit.iterAndAuditTable cmd log).1 with
       | inl r => is_Some (builtBy r) /\ last calls = builtBy r
       | inr _ => Forall (fun c => buildsIterator c = false) calls
       end.
Proof.
  exists (Audit.iterAndAuditTable cmd []).2.
  rewrite (iterAndAuditTable_log cmd log). split; [done|]. cbn [fst snd].
  unfold Audit.iterAndAuditTable, Audit.made, mbind, Audit.calls_bind, mret,
    Audit.calls_ret.
  destruct (Audit.ToRepoPath (Audit.path cmd)) as [repoPath|_].
  - destruct (Audit.newClient cmd) as [client|err];
      [|cbn; repeat constructor; lia].
    destruct (Audit.GetTree client (Audit.repoDirValue repoPath)) as [tree|err];
      cbn; repeat constructor; eauto; lia.
  - destruct (Audit.ToSecretPath (Audit.path cmd)) as [secretPath|_];
      [|cbn; repeat constructor; lia].
    destruct (Audit.HasVersion (Audit.path cmd)); [cbn; repeat constructor; lia|].
    destruct (Audit.newClient cmd) as [client|err];
      [|cbn; repeat constructor; lia].
    destruct (Audit.Exists client secretPath) as [isDir err].
    destruct (bool_decide (err = None) && isDir);
      cbn; repeat constructor; eauto; lia.
Qed.

(** X13.  A path that reads as a repository path is audited as a repository,
    whatever it says about secrets and versions: no call of the audit of a
    secret is made, the command succeeds exactly when the client is created
    and the tree of the repository's directory is found, and then it returns
    the iterator of the repository and a table with that tree. *)
Theorem repo_path_audited_as_repo (cmd : Audit.AuditCommand) (repoPath : Audit.RepoPath) :
  Audit.ToRepoPath (Audit.path cmd) = inl repoPath ->
  Forall (fun c => secretCall c = false) (Audit.iterAndAuditTable cmd []).2
  /\ match Audit.newClient cmd with
     | inr err => (Audit.iterAndAuditTable cmd []).1 = inr err
     | inl client =>
         match Audit.GetTree client (Audit.repoDirValue repoPath) with
         | inr err => (Audit.iterAndAuditTable cmd []).1 = inr err
         | inl tree =>
             (Audit.iterAndAuditTable cmd []).1
             = inl (Audit.RepoEventIterator (Audit.repoValue repoPath),
                    Audit.repoAuditTable tree)
         end
     end.
Proof.
  intros Hrepo.
  unfold Audit.iterAndAuditTable, Audit.made, mbind, Audit.calls_bind, mret,
    Audit.calls_ret.
  rewrite Hrepo.
  destruct (Audit.newClient cmd) as [client|err]; [|by repeat constructor].
  destruct (Audit.GetTree client (Audit.repoDirValue repoPath)) as [tree|err];
    by repeat constructor.
Qed.

Lemma repo_path_audited_as_repo_witness :
  Forall (fun c => secretCall c = false)
    (Audit.iterAndAuditTable
       {| Audit.path := {| Audit.ToRepoPath :=
                             inl {| Audit.repoValue := str "ns/repo";
                                    Audit.repoDirValue := str "ns/repo" |};
                           Audit.ToSecretPath := inl (str "ns/repo");
                           Audit.HasVersion := true |};
          Audit.newClient := inr (ErrExternal 0);
          Audit.perPage := 20; Audit.json := false |} []).2
  /\ (Audit.iterAndAuditTable
        {| Audit.path := {| Audit.ToRepoPath :=
                              inl {| Audit.repoValue := str "ns/repo";
                                     Audit.repoDirValue := str "ns/repo" |};
                            Audit.ToSecretPath := inl (str "ns/repo");
                            Audit.HasVersion := true |};
           Audit.newClient := inr (ErrExternal 0);
           Audit.perPage := 20; Audit.json := false |} []).1
     = inr (ErrExternal 0).
Proof.
  apply (repo_path_audited_as_repo
           {| Audit.path := {| Audit.ToRepoPath :=
                                 inl {| Audit.repoValue := str "ns/repo";
                                        Audit.repoDirValue := str "ns/repo" |};
                               Audit.ToSecretPath := inl (str "ns/repo");
                               Audit.HasVersion := true |};
              Audit.newClient := inr (ErrExternal 0);
              Audit.perPage := 20; Audit.json := false |}
           {| Audit.repoValue := str "ns/repo"; Audit.repoDirValue := str "ns/repo" |}).
  reflexivity.
Defined.

(** X14.  An error of [Exists] does not stop the audit of a secret: the
    answer is dropped and the iterator of the secret is built as if the path
    were no directory. *)
Theorem exists_error_is_dropped (cmd : Audit.AuditCommand) (secretPath : gostring)
    (client : Audit.Client) (discarded : error) (isDir : bool) (err : error) :
  Audit.ToRepoPath (Audit.path cmd) = inr discarded ->
  Audit.ToSecretPath (Audit.path cmd) = inl secretPath ->
  Audit.HasVersion (Audit.path cmd) = false ->
  Audit.newClient cmd = inl client ->
  Audit.Exists client secretPath = (isDir, Some err) ->
  Audit.iterAndAuditTable cmd []
  = (inl (Audit.SecretEventIterator secretPath, Audit.secretAuditTable),
     [Audit.NewClient; Audit.DirsExists secretPath;
      Audit.SecretsEventIterator secretPath]).
Proof.
  intros Hrepo Hsecret Hversion Hclient Hexists.
  unfold Audit.iterAndAuditTable, Audit.made, mbind, Audit.calls_bind, mret,
    Audit.calls_ret.
  by rewrite Hrepo, Hsecret, Hversion, Hclient, Hexists.
Qed.

Lemma exists_error_is_dropped_witness :
  Audit.iterAndAuditTable
    {| Audit.path := {| Audit.ToRepoPath := inr (ErrExternal 1);
                        Audit.ToSecretPath := inl (str "ns/repo/dir");
                        Audit.HasVersion := false |};
       Audit.newClient :=
         inl {| Audit.GetTree := fun _ => inr (ErrExternal 2);
                Audit.Exists := fun _ => (true, Some (ErrExternal 3)) |};
       Audit.perPage := 20; Audit.json := false |} []
  = (inl (Audit.SecretEventIterator (str "ns/repo/dir"), Audit.secretAuditTable),
     [Audit.NewClient; Audit.DirsExists (str "ns/repo/dir");
      Audit.SecretsEventIterator (str "ns/repo/dir")]).
Proof.
  apply (exists_error_is_dropped
           {| Audit.path := {| Audit.ToRepoPath := inr (ErrExternal 1);
                               Audit.ToSecretPath := inl (str "ns/repo/dir");
                               Audit.HasVersion := false |};
              Audit.newClient :=
                inl {| Audit.GetTree := fun _ => inr (ErrExternal 2);
                       Audit.Exists := fun _ => (true, Some (ErrExternal 3)) |};
              Audit.perPage := 20; Audit.json := false |}
           (str "ns/repo/dir")
           {| Audit.GetTree := fun _ => inr (ErrExternal 2);
              Audit.Exists := fun _ => (true, Some (ErrExternal 3)) |}
           (ErrExternal 1) true (ErrExternal 3)); reflexivity.
Defined.

(** ** The paginated writer and the exit of the pager *)

Section Exit.

Import Pager.

Lemma noticed_started : noticed started.
Proof. by split. Qed.

Lemma noticed_pagerExits p : noticed p -> noticed (pagerExits p).
Proof.
  unfold noticed, pagerExits. destruct p as [d [] c]; cbn; [done|].
  intros [-> ->]. by left.
Qed.

Lemma noticed_IsClosed p : noticed p -> noticed (IsClosed p).2.
Proof.
  unfold noticed, IsClosed. destruct p as [d [] c]; cbn.
  - intros [[-> ->]|[-> ->]]; cbn; by right.
  - by intros [-> ->].
Qed.

Lemma exited_IsClosed p : exited (IsClosed p).2 = exited p.
Proof. unfold IsClosed. by destruct p as [[|d] e []]. Qed.

Lemma exited_pagerExits p : exited (pagerExits p) = true.
Proof. unfold pagerExits. by destruct p as [d [] c]. Qed.

Lemma steps_noticed ss p : noticed p -> noticed (steps ss p).2.
Proof.
  revert p. induction ss as [|[data answer| |] ss IH]; intros p Hp; cbn [steps].
  - done.
  - by apply IH.
  - pose proof (noticed_IsClosed p Hp) as Hq.
    destruct (IsClosed p) as [b q]. specialize (IH q Hq).
    by destruct (steps ss q) as [bs r].
  - by apply IH, noticed_pagerExits.
Qed.

Lemma steps_exited ss p :
  exited (steps ss p).2 = true <-> exited p = true \/ PagerExits ∈ ss.
Proof.
  revert p. induction ss as [|[data answer| |] ss IH]; intros p; cbn [steps].
  - cbn. split; [by left|]. intros [|Hin]; [done|]. by apply elem_of_nil in Hin.
  - rewrite (IH (Write data answer p).2). cbn. rewrite elem_of_cons.
    intuition congruence.
  - pose proof (exited_IsClosed p) as He.
    destruct (IsClosed p) as [b q]. specialize (IH q).
    destruct (steps ss q) as [bs r]. cbn in *. rewrite IH, He, elem_of_cons.
    intuition congruence.
  - rewrite (IH (pagerExits p)), exited_pagerExits, elem_of_cons. tauto.
Qed.


End Exit.



(** X17.  [Close] does not mark the writer closed: after a [Close] that
    returned without error, [IsClosed] answers what the writer had recorded
    before, so it answers false when the loop had not seen the exit, though
    the pager is gone. *)
Theorem close_does_not_mark_closed (ss : list Pager.step) (p : Pager.paginatedWriter) :
  Pager.Close None (Pager.steps ss Pager.started).2 = Pager.Returns None p ->
  Pager.PagerExits ∈ ss
  /\ (Pager.IsClosed p).1 = Pager.closed (Pager.steps ss Pager.started).2.
Proof.
  pose proof (steps_noticed ss Pager.started noticed_started) as Hn.
  pose proof (steps_exited ss Pager.started) as He.
  destruct (Pager.steps ss Pager.started).2 as [d e c].
  unfold noticed in Hn. cbn in Hn, He. unfold Pager.Close. cbn.
  destruct e.
  - assert (Pager.PagerExits ∈ ss) as Hin.
    { by destruct (proj1 He eq_refl) as [?|?]. }
    destruct Hn as [[-> ->]|[-> ->]]; cbn; by intros [= <-].
  - by destruct Hn as [-> ->].
Qed.

Lemma close_does_not_mark_closed_witness :
  Pager.PagerExits ∈ [Pager.DoIsClosed; Pager.PagerExits]
  /\ (Pager.IsClosed {| Pager.done := 0; Pager.exited := true; Pager.closed := false |}).1
     = Pager.closed (Pager.steps [Pager.DoIsClosed; Pager.PagerExits] Pager.started).2.
Proof.
  apply (close_does_not_mark_closed [Pager.DoIsClosed; Pager.PagerExits]
           {| Pager.done := 0; Pager.exited := true; Pager.closed := false |}).
  reflexivity.
Defined.

(** ** [pagerCommand] *)

(** X18.  The pager is the first of [$PAGER], [less] and [more] that is found
    on the search path; when none is found the command fails, with its own
    error in place of the errors of the search. *)
Theorem pager_is_first_found (os : PagerCommand.OS) :
  match PagerCommand.pagerCommand os with
  | inl pager =>
      exists i program,
        candidates os !! i = Some program
        /\ PagerCommand.LookPath os program = inl pager
        /\ forall j other, (j < i)%nat -> candidates os !! j = Some other ->
             exists err, PagerCommand.LookPath os other = inr err
  | inr err =>
      err = PagerCommand.errPagerNotFound
      /\ Forall (fun program => exists err, PagerCommand.LookPath os program = inr err)
                (candidates os)
  end.
Proof.
  unfold PagerCommand.pagerCommand, candidates.
  destruct (PagerCommand.LookPath os (PagerCommand.ExpandEnv os PagerCommand.pagerEnvvar))
    as [pager|e0] eqn:H0.
  { exists 0%nat, (PagerCommand.ExpandEnv os PagerCommand.pagerEnvvar).
    repeat split; [done|]. intros j other Hj. lia. }
  destruct (PagerCommand.LookPath os (str "less")) as [pager|e1] eqn:H1.
  { exists 1%nat, (str "less"). repeat split; [done|].
    intros j other Hj Hother. destruct j as [|j]; [|lia].
    injection Hother as <-. eauto. }
  destruct (PagerCommand.LookPath os (str "more")) as [pager|e2] eqn:H2.
  { exists 2%nat, (str "more"). repeat split; [done|].
    intros j other Hj Hother. destruct j as [|[|j]]; [| |lia];
      injection Hother as <-; eauto. }
  split; [done|]. repeat constructor; eauto.
Qed.

(** ** [debugFlag] *)

Section Flag.

Import DebugFlag.

Variable ParseBool : gostring -> bool + error.

Lemma setAll_snoc values value f :
  setAll ParseBool (values ++ [value]) f
  = (Set_ ParseBool (setAll ParseBool values f) value).2.
Proof. unfold setAll. by rewrite foldl_app. Qed.

Lemma parsed_snoc values value :
  parsed ParseBool (values ++ [value])
  = parsed ParseBool values
    ++ match ParseBool value with inl b => [b] | inr _ => [] end.
Proof.
  unfold parsed. rewrite omap_app. cbn. by destruct (ParseBool value).
Qed.

Lemma setAll_history values f :
  debug (setAll ParseBool values f) = default (debug f) (last (parsed ParseBool values))
  /\ enableDebugCalls (setAll ParseBool values f)
     = (enableDebugCalls f + length (filter (fun b => b = true) (parsed ParseBool values)))%nat.
Proof.
  induction values as [|value values IH] using rev_ind.
  - cbn. split; [done|lia].
  - rewrite setAll_snoc, parsed_snoc. destruct IH as [IHd IHc].
    unfold Set_. destruct (ParseBool value) as [b|err]; cbn [snd].
    + rewrite last_snoc, filter_app, length_app. unfold init.
      cbn [debug enableDebugCalls default].
      destruct b; cbn [debug enableDebugCalls]; (split; [done|]); rewrite IHc.
      * change (filter (fun b : bool => b = true) [true]) with [true].
        cbn [length]. lia.
      * change (filter (fun b : bool => b = true) [false]) with (@nil bool).
        cbn [length]. lia.
    + by rewrite (right_id_L [] (++)).
Qed.

End Flag.

(** X19.  After the flag has been set any number of times it shows the last
    value that parsed (its first value when none did), and the logger has
    been switched to debug once for each value that parsed as true: a value
    that does not parse changes nothing, and no later value switches the
    logger back. *)
Theorem debug_flag_history (ParseBool : gostring -> bool + error)
    (FormatBool : bool -> gostring) (values : list gostring)
    (f : DebugFlag.debugFlag) :
  DebugFlag.String FormatBool (setAll ParseBool values f)
  = FormatBool (default (DebugFlag.debug f) (last (parsed ParseBool values)))
  /\ DebugFlag.enableDebugCalls (setAll ParseBool values f)
     = (DebugFlag.enableDebugCalls f
        + length (filter (fun b => b = true) (parsed ParseBool values)))%nat.
Proof.
  destruct (setAll_history ParseBool values f) as [Hd Hc].
  unfold DebugFlag.String. by rewrite Hd, Hc.
Qed.

(** ** [RepoInitCommand.Run] *)

(** X20.  The command first creates the client; it asks for the repository
    once at most, for the path of the command and after having announced it;
    and it reports the repository as ready exactly when it returns no
    error. *)
Theorem repo_init_reports_what_it_did (cmd : RepoInit.RepoInitCommand) :
  head (RepoInit.Run cmd).2 = Some RepoInit.NewClient
  /\ ((RepoInit.Run cmd).1 = None
      <-> RepoInit.Print (RepoInit.complete (RepoInit.String (RepoInit.path cmd)))
          ∈ (RepoInit.Run cmd).2)
  /\ ((RepoInit.Run cmd).1 = None
      <-> exists client,
            RepoInit.newClient cmd = inl client
            /\ RepoInit.Create client (RepoInit.Value (RepoInit.path cmd)) = None)
  /\ forall i path,
       (RepoInit.Run cmd).2 !! i = Some (RepoInit.ReposCreate path) ->
       path = RepoInit.Value (RepoInit.path cmd)
       /\ i = 2%nat
       /\ (RepoInit.Run cmd).2 !! 1%nat = Some (RepoInit.Print RepoInit.creating).
Proof.
  assert (forall s, RepoInit.Print (RepoInit.complete s)
                    <> RepoInit.Print RepoInit.creating) as Hne.
  { intros s H. discriminate H. }
  unfold RepoInit.Run.
  destruct (RepoInit.newClient cmd) as [client|err]; cbn [fst snd].
  - destruct (RepoInit.Create client (RepoInit.Value (RepoInit.path cmd)))
      as [err|] eqn:Hc; cbn [fst snd].
    + split; [done|]. split; [|split].
      * split; [done|]. intros Hin.
        repeat (apply elem_of_cons in Hin as [Hin|Hin];
                [first [discriminate Hin | by apply Hne in Hin]|]).
        by apply elem_of_nil in Hin.
      * split; [done|]. intros (client' & [= <-] & Hnone). congruence.
      * intros i path Hi.
        destruct i as [|[|[|i]]]; cbn in Hi; try discriminate Hi.
        by injection Hi as <-.
    + split; [done|]. split; [|split].
      * split; [|done]. intros _. set_solver.
      * split; [|done]. intros _. by exists client.
      * intros i path Hi.
        destruct i as [|[|[|[|i]]]]; cbn in Hi; try discriminate Hi.
        by injection Hi as <-.
  - split; [done|]. split; [|split].
    + split; [done|]. intros Hin.
      repeat (apply elem_of_cons in Hin as [Hin|Hin]; [discriminate Hin|]).
      by apply elem_of_nil in Hin.
    + split; [done|]. by intros (client & ? & _).
    + intros i path Hi. destruct i as [|i]; cbn in Hi; discriminate Hi.
Qed.

(** ** [run]: what reaches the pager *)

Section Loop.

Import Run.

Lemma written_app rows rows' : written (rows ++ rows') = written rows ++ written rows'.
Proof. unfold written. apply bind_app. Qed.

Lemma written_cons row rows :
  written (row :: rows) = Write row :: IsClosed false :: written rows.
Proof. done. Qed.

Lemma Close_not_written rows : Close ∉ written rows.
Proof.
  induction rows as [|row rows IH]; [apply not_elem_of_nil|].
  rewrite written_cons, !not_elem_of_cons. done.
Qed.

(** The loop writes row after row, a check after each; a check that finds
    the pager gone is the last thing it does. *)
Lemma loop_shape w table formatter next k :
  exists rows tail,
    (loop w table formatter next k).2 = written rows ++ tail
    /\ (tail = []
        \/ exists row, tail = [Write row; IsClosed true]
             /\ (loop w table formatter next k).1 = Ret None).
Proof.
  revert formatter k.
  induction next as [|[event|err] next IH]; intros formatter k; cbn [loop];
    try (exists [], []; split; [done|by left]).
  destruct (Table.row table event) as [row|err];
    [|exists [], []; split; [done|by left]].
  destruct (formatRow w formatter row) as [[[formattedRow [err|]] formatter']| |];
    try (exists [], []; split; [done|by left]).
  destruct (isClosed w k).
  - exists [], [Write formattedRow; IsClosed true]. split; [done|]. right. by eexists.
  - destruct (IH formatter' (S k)) as (rows & tail & Hops & Htail).
    destruct (loop w table formatter' next (S k)) as [res ops]. cbn [fst snd] in *.
    exists (formattedRow :: rows), tail. rewrite written_cons, Hops. done.
Qed.

Lemma body_shape w table formatter next :
  exists header rows tail,
    (body w table formatter next).2 = header ++ written rows ++ tail
    /\ (header = [] \/ printHeader formatter = true /\ exists h, header = [Write h])
    /\ (tail = []
        \/ exists row, tail = [Write row; IsClosed true]
             /\ (body w table formatter next).1 = Ret None).
Proof.
  unfold body. destruct (printHeader formatter) eqn:Hp.
  - destruct (formatRow w formatter (Table.header table))
      as [[[header [err|]] formatter']| |];
      try (exists [], [], []; repeat split; by left).
    destruct (loop_shape w table formatter' next 0) as (rows & tail & Hops & Htail).
    destruct (loop w table formatter' next 0) as [res ops]. cbn [fst snd] in *.
    exists [Write header], rows, tail. rewrite Hops. repeat split; [|done].
    right. split; [done|]. by eexists.
  - destruct (loop_shape w table formatter next 0) as (rows & tail & Hops & Htail).
    exists [], rows, tail. repeat split; [done|by left|done].
Qed.

Lemma Close_not_body w table formatter next :
  Close ∉ (body w table formatter next).2.
Proof.
  destruct (body_shape w table formatter next)
    as (header & rows & tail & -> & Hh & Ht).
  rewrite !not_elem_of_app. repeat split.
  - destruct Hh as [->|(_ & h & ->)]; [apply not_elem_of_nil|].
    rewrite not_elem_of_cons. split; [done|apply not_elem_of_nil].
  - apply Close_not_written.
  - destruct Ht as [->|(row & -> & _)]; [apply not_elem_of_nil|].
    rewrite !not_elem_of_cons. repeat split; try done. apply not_elem_of_nil.
Qed.

(** While the formatter takes the rows and the pager is found open, the loop
    writes them one after the other and goes on with what follows. *)
Lemma loop_open w table formatter (fmt : list gostring -> gostring) evs rows rest k :
  Forall2 (fun event row => Table.row table event = inl row) evs rows ->
  Forall (fun row => formatRow w formatter row = Ret (fmt row, None, formatter)) rows ->
  (forall j, (j < length evs)%nat -> isClosed w (k + j) = false) ->
  loop w table formatter ((inl <$> evs) ++ rest) k
  = ((loop w table formatter rest (k + length evs)).1,
     written (fmt <$> rows) ++ (loop w table formatter rest (k + length evs)).2).
Proof.
  intros Hrows. revert k.
  induction Hrows as [|event row evs rows Hrow Hrows IH]; intros k Hfmt Hopen.
  - cbn. rewrite Nat.add_0_r. by destruct (loop w table formatter rest k).
  - apply Forall_cons in Hfmt as [Hf Hfmt].
    cbn [fmap list_fmap app loop]. rewrite Hrow, Hf.
    pose proof (Hopen 0%nat ltac:(cbn; lia)) as H0. rewrite Nat.add_0_r in H0.
    rewrite H0. rewrite (IH (S k) Hfmt).
    + cbn [length]. replace (k + S (length evs))%nat with (S k + length evs)%nat by lia.
      done.
    + intros j Hj. replace (S k + j)%nat with (k + S j)%nat by lia.
      apply Hopen. cbn. lia.
Qed.

Lemma loop_stopped w table formatter stop rest k :
  loop w table formatter (stopped stop rest) k = (Ret stop, []).
Proof. by destruct stop. Qed.

Lemma run_started w cmd iter auditTable calls :
  1 <= Audit.perPage cmd ->
  Audit.iterAndAuditTable cmd [] = (inl (iter, auditTable), calls) ->
  startPager w = None ->
  run w cmd
  = (withFailure
       (body w (Table.ofAudit (timeFormatter w) auditTable)
               (chooseFormatter w (Audit.json cmd)
                  (Table.ofAudit (timeFormatter w) auditTable))
               (events w iter)).1,
     calls,
     (body w (Table.ofAudit (timeFormatter w) auditTable)
             (chooseFormatter w (Audit.json cmd)
                (Table.ofAudit (timeFormatter w) auditTable))
             (events w iter)).2 ++ [Close]).
Proof.
  intros Hp Hit Hs. unfold run.
  destruct (Z.ltb_spec (Audit.perPage cmd) 1); [lia|].
  rewrite Hit, Hs.
  by destruct (body _ _ _ _).
Qed.

Lemma row_length timeFormatter t event cells :
  Table.row (Table.ofAudit timeFormatter t) event = inl cells ->
  length cells = length (Table.columns (Table.ofAudit timeFormatter t)).
Proof.
  destruct t as [tree|]; cbn; unfold Table.baseRow.
  - destruct (Table.subject event tree) as [subject|err]; [|done].
    destruct (Table.actor event) as [actor|err]; [|done].
    by intros [= <-].
  - destruct (Table.actor event) as [actor|err]; [|done].
    by intros [= <-].
Qed.

Lemma header_length timeFormatter t :
  length (Table.header (Table.ofAudit timeFormatter t))
  = length (Table.columns (Table.ofAudit timeFormatter t)).
Proof. by destruct t. Qed.

End Loop.

(** X21.  [run] closes the pager it has started, once and as the last thing
    it does, however it ends; it starts none when the page size is below
    one, when there is nothing to audit or when no pager starts.  A page
    size below one is refused before any call to the client. *)
Theorem run_closes_the_pager (w : Run.World) (cmd : Audit.AuditCommand) :
  ((Run.run w cmd).2 = []
   \/ exists ops, (Run.run w cmd).2 = ops ++ [Run.Close] /\ Run.Close ∉ ops)
  /\ ((Run.run w cmd).2 = []
      <-> Audit.perPage cmd < 1
          \/ (exists err, (Audit.iterAndAuditTable cmd []).1 = inr err)
          \/ (exists err, Run.startPager w = Some err))
  /\ (Audit.perPage cmd < 1 ->
      Run.run w cmd = (Ret (Some (Run.PerPage (Audit.perPage cmd))), [], [])).
Proof.
  unfold Run.run. destruct (Z.ltb_spec (Audit.perPage cmd) 1) as [Hp|Hp].
  { cbn. repeat split; try done; [by left|by left]. }
  split; [|split; [|lia]].
  - destruct (Audit.iterAndAuditTable cmd []) as [[[iter auditTable]|err] calls];
      [|by left].
    destruct (Run.startPager w) as [err|]; [by left|].
    pose proof (Close_not_body w (Table.ofAudit (Run.timeFormatter w) auditTable)
      (Run.chooseFormatter w (Audit.json cmd)
         (Table.ofAudit (Run.timeFormatter w) auditTable)) (Run.events w iter)) as Hc.
    destruct (Run.body _ _ _ _) as [res ops]. right. by exists ops.
  - destruct (Audit.iterAndAuditTable cmd []) as [[[iter auditTable]|err] calls];
      cbn [fst snd].
    + destruct (Run.startPager w) as [err|]; cbn [snd].
      * split; [|done]. intros _. right. right. by eexists.
      * destruct (Run.body _ _ _ _) as [res ops]. cbn [snd]. split.
        -- intros Happ. by apply app_nil in Happ as [_ ?].
        -- intros [?|[[err ?]|[err ?]]]; [lia|done|done].
    + split; [|done]. intros _. right. left. by eexists.
Qed.

(** X22.  What [run] writes: the header at most once and first, never in
    JSON; then row after row, each followed by a check of the pager; a check
    that finds the pager gone is followed by nothing but the closing, and
    [run] then returns no error. *)
Theorem run_writes_then_checks (w : Run.World) (cmd : Audit.AuditCommand) :
  (Run.run w cmd).2 = []
  \/ exists header rows tail,
       (Run.run w cmd).2 = header ++ written rows ++ tail ++ [Run.Close]
       /\ (header = [] \/ Audit.json cmd = false /\ exists h, header = [Run.Write h])
       /\ (tail = []
           \/ exists row, tail = [Run.Write row; Run.IsClosed true]
                /\ (Run.run w cmd).1.1 = Ret None).
Proof.
  unfold Run.run. destruct (Z.ltb_spec (Audit.perPage cmd) 1) as [Hp|Hp]; [by left|].
  destruct (Audit.iterAndAuditTable cmd []) as [[[iter auditTable]|err] calls];
    [|by left].
  destruct (Run.startPager w) as [err|]; [by left|].
  destruct (body_shape w (Table.ofAudit (Run.timeFormatter w) auditTable)
    (Run.chooseFormatter w (Audit.json cmd)
       (Table.ofAudit (Run.timeFormatter w) auditTable)) (Run.events w iter))
    as (header & rows & tail & Hops & Hh & Ht).
  destruct (Run.body _ _ _ _) as [res ops]. cbn [fst snd] in *. right.
  exists header, rows, tail. rewrite Hops, <- !(assoc_L (++)). split; [done|]. split.
  - destruct Hh as [->|[Hprint Hh]]; [by left|]. right. split; [|done].
    unfold Run.chooseFormatter in Hprint. by destruct (Audit.json cmd).
  - destruct Ht as [->|(row & -> & ->)]; [by left|]. right. by exists row.
Qed.

Section JSON.

Import Run.

Lemma json_row w timeFormatter t cells :
  length cells = length (Table.columns (Table.ofAudit timeFormatter t)) ->
  (Marshal w (record (Table.header (Table.ofAudit timeFormatter t)) cells)).2 = None ->
  formatRow w
    (JSON (JSONFormatter.newJSONFormatter (Table.header (Table.ofAudit timeFormatter t))))
    cells
  = Ret (jsonLine w (Table.ofAudit timeFormatter t) cells, None,
         JSON (JSONFormatter.newJSONFormatter
                 (Table.header (Table.ofAudit timeFormatter t)))).
Proof.
  intros Hlen Hm. unfold formatRow.
  rewrite formatRow_matching by (rewrite header_length; lia).
  unfold jsonLine.
  destruct (Marshal w _) as [jsonData err]. cbn in Hm. subst err.
  by rewrite bind_Ret.
Qed.

Lemma json_rows w timeFormatter t evs rows :
  Forall2 (fun event row => Table.row (Table.ofAudit timeFormatter t) event = inl row)
          evs rows ->
  Forall (fun row =>
            (Marshal w (record (Table.header (Table.ofAudit timeFormatter t)) row)).2
            = None) rows ->
  Forall (fun row =>
            formatRow w
              (JSON (JSONFormatter.newJSONFormatter
                       (Table.header (Table.ofAudit timeFormatter t)))) row
            = Ret (jsonLine w (Table.ofAudit timeFormatter t) row, None,
                   JSON (JSONFormatter.newJSONFormatter
                           (Table.header (Table.ofAudit timeFormatter t))))) rows.
Proof.
  induction 1 as [|event row evs rows Hrow _ IH]; intros Hm; [done|].
  apply Forall_cons in Hm as [Hm Hms]. constructor; [|by apply IH].
  apply json_row; [|done]. by apply row_length in Hrow.
Qed.

End JSON.

(** X23.  In JSON, with a pager that stays open, [run] writes one line per
    event, in the order of the iterator and with no header: the record of
    the row as the encoder writes it, and a newline.  It returns no error
    when the iterator is exhausted, and the error of the iterator when it
    stops with one, after the lines of the events before. *)
Theorem json_audit_line_per_event (w : Run.World) (cmd : Audit.AuditCommand)
    (iter : Audit.AuditEventIterator) (auditTable : Audit.auditTable)
    (calls : list Audit.call) (evs : list Table.Event) (rows : list (list gostring))
    (stop : option error) (rest : list (Table.Event + error)) :
  1 <= Audit.perPage cmd ->
  Audit.json cmd = true ->
  Audit.iterAndAuditTable cmd [] = (inl (iter, auditTable), calls) ->
  Run.startPager w = None ->
  Run.events w iter = (inl <$> evs) ++ stopped stop rest ->
  Forall2 (fun event row =>
             Table.row (Table.ofAudit (Run.timeFormatter w) auditTable) event = inl row)
          evs rows ->
  Forall (fun row =>
            (Run.Marshal w
               (record (Table.header (Table.ofAudit (Run.timeFormatter w) auditTable))
                       row)).2 = None) rows ->
  (forall k, (k < length evs)%nat -> Run.isClosed w k = false) ->
  Run.run w cmd
  = (Ret (Run.Failed <$> stop), calls,
     written (jsonLine w (Table.ofAudit (Run.timeFormatter w) auditTable) <$> rows)
     ++ [Run.Close]).
Proof.
  intros Hp Hjson Hit Hs Hev Hrows Hm Hopen.
  rewrite (run_started w cmd iter auditTable calls Hp Hit Hs).
  unfold Run.chooseFormatter, Run.body. rewrite Hjson. cbn [Run.printHeader
    JSONFormatter.printHeader]. rewrite Hev.
  rewrite (loop_open w _ _ (jsonLine w (Table.ofAudit (Run.timeFormatter w) auditTable))
             evs rows (stopped stop rest) 0 Hrows (json_rows _ _ _ _ _ Hrows Hm) Hopen).
  rewrite loop_stopped. cbn [fst snd Run.withFailure]. by rewrite (right_id_L [] (++)).
Qed.

Lemma json_audit_line_per_event_witness :
  Run.run (exampleWorld (fun _ => false)) (exampleCommand true)
  = (Ret None, exampleCalls,
     written (jsonLine (exampleWorld (fun _ => false))
                (Table.ofAudit (fun _ => str "now") Audit.secretAuditTable)
              <$> exampleRows)
     ++ [Run.Close]).
Proof.
  apply (json_audit_line_per_event (exampleWorld (fun _ => false)) (exampleCommand true)
           (Audit.SecretEventIterator (str "ns/repo/secret")) Audit.secretAuditTable
           exampleCalls
           [exampleEvent "alice" "read"; exampleEvent "bob" "create"]
           exampleRows None []).
  - vm_compute. discriminate.
  - reflexivity.
  - reflexivity.
  - reflexivity.
  - reflexivity.
  - repeat constructor.
  - repeat constructor.
  - reflexivity.
Defined.

(** X24.  When the pager is found gone after the line of an event, [run]
    stops there: the events that follow are not asked for their rows, nothing
    more is written, and [run] returns no error, whatever the iterator had
    left, an error included. *)
Theorem pager_exit_stops_audit (w : Run.World) (cmd : Audit.AuditCommand)
    (iter : Audit.AuditEventIterator) (auditTable : Audit.auditTable)
    (calls : list Audit.call) (evs : list Table.Event) (rows : list (list gostring))
    (event : Table.Event) (row : list gostring) (rest : list (Table.Event + error)) :
  1 <= Audit.perPage cmd ->
  Audit.json cmd = true ->
  Audit.iterAndAuditTable cmd [] = (inl (iter, auditTable), calls) ->
  Run.startPager w = None ->
  Run.events w iter = (inl <$> evs) ++ inl event :: rest ->
  Forall2 (fun event row =>
             Table.row (Table.ofAudit (Run.timeFormatter w) auditTable) event = inl row)
          (evs ++ [event]) (rows ++ [row]) ->
  Forall (fun row =>
            (Run.Marshal w
               (record (Table.header (Table.ofAudit (Run.timeFormatter w) auditTable))
                       row)).2 = None) (rows ++ [row]) ->
  (forall k, (k < length evs)%nat -> Run.isClosed w k = false) ->
  Run.isClosed w (length evs) = true ->
  Run.run w cmd
  = (Ret None, calls,
     written (jsonLine w (Table.ofAudit (Run.timeFormatter w) auditTable) <$> rows)
     ++ [Run.Write (jsonLine w (Table.ofAudit (Run.timeFormatter w) auditTable) row);
         Run.IsClosed true; Run.Close]).
Proof.
  intros Hp Hjson Hit Hs Hev Hrows Hm Hopen Hclosed.
  assert (length evs = length rows) as Hlen.
  { apply Forall2_length in Hrows. rewrite !length_app in Hrows. cbn in Hrows. lia. }
  apply Forall2_app_inv in Hrows as [Hrows Hrow]; [|done].
  apply Forall2_cons in Hrow as [Hrow _].
  pose proof (json_rows _ _ _ _ _ Hrows (proj1 (proj1 (Forall_app _ _ _) Hm))) as Hfs.
  apply Forall_app in Hm as [Hm Hmrow]. apply Forall_cons in Hmrow as [Hmrow _].
  rewrite (run_started w cmd iter auditTable calls Hp Hit Hs).
  unfold Run.chooseFormatter, Run.body. rewrite Hjson. cbn [Run.printHeader
    JSONFormatter.printHeader]. rewrite Hev.
  rewrite (loop_open w _ _ (jsonLine w (Table.ofAudit (Run.timeFormatter w) auditTable))
             evs rows (inl event :: rest) 0 Hrows Hfs Hopen).
  cbn [Run.loop]. rewrite Hrow.
  rewrite json_row by (by apply row_length in Hrow || done).
  rewrite Nat.add_0_l, Hclosed. cbn [fst snd Run.withFailure].
  by rewrite <- (assoc_L (++)).
Qed.

Lemma pager_exit_stops_audit_witness :
  Run.run (exampleWorld (fun _ => true)) (exampleCommand true)
  = (Ret None, exampleCalls,
     written (jsonLine (exampleWorld (fun _ => true))
                (Table.ofAudit (fun _ => str "now") Audit.secretAuditTable) <$> [])
     ++ [Run.Write (jsonLine (exampleWorld (fun _ => true))
                      (Table.ofAudit (fun _ => str "now") Audit.secretAuditTable)
                      [str "alice"; str "read"; str "10.0.0.1"; str "now"]);
         Run.IsClosed true; Run.Close]).
Proof.
  apply (pager_exit_stops_audit (exampleWorld (fun _ => true)) (exampleCommand true)
           (Audit.SecretEventIterator (str "ns/repo/secret")) Audit.secretAuditTable
           exampleCalls [] [] (exampleEvent "alice" "read")
           [str "alice"; str "read"; str "10.0.0.1"; str "now"]
           [inl (exampleEvent "bob" "create")]).
  - vm_compute. discriminate.
  - reflexivity.
  - reflexivity.
  - reflexivity.
  - reflexivity.
  - repeat constructor.
  - repeat constructor.
  - intros k Hk. cbn in Hk. lia.
  - reflexivity.
Defined.

Section Columns.

Import Run.

Lemma header_ok timeFormatter t :
  Forall okCell (Table.header (Table.ofAudit timeFormatter t)).
Proof. destruct t; repeat constructor; by vm_compute. Qed.

Lemma column_row w T cols ws row :
  Forall width ws -> Forall okCell row -> (length row <= length ws)%nat ->
  formatRow w
    (Columns {| tableWidth := T; computedColumnWidths := Some ws; columns := cols |}) row
  = Ret (block ws row, None,
         Columns {| tableWidth := T; computedColumnWidths := Some ws; columns := cols |}).
Proof.
  intros Hws Hrow Hlen. unfold formatRow, ColumnFormatter.formatRow.
  unfold columnWidths. cbn [computedColumnWidths].
  rewrite !bind_Ret. rewrite format_spec by done. by rewrite !bind_Ret.
Qed.

Lemma column_header w T cols ws row :
  Widths.allocate T cols = Ret ws ->
  Forall width ws -> Forall okCell row -> (length row <= length ws)%nat ->
  formatRow w (Columns (newColumnFormatter T cols)) row
  = Ret (block ws row, None,
         Columns {| tableWidth := T; computedColumnWidths := Some ws; columns := cols |}).
Proof.
  intros Ha Hws Hrow Hlen. unfold formatRow.
  rewrite (formatRow_new T cols ws
             {| tableWidth := T; computedColumnWidths := Some ws; columns := cols |})
    by (by apply columnWidths_new).
  rewrite format_spec by done. by rewrite !bind_Ret.
Qed.

End Columns.

(** X25.  In columns, with widths that are all positive and a pager that
    stays open, [run] writes the header and then the events in the order of
    the iterator, each as the block of its row; the widths are those of the
    allocator for the width of the terminal, 80 when the terminal does not
    tell, and the same for the header and every row.  It returns no error
    when the iterator is exhausted and the error of the iterator when it
    stops with one. *)
Theorem column_audit_header_then_blocks (w : Run.World) (cmd : Audit.AuditCommand)
    (iter : Audit.AuditEventIterator) (auditTable : Audit.auditTable)
    (calls : list Audit.call) (evs : list Table.Event) (rows : list (list gostring))
    (stop : option error) (rest : list (Table.Event + error)) (ws : list Z) :
  1 <= Audit.perPage cmd ->
  Audit.json cmd = false ->
  Audit.iterAndAuditTable cmd [] = (inl (iter, auditTable), calls) ->
  Run.startPager w = None ->
  Run.events w iter = (inl <$> evs) ++ stopped stop rest ->
  Forall2 (fun event row =>
             Table.row (Table.ofAudit (Run.timeFormatter w) auditTable) event = inl row)
          evs rows ->
  Widths.allocate (terminalWidth w)
    (Table.columns (Table.ofAudit (Run.timeFormatter w) auditTable)) = Ret ws ->
  Forall width ws ->
  Forall (Forall okCell) rows ->
  (forall k, (k < length evs)%nat -> Run.isClosed w k = false) ->
  Run.run w cmd
  = (Ret (Run.Failed <$> stop), calls,
     Run.Write (block ws (Table.header (Table.ofAudit (Run.timeFormatter w) auditTable)))
     :: written (block ws <$> rows) ++ [Run.Close]).
Proof.
  intros Hp Hjson Hit Hs Hev Hrows Ha Hws Hok Hopen.
  pose proof (allocate_length _ _ _ Ha) as Hlen.
  rewrite (run_started w cmd iter auditTable calls Hp Hit Hs).
  unfold Run.chooseFormatter, Run.body. rewrite Hjson.
  cbn [Run.printHeader ColumnFormatter.printHeader]. fold (terminalWidth w).
  rewrite (column_header w _ _ ws _ Ha Hws (header_ok _ _))
    by (rewrite header_length; lia).
  rewrite Hev.
  rewrite (loop_open w _ _ (block ws) evs rows (stopped stop rest) 0 Hrows).
  - rewrite loop_stopped. cbn [fst snd Run.withFailure].
    by rewrite (right_id_L [] (++)).
  - clear Hev Hopen. induction Hrows as [|event row evs rows Hrow _ IH]; [done|].
    apply Forall_cons in Hok as [Hcells Hok]. constructor; [|by apply IH].
    apply column_row; [done|done|]. apply row_length in Hrow. lia.
  - done.
Qed.

Lemma column_audit_header_then_blocks_witness :
  Run.run (exampleWorld (fun _ => false)) (exampleCommand false)
  = (Ret None, exampleCalls,
     Run.Write (block [18; 18; 18; 18]
                  (Table.header (Table.ofAudit (fun _ => str "now")
                                   Audit.secretAuditTable)))
     :: written (block [18; 18; 18; 18] <$> exampleRows) ++ [Run.Close]).
Proof.
  apply (column_audit_header_then_blocks (exampleWorld (fun _ => false))
           (exampleCommand false)
           (Audit.SecretEventIterator (str "ns/repo/secret")) Audit.secretAuditTable
           exampleCalls
           [exampleEvent "alice" "read"; exampleEvent "bob" "create"]
           exampleRows None [] [18; 18; 18; 18]).
  - vm_compute. discriminate.
  - reflexivity.
  - reflexivity.
  - reflexivity.
  - reflexivity.
  - repeat constructor.
  - vm_compute. reflexivity.
  - repeat constructor; vm_compute; discriminate.
  - repeat constructor; vm_compute; discriminate.
  - reflexivity.
Defined.
